(** * Asylo: enclave lifecycle, fork, signals, sockets, host calls and keys

    A shallow embedding of the parts of Asylo that the lifecycle, fork and
    signing-key properties are about, and of the code around them:

    - [Lifecycle], [Initialization], [Snapshot]:
      asylo/platform/core/trusted_application.cc (VerifyAndSetState,
      InitializeInternal, InitializeIO, InitializeEnvironmentVariables, the
      __asylo_user_* entry points, __asylo_handle_signal and the snapshot
      entry points, and sequences of entries);
    - [Fork], [ForkChild], [Signals]:
      asylo/platform/arch/sgx/untrusted/ocalls.cc
      (ocall_enc_untrusted_fork, ocall_enc_untrusted_register_signal_handler
      and the signal handlers it installs);
    - [Transmit]: asylo/platform/posix/sockets/socket_transmit.cc
      (SocketTransmit::Read and Write);
    - [HostCalls]: asylo/platform/host_call/trusted/host_calls.cc
      (enc_untrusted_sendmsg and enc_untrusted_recvmsg);
    - [AesGcmSiv]: asylo/platform/crypto/aes_gcm_siv.h
      (AesGcmSivCryptor::Seal and Open);
    - [Keys]: the validation rules of the signing-key classes, whose code is
      exercised by asylo/crypto/ecdsa_signing_key_test.h.

    Stateful code is written in a small state monad over the enclave's
    fields; host system calls are answered by an explicit record or list of
    host responses; functions declared outside the sources are methods of
    type classes. *)

From Stdlib Require Import ZArith Ascii String DecimalString.
From stdpp Require Import base decidable option list gmap strings.

Local Open Scope Z_scope.

(** ** Status values (asylo/util/status.h, error::GoogleError) *)

Module Util.

Inductive GoogleError : Set :=
  | OK | CANCELLED | UNKNOWN | INVALID_ARGUMENT | DEADLINE_EXCEEDED
  | NOT_FOUND | ALREADY_EXISTS | PERMISSION_DENIED | RESOURCE_EXHAUSTED
  | FAILED_PRECONDITION | ABORTED | OUT_OF_RANGE | UNIMPLEMENTED | INTERNAL
  | UNAVAILABLE | DATA_LOSS | UNAUTHENTICATED.

#[global] Instance GoogleError_eq_dec : EqDecision GoogleError.
Proof. solve_decision. Defined.

Record Status : Set := mkStatus {
  error_code : GoogleError;
  error_message : string
}.

#[global] Instance Status_eq_dec : EqDecision Status.
Proof. solve_decision. Defined.

Definition OkStatus : Status := mkStatus OK EmptyString.

(** [Status::ok()] *)
Definition ok (s : Status) : bool := bool_decide (error_code s = OK).

(** The decimal rendering [absl::StrCat] gives an integer argument. *)
Definition AlphaNum (n : Z) : string := NilZero.string_of_int (Z.to_int n).

End Util.

Export Util.

(** ** The enclave lifecycle (trusted_application.cc) *)

Module Lifecycle.

(** Modelled from the spec: the enumeration [TrustedApplication::State] is
    declared in trusted_application.h, which is not among the sources; the
    enumerators the code names are listed in the order section 4.2 of the
    specification gives them. *)
Inductive State : Set :=
  | kUninitialized
  | kInternalInitializing
  | kUserInitializing
  | kRunning
  | kFinalizing
  | kFinalized.

#[global] Instance State_eq_dec : EqDecision State.
Proof. solve_decision. Defined.

(** The enumerator's integer value, used by [<], [>] and by [StrCat]. *)
Definition State_value (s : State) : Z :=
  match s with
  | kUninitialized => 0
  | kInternalInitializing => 1
  | kUserInitializing => 2
  | kRunning => 3
  | kFinalizing => 4
  | kFinalized => 5
  end.

Record EnvironmentVariable : Set := {
  ev_name : option string;     (* has_name() / name() *)
  ev_value : option string     (* has_value() / value() *)
}.

(** The fields of [EnclaveConfig] this file reads. *)
Record EnclaveConfig : Set := {
  environment_variables : list EnvironmentVariable;
  log_directory : string;
  vlog_level : Z;
  stdin_fd : Z;
  stdout_fd : Z;
  stderr_fd : Z;
  current_working_directory : string
}.

(** [EnclaveInput] and [EnclaveFinal]: only user-defined extensions, kept
    as their bytes. *)
Record EnclaveInput : Set := {
  input_extensions : string
}.

Record EnclaveFinal : Set := {
  final_extensions : string
}.

Record EnclaveSignal : Set := {
  sig_signum : Z;
  sig_code : Z;
  sig_gregs : list Z
}.

(** Calls that leave the translation unit, and writes of the state field, in
    the order they happen. The trace is a ghost field: it records what ran. *)
Inductive Event : Set :=
  | EvSetState (s : State)
  | EvInitLogging (dir name : string) (level : Z)
  | EvInitializeEnclaveAssertionAuthorities
  | EvUserInitialize
  | EvUserRun
  | EvUserFinalize
  | EvThreadManagerFinalize
  | EvHandleSignal (signum code : Z) (gregs : list Z).

#[global] Instance Event_eq_dec : EqDecision Event.
Proof. solve_decision. Defined.

(** [io::IOManager]: what [InitializeIO] registers. *)
Record IOManager : Type := {
  host_fds : list Z;
  path_handlers : list string;
  io_cwd : string
}.

(** The trusted application object and the singletons the entry points
    reach: the state field guarded by [mutex_], the enclave name and
    config, the process environment, the I/O manager and the signal
    manager's mask. *)
Record Enclave : Type := mkEnclave {
  enclave_state_ : State;
  enclave_name : string;
  enclave_config : option EnclaveConfig;
  environ : gmap string string;
  io_manager : IOManager;
  signal_mask : gset Z;
  trace : list Event
}.

Definition with_state (s : State) (w : Enclave) : Enclave :=
  mkEnclave s (enclave_name w) (enclave_config w) (environ w) (io_manager w)
            (signal_mask w) (trace w ++ [EvSetState s]).

Definition with_name (n : string) (w : Enclave) : Enclave :=
  mkEnclave (enclave_state_ w) n (enclave_config w) (environ w)
            (io_manager w) (signal_mask w) (trace w).

Definition with_config (c : EnclaveConfig) (w : Enclave) : Enclave :=
  mkEnclave (enclave_state_ w) (enclave_name w) (Some c) (environ w)
            (io_manager w) (signal_mask w) (trace w).

Definition with_environ (e : gmap string string) (w : Enclave) : Enclave :=
  mkEnclave (enclave_state_ w) (enclave_name w) (enclave_config w) e
            (io_manager w) (signal_mask w) (trace w).

Definition with_io (io : IOManager) (w : Enclave) : Enclave :=
  mkEnclave (enclave_state_ w) (enclave_name w) (enclave_config w) (environ w)
            io (signal_mask w) (trace w).

Definition with_event (e : Event) (w : Enclave) : Enclave :=
  mkEnclave (enclave_state_ w) (enclave_name w) (enclave_config w) (environ w)
            (io_manager w) (signal_mask w) (trace w ++ [e]).

(** *** The state monad of the entry points *)

Definition Comp (A : Type) : Type := Enclave → A * Enclave.

#[global] Instance Comp_ret : MRet Comp := λ A a w, (a, w).
#[global] Instance Comp_bind : MBind Comp :=
  λ A B f m w, let '(a, w') := m w in f a w'.

Definition get_enclave : Comp Enclave := λ w, (w, w).
Definition modify (f : Enclave → Enclave) : Comp unit := λ w, (tt, f w).
Definition emit (e : Event) : Comp unit := modify (with_event e).

(** *** State accessors *)

(** The message of the failed-precondition status:
    [StrCat("Enclave is in state: ", enclave_state_, " expected state: ",
    expected_state)]. *)
Definition state_mismatch_message (current expected : State) : string :=
  "Enclave is in state: " +:+ AlphaNum (State_value current)
    +:+ " expected state: " +:+ AlphaNum (State_value expected).

Definition VerifyAndSetState (expected_state new_state : State) : Comp Status :=
  w ← get_enclave;
  if bool_decide (enclave_state_ w ≠ expected_state) then
    mret (mkStatus FAILED_PRECONDITION
            (state_mismatch_message (enclave_state_ w) expected_state))
  else
    modify (with_state new_state);;
    mret OkStatus.

Definition GetState : Comp State := w ← get_enclave; mret (enclave_state_ w).

Definition SetState (state : State) : Comp unit := modify (with_state state).

(** *** Collaborators declared outside the sources *)

(** The virtual methods of [TrustedApplication] a user enclave overrides.
    They return a [Status] (what [Run] writes to its output message is not
    kept); a C++ exception thrown by them never returns to the entry point
    (the handlers around the entry points abort the process), so it is
    outside this model. Logging is left out throughout. *)
Class TrustedApplication : Type := {
  Initialize : EnclaveConfig → Status;
  Run : EnclaveInput → Status;
  Finalize : EnclaveFinal → Status
}.

(** Functions and constants the translation unit uses but does not define:
    the generated protobuf parsers, the bridge signal table, the size of the
    register array and the enclave's signal manager. *)
Class Platform : Type := {
  ParseEnclaveConfig : string → option EnclaveConfig;
  ParseEnclaveInput : string → option EnclaveInput;
  ParseEnclaveFinal : string → option EnclaveFinal;
  ParseEnclaveSignal : string → option EnclaveSignal;
  FromBridgeSignal : Z → Z;
  NGREG : nat;
  HandleSignal : Z → Z → list Z → Status
}.

(** What an entry point with a [StatusSerializer] returns: either the
    literal [return 1;] of a failed argument check, with nothing written to
    [*output], or [return status_serializer.Serialize(status);]. *)
Inductive EntryResult : Set :=
  | ReturnOne
  | Serialize (status : Status).

#[global] Instance EntryResult_eq_dec : EqDecision EntryResult.
Proof. solve_decision. Defined.

(** The entry point reported success to its caller. *)
Definition succeeded (r : EntryResult) : Prop :=
  ∃ status, r = Serialize status ∧ ok status = true.

(** [output] and [output_len] are pointers; the model keeps whether each is
    non-null. *)
Definition VerifyOutputArguments (output output_len : bool) : Status :=
  if negb output || negb output_len then
    mkStatus INVALID_ARGUMENT
             "Invalid input parameter passed to __asylo_user...()"
  else OkStatus.

(** [setenv(name, value, overwrite)] *)
Definition setenv (name value : string) (overwrite : Z)
    (env : gmap string string) : gmap string string :=
  match env !! name with
  | Some _ => if bool_decide (overwrite = 0) then env else <[name := value]> env
  | None => <[name := value]> env
  end.

Fixpoint InitializeEnvironmentVariables
    (variables : list EnvironmentVariable) : Comp Status :=
  match variables with
  | [] => mret OkStatus
  | variable :: rest =>
      match ev_name variable, ev_value variable with
      | Some name, Some value =>
          let overwrite := 0 in
          w ← get_enclave;
          modify (with_environ (setenv name value overwrite (environ w)));;
          InitializeEnvironmentVariables rest
      | _, _ =>
          mret (mkStatus INVALID_ARGUMENT
                  "Environment variables should set both name and value fields")
      end
  end.

Definition RegisterHostFileDescriptor (fd : Z) (io : IOManager) : IOManager :=
  {| host_fds := host_fds io ++ [fd];
     path_handlers := path_handlers io;
     io_cwd := io_cwd io |}.

Definition RegisterVirtualPathHandler (path : string) (io : IOManager)
    : IOManager :=
  {| host_fds := host_fds io;
     path_handlers := path_handlers io ++ [path];
     io_cwd := io_cwd io |}.

Definition SetCurrentWorkingDirectory (dir : string) (io : IOManager)
    : IOManager :=
  {| host_fds := host_fds io;
     path_handlers := path_handlers io;
     io_cwd := dir |}.

Definition register_if_open (fd : Z) (io : IOManager) : IOManager :=
  if bool_decide (fd >= 0) then RegisterHostFileDescriptor fd io else io.

Definition InitializeIO (config : EnclaveConfig) : Comp unit :=
  w ← get_enclave;
  let io0 := io_manager w in
  let io1 := register_if_open (stdin_fd config) io0 in
  let io2 := register_if_open (stdout_fd config) io1 in
  let io3 := register_if_open (stderr_fd config) io2 in
  let io4 := RegisterVirtualPathHandler EmptyString io3 in
  let io5 := RegisterVirtualPathHandler "/dev/random" io4 in
  let io6 := RegisterVirtualPathHandler "/dev/urandom" io5 in
  modify (with_io
            (SetCurrentWorkingDirectory (current_working_directory config) io6)).

Definition SetEnclaveName (name : string) : Comp unit :=
  modify (with_name name).

Definition SetEnclaveConfig (config : EnclaveConfig) : Comp unit :=
  modify (with_config config).

(** [TrustedApplication::InitializeInternal]. The statuses of the
    environment-variable and assertion-authority steps are only logged. *)
Definition InitializeInternal `{TrustedApplication} (config : EnclaveConfig)
    : Comp Status :=
  InitializeIO config;;
  _ ← InitializeEnvironmentVariables (environment_variables config);
  w ← get_enclave;
  emit (EvInitLogging (log_directory config) (enclave_name w)
                      (vlog_level config));;
  SetEnclaveConfig config;;
  emit EvInitializeEnclaveAssertionAuthorities;;
  status ← VerifyAndSetState kInternalInitializing kUserInitializing;
  if negb (ok status) then mret status
  else
    emit EvUserInitialize;;
    mret (Initialize config).

Definition __asylo_user_init `{TrustedApplication} `{Platform}
    (name config : string) (output output_len : bool) : Comp EntryResult :=
  let status := VerifyOutputArguments output output_len in
  if negb (ok status) then mret ReturnOne
  else
    match ParseEnclaveConfig config with
    | None =>
        mret (Serialize (mkStatus INVALID_ARGUMENT
                                  "Failed to parse EnclaveConfig"))
    | Some enclave_config =>
        status ← VerifyAndSetState kUninitialized kInternalInitializing;
        if negb (ok status) then mret (Serialize status)
        else
          SetEnclaveName name;;
          status ← InitializeInternal enclave_config;
          if negb (ok status) then
            SetState kUninitialized;;
            mret (Serialize status)
          else
            SetState kRunning;;
            mret (Serialize status)
    end.

Definition __asylo_user_run `{TrustedApplication} `{Platform}
    (input : string) (output output_len : bool) : Comp EntryResult :=
  let status := VerifyOutputArguments output output_len in
  if negb (ok status) then mret ReturnOne
  else
    match ParseEnclaveInput input with
    | None =>
        mret (Serialize (mkStatus INVALID_ARGUMENT
                                  "Failed to parse EnclaveInput"))
    | Some enclave_input =>
        state ← GetState;
        if bool_decide (state ≠ kRunning) then
          mret (Serialize (mkStatus FAILED_PRECONDITION
                                    "Enclave not in state RUNNING"))
        else
          emit EvUserRun;;
          mret (Serialize (Run enclave_input))
    end.

Definition __asylo_user_fini `{TrustedApplication} `{Platform}
    (input : string) (output output_len : bool) : Comp EntryResult :=
  let status := VerifyOutputArguments output output_len in
  if negb (ok status) then mret ReturnOne
  else
    match ParseEnclaveFinal input with
    | None =>
        mret (Serialize (mkStatus INVALID_ARGUMENT
                                  "Failed to parse EnclaveFinal"))
    | Some enclave_final =>
        status ← VerifyAndSetState kRunning kFinalizing;
        if negb (ok status) then mret (Serialize status)
        else
          emit EvUserFinalize;;
          let status := Finalize enclave_final in
          emit EvThreadManagerFinalize;;
          SetState kFinalized;;
          mret (Serialize status)
    end.

(** [static_cast<greg_t>] of a 64-bit register value: [greg_t] is a signed
    64-bit integer. *)
Definition to_greg_t (x : Z) : Z :=
  (x + 2 ^ 63) mod 2 ^ 64 - 2 ^ 63.

(** The registers the loop copies into [ucontext.uc_mcontext.gregs]:
    indices below both [NGREG] and [gregs_size()]. *)
Definition copy_gregs `{Platform} (gregs : list Z) : list Z :=
  to_greg_t <$> take (Nat.min NGREG (length gregs)) gregs.

(** [sigismember] on a signal set kept as the set of its members. *)
Definition sigismember (set : gset Z) (signum : Z) : Z :=
  if bool_decide (signum ∈ set) then 1 else 0.

Definition __asylo_handle_signal `{Platform} (input : string) : Comp Z :=
  match ParseEnclaveSignal input with
  | None => mret 1
  | Some signal =>
      current_state ← GetState;
      if bool_decide (State_value current_state < State_value kRunning)
         || bool_decide (State_value current_state > State_value kFinalizing)
      then mret 2
      else
        let signum := FromBridgeSignal (sig_signum signal) in
        if bool_decide (signum < 0) then mret 1
        else
          let si_code := sig_code signal in
          let gregs := copy_gregs (sig_gregs signal) in
          w ← get_enclave;
          let mask := signal_mask w in
          if bool_decide (sigismember mask signum ≠ 0) then mret (-1)
          else
            emit (EvHandleSignal signum si_code gregs);;
            if negb (ok (HandleSignal signum si_code gregs)) then mret 1
            else mret 0
  end.

(** *** Concrete instances for running the model *)

(** An enclave as the loader leaves it. *)
Definition fresh_enclave : Enclave :=
  {| enclave_state_ := kUninitialized;
     enclave_name := EmptyString;
     enclave_config := None;
     environ := ∅;
     io_manager :=
       {| host_fds := []; path_handlers := []; io_cwd := EmptyString |};
     signal_mask := ∅;
     trace := [] |}.

Definition in_state (s : State) : Enclave :=
  mkEnclave s (enclave_name fresh_enclave) (enclave_config fresh_enclave)
            (environ fresh_enclave) (io_manager fresh_enclave)
            (signal_mask fresh_enclave) (trace fresh_enclave).

Definition with_mask (m : gset Z) (w : Enclave) : Enclave :=
  mkEnclave (enclave_state_ w) (enclave_name w) (enclave_config w) (environ w)
            (io_manager w) m (trace w).

(** A user enclave whose initialization fails on a negative verbosity and
    whose finalization fails on a non-empty payload. *)
#[global] Instance demo_application : TrustedApplication := {|
  Initialize := λ config,
    if bool_decide (vlog_level config < 0)
    then mkStatus INTERNAL "user initialization failed"
    else OkStatus;
  Run := λ input, OkStatus;
  Finalize := λ final,
    if bool_decide (final_extensions final = EmptyString)
    then OkStatus
    else mkStatus INTERNAL "user finalization failed"
|}.

Definition demo_config (level : Z) : EnclaveConfig :=
  {| environment_variables :=
       [ {| ev_name := Some "HOME"; ev_value := Some "/" |} ];
     log_directory := "/tmp";
     vlog_level := level;
     stdin_fd := 0; stdout_fd := 1; stderr_fd := 2;
     current_working_directory := "/" |}.

(** Stand-ins for the parsers and the signal table: the config text "good"
    or "bad" selects the verbosity, a signal message is the one character
    whose code is the signal number. *)
#[global] Instance demo_platform : Platform := {|
  ParseEnclaveConfig := λ text,
    if bool_decide (text = "good") then Some (demo_config 0)
    else if bool_decide (text = "bad") then Some (demo_config (-1))
    else None;
  ParseEnclaveInput := λ text,
    if bool_decide (text = "garbage") then None
    else Some {| input_extensions := text |};
  ParseEnclaveFinal := λ text,
    if bool_decide (text = "garbage") then None
    else Some {| final_extensions := text |};
  ParseEnclaveSignal := λ text,
    match text with
    | String c EmptyString =>
        Some {| sig_signum := Z.of_N (N_of_ascii c); sig_code := 0;
                sig_gregs := [1; 2; 3] |}
    | _ => None
    end;
  FromBridgeSignal := λ n, if bool_decide (1 <= n <= 64) then n else -1;
  NGREG := 23;
  HandleSignal := λ _ _ _, OkStatus
|}.

(** The message carrying signal number 10. *)
Definition signal_10 : string := String "010"%char EmptyString.

End Lifecycle.

(** ** The fork ocall (ocalls.cc) *)

Module Fork.

(** The [errno] constants the function assigns (Linux values). *)
Definition EAGAIN : Z := 11.
Definition ENOMEM : Z := 12.
Definition EFAULT : Z := 14.

Definition NUL : ascii := "000"%char.

(** The answer of the host to one system call: the value it returns, or
    failure, where the call returns -1 and assigns [errno]. *)
Inductive SysResult : Set :=
  | SysOk (value : Z)
  | SysErr (err : Z).

(** The answer to [read]: the bytes available on the descriptor when the
    call is made (none at end of file), or failure. *)
Inductive ReadAnswer : Set :=
  | ReadData (avail : list ascii)
  | ReadErr (err : Z).

(** Everything outside the function that decides its path: the enclave
    manager and client, the host's system calls, the peer process and the
    indeterminate initial contents of the local buffer. *)
Record Host : Set := {
  manager_ok : bool;                 (* EnclaveManager::Instance().ok() *)
  take_snapshot_ok : bool;           (* EnterAndTakeSnapshot *)
  has_sgx_load_config : bool;        (* load_config.HasExtension(...) *)
  socketpair_answer : SysResult;
  pipe_answer : SysResult;
  fork_answer : SysResult;           (* the pid fork() returns here *)
  close_pipe_answer : SysResult;     (* close(pipefd[0]) or close(pipefd[1]) *)
  load_enclave_ok : bool;            (* manager->LoadEnclave(load_config) *)
  same_base_address : bool;          (* child base == parent base *)
  close_peer_answer : SysResult;     (* close(peer_socket) *)
  transfer_key_ok : bool;            (* EnterAndTransferSecureSnapshotKey *)
  enter_and_restore_ok : bool;       (* EnterAndRestore *)
  write_answer : list ascii → SysResult;
  select_answer : Z → Z → SysResult; (* by tv_sec, tv_usec *)
  read_answer : ReadAnswer;
  stack_garbage : list ascii         (* what buf holds before it is written *)
}.

(** How the call ends: it returns a value with [errno] as the caller then
    finds it, or it stores outside the local buffer, which has no defined
    behaviour. *)
Inductive Outcome : Set :=
  | Return (value : Z) (errno : Z)
  | OutOfBoundsStore (index : nat) (size : nat).

#[global] Instance Outcome_eq_dec : EqDecision Outcome.
Proof. solve_decision. Defined.

(** A system call on the current [errno]: the returned value and [errno]
    afterwards. *)
Definition sys (answer : SysResult) (errno : Z) : Z * Z :=
  match answer with
  | SysOk value => (value, errno)
  | SysErr err => (-1, err)
  end.

(** [read(fd, buf, count)]: at most [count] of the available bytes overwrite
    the start of [buf]. *)
Definition read (answer : ReadAnswer) (buf : list ascii) (count : nat)
    (errno : Z) : Z * list ascii * Z :=
  match answer with
  | ReadData avail =>
      let got := take count avail in
      (Z.of_nat (length got), got ++ drop (length got) buf, errno)
  | ReadErr err => (-1, buf, err)
  end.

(** [buf[i] = c] on an array of [length buf] elements. *)
Definition store (buf : list ascii) (i : nat) (c : ascii)
    : option (list ascii) :=
  if decide (i < length buf)%nat then Some (<[i := c]> buf) else None.

Definition char_value (c : ascii) : Z := Z.of_N (N_of_ascii c).

(** [strncmp(s1, s2, n)]: compares as unsigned characters, stops after a
    [NUL] or after [n] characters. *)
Fixpoint strncmp (s1 s2 : list ascii) (n : nat) : Z :=
  match n with
  | O => 0
  | S n' =>
      let c1 := hd NUL s1 in
      let c2 := hd NUL s2 in
      if bool_decide (c1 ≠ c2) then char_value c1 - char_value c2
      else if bool_decide (c1 = NUL) then 0
      else strncmp (tl s1) (tl s2) n'
  end.

(** A string literal as the array of characters it denotes. *)
Definition c_str (s : string) : list ascii := list_ascii_of_string s ++ [NUL].

(** [std::string::data()] / [size()] for [write]. *)
Definition str_data (s : string) : list ascii := list_ascii_of_string s.

Definition sizeof_buf : nat := 64.

(** [DoSnapshotKeyTransfer]: whether the returned status is ok, and [errno]
    afterwards. *)
Definition DoSnapshotKeyTransfer (h : Host) (errno : Z) : bool * Z :=
  let '(rc, errno) := sys (close_peer_answer h) errno in
  if bool_decide (rc < 0) then (false, errno)
  else (transfer_key_ok h, errno).

(** The branch [pid == 0] of the snapshot path. *)
Definition fork_child (h : Host) (pid errno : Z) : Outcome :=
  let '(rc, errno) := sys (close_pipe_answer h) errno in
  if bool_decide (rc < 0) then Return (-1) EFAULT
  else if negb (load_enclave_ok h) then Return (-1) ENOMEM
  else if negb (same_base_address h) then Return (-1) EAGAIN
  else
    let child_result := "Child fork succeeded"%string in
    let '(status_ok, errno) := DoSnapshotKeyTransfer h errno in
    if negb status_ok then
      let child_result := "Child DoSnapshotKeyTransfer failed"%string in
      let '(rc, errno) := sys (write_answer h (str_data child_result)) errno in
      if bool_decide (rc < 0) then Return (-1) errno
      else Return (-1) EFAULT
    else if negb (enter_and_restore_ok h) then
      let child_result := "Child EnterAndRestore failed"%string in
      let '(rc, errno) := sys (write_answer h (str_data child_result)) errno in
      if bool_decide (rc < 0) then Return (-1) errno
      else Return (-1) EAGAIN
    else
      let '(rc, errno) := sys (write_answer h (str_data child_result)) errno in
      if bool_decide (rc < 0) then Return (-1) errno
      else Return pid errno.

(** The branch [pid > 0] of the snapshot path: the parent hands over the
    snapshot key and waits for the child's confirmation. *)
Definition fork_parent (h : Host) (pid errno : Z) : Outcome :=
  let '(rc, errno) := sys (close_pipe_answer h) errno in
  if bool_decide (rc < 0) then Return (-1) EFAULT
  else
    let '(status_ok, errno) := DoSnapshotKeyTransfer h errno in
    if negb status_ok then Return (-1) EFAULT
    else
      let timeout_seconds := 5 in
      let '(wait_result, errno) :=
        sys (select_answer h timeout_seconds 0) errno in
      if bool_decide (wait_result < 0) then Return (-1) errno
      else if bool_decide (wait_result = 0) then Return (-1) EFAULT
      else
        let buf := resize sizeof_buf NUL (stack_garbage h) in
        let '(rc, buf, errno) := read (read_answer h) buf sizeof_buf errno in
        if bool_decide (rc <= 0) then Return (-1) errno
        else
          match store buf (Z.to_nat rc) NUL with
          | None => OutOfBoundsStore (Z.to_nat rc) (length buf)
          | Some buf =>
              if bool_decide
                   (strncmp buf (c_str "Child fork succeeded") sizeof_buf ≠ 0)
              then Return (-1) errno
              else Return pid errno
          end.

(** [ocall_enc_untrusted_fork(enclave_name, restore_snapshot)], run with
    [errno] as the caller left it. Logging and the release of the snapshot
    memory on scope exit do not influence the result and are left out. *)
Definition ocall_enc_untrusted_fork (h : Host) (restore_snapshot : bool)
    (errno : Z) : Outcome :=
  if negb (manager_ok h) then Return (-1) errno
  else if negb restore_snapshot then
    let '(pid, errno) := sys (fork_answer h) errno in
    Return pid errno
  else if negb (take_snapshot_ok h) then Return (-1) ENOMEM
  else if negb (has_sgx_load_config h) then Return (-1) EFAULT
  else
    let '(rc, errno) := sys (socketpair_answer h) errno in
    if bool_decide (rc < 0) then Return (-1) EFAULT
    else
      let '(rc, errno) := sys (pipe_answer h) errno in
      if bool_decide (rc < 0) then Return (-1) EFAULT
      else
        let '(pid, errno) := sys (fork_answer h) errno in
        if bool_decide (pid = -1) then Return pid errno
        else if bool_decide (pid = 0) then fork_child h pid errno
        else fork_parent h pid errno.

(** The characters of a C string held in an array: those before the first
    [NUL] (or all of them when there is none). *)
Fixpoint c_string (l : list ascii) : list ascii :=
  match l with
  | [] => []
  | c :: rest => if bool_decide (c = NUL) then [] else c :: c_string rest
  end.

(** On this host every step before the parent's wait succeeds and [fork]
    returns [pid] to the parent. *)
Definition reaches_wait (h : Host) (pid : Z) : Prop :=
  manager_ok h = true ∧ take_snapshot_ok h = true ∧
  has_sgx_load_config h = true ∧
  (∃ v, socketpair_answer h = SysOk v ∧ 0 <= v) ∧
  (∃ v, pipe_answer h = SysOk v ∧ 0 <= v) ∧
  fork_answer h = SysOk pid ∧ 0 < pid ∧
  (∃ v, close_pipe_answer h = SysOk v ∧ 0 <= v) ∧
  (∃ v, close_peer_answer h = SysOk v ∧ 0 <= v) ∧
  transfer_key_ok h = true.

(** A concrete host: every call before the wait succeeds and [fork]
    returns 4242 in the parent; [select] and [read] answer as given. *)
Definition host_with (selected : SysResult) (arrived : ReadAnswer) : Host :=
  {| manager_ok := true;
     take_snapshot_ok := true;
     has_sgx_load_config := true;
     socketpair_answer := SysOk 0;
     pipe_answer := SysOk 0;
     fork_answer := SysOk 4242;
     close_pipe_answer := SysOk 0;
     load_enclave_ok := true;
     same_base_address := true;
     close_peer_answer := SysOk 0;
     transfer_key_ok := true;
     enter_and_restore_ok := true;
     write_answer := λ data, SysOk (Z.of_nat (length data));
     select_answer := λ _ _, selected;
     read_answer := arrived;
     stack_garbage := [] |}.

(** The pipe is readable and holds [message]. *)
Definition host_with_message (message : list ascii) : Host :=
  host_with (SysOk 1) (ReadData message).

End Fork.

(** ** Signing and verifying keys (the classes under test in
       ecdsa_signing_key_test.h) *)

Module Keys.

(** The proto schema of section 6 of the specification; the enumerator
    names are the ones the tests use. *)
Inductive KeyType : Set := VERIFYING_KEY | SIGNING_KEY.

Inductive AsymmetricKeyEncoding : Set :=
  | UNKNOWN_ASYMMETRIC_KEY_ENCODING
  | ASYMMETRIC_KEY_DER
  | ASYMMETRIC_KEY_PEM.

Inductive SignatureScheme : Set :=
  | UNKNOWN_SIGNATURE_SCHEME
  | ECDSA_P256_SHA256
  | ECDSA_P384_SHA384.

#[global] Instance KeyType_eq_dec : EqDecision KeyType.
Proof. solve_decision. Defined.
#[global] Instance AsymmetricKeyEncoding_eq_dec
  : EqDecision AsymmetricKeyEncoding.
Proof. solve_decision. Defined.
#[global] Instance SignatureScheme_eq_dec : EqDecision SignatureScheme.
Proof. solve_decision. Defined.

Record AsymmetricSigningKeyProto : Set := {
  key_type : KeyType;
  encoding : AsymmetricKeyEncoding;
  signature_scheme : SignatureScheme;
  key : string
}.

(** The parsers of one key class ([CreateFromDer], [CreateFromPem]); they
    are thin wrappers over the cryptographic library and are kept abstract.
    [None] is a reported parse failure. *)
Class KeyParsers (K : Type) : Type := {
  CreateFromDer : string → option K;
  CreateFromPem : string → option K
}.

(** The four ways [CreateFromProto] reports a malformed proto. *)
Definition wrong_key_type_error : Status :=
  mkStatus INVALID_ARGUMENT "Key type of the key proto is not the expected one".
Definition unknown_scheme_error : Status :=
  mkStatus INVALID_ARGUMENT "Signature scheme of the key proto is unknown".
Definition unknown_encoding_error : Status :=
  mkStatus UNIMPLEMENTED "Encoding of the key proto is not recognised".
Definition mismatched_encoding_error : Status :=
  mkStatus INTERNAL "Key bytes do not decode under the tagged encoding".

(** Modelled from the spec: [CreateFromProto] of the signing-key and
    verifying-key classes (asylo/crypto/ecdsa_signing_key.h is not among
    the sources). Section 4.6: it validates that the key_type tag matches
    the operation ([expected] is SIGNING_KEY or VERIFYING_KEY), that the
    signature scheme is not the unknown sentinel, that the encoding is a
    recognised value (otherwise "unimplemented"), and that the bytes decode
    under the tagged encoding (otherwise "internal"); the first two are
    invalid-argument errors (section 8, property 3). The error messages are
    placeholders. *)
Definition CreateFromProto {K : Type} `{KeyParsers K} (expected : KeyType)
    (key_proto : AsymmetricSigningKeyProto) : Status + K :=
  if bool_decide (key_type key_proto ≠ expected) then
    inl wrong_key_type_error
  else if bool_decide (signature_scheme key_proto = UNKNOWN_SIGNATURE_SCHEME)
  then inl unknown_scheme_error
  else
    match encoding key_proto with
    | UNKNOWN_ASYMMETRIC_KEY_ENCODING => inl unknown_encoding_error
    | ASYMMETRIC_KEY_DER =>
        match CreateFromDer (key key_proto) with
        | Some k => inr k
        | None => inl mismatched_encoding_error
        end
    | ASYMMETRIC_KEY_PEM =>
        match CreateFromPem (key key_proto) with
        | Some k => inr k
        | None => inl mismatched_encoding_error
        end
    end.

(** The error kind of a result, if it is an error. *)
Definition error_kind {K : Type} (r : Status + K) : option GoogleError :=
  match r with
  | inl status => Some (error_code status)
  | inr _ => None
  end.

(** The malformed shapes of a key proto, each stated on the proto alone. *)
Definition wrong_key_type (expected : KeyType)
    (p : AsymmetricSigningKeyProto) : Prop :=
  key_type p ≠ expected.
Definition unknown_scheme (p : AsymmetricSigningKeyProto) : Prop :=
  signature_scheme p = UNKNOWN_SIGNATURE_SCHEME.
Definition unknown_encoding (p : AsymmetricSigningKeyProto) : Prop :=
  encoding p = UNKNOWN_ASYMMETRIC_KEY_ENCODING.
Definition mismatched_encoding {K : Type} `{KeyParsers K}
    (p : AsymmetricSigningKeyProto) : Prop :=
  (encoding p = ASYMMETRIC_KEY_DER ∧ CreateFromDer (key p) = None) ∨
  (encoding p = ASYMMETRIC_KEY_PEM ∧ CreateFromPem (key p) = None).

(** A stand-in key class for concrete runs: a DER key starts with the
    SEQUENCE tag (the character 0), a PEM key with its armour line; the
    parsed key is the serialized text. *)
Definition starts_with (p s : string) : bool :=
  bool_decide (String.substring 0 (String.length p) s = p).

#[global] Instance text_key_parsers : KeyParsers string := {|
  CreateFromDer := λ s, if starts_with "0" s then Some s else None;
  CreateFromPem := λ s, if starts_with "-----BEGIN" s then Some s else None
|}.

Definition pem_text : string := "-----BEGIN PUBLIC KEY-----".

(** A well-formed PEM proto for a key of kind [t], and the four protos the
    CreateFromProto failure tests derive from it by changing one field. *)
Definition pem_proto (t : KeyType) : AsymmetricSigningKeyProto :=
  {| key_type := t; encoding := ASYMMETRIC_KEY_PEM;
     signature_scheme := ECDSA_P256_SHA256; key := pem_text |}.

Definition opposite (t : KeyType) : KeyType :=
  match t with VERIFYING_KEY => SIGNING_KEY | SIGNING_KEY => VERIFYING_KEY end.

Definition with_unknown_scheme (p : AsymmetricSigningKeyProto) :=
  {| key_type := key_type p; encoding := encoding p;
     signature_scheme := UNKNOWN_SIGNATURE_SCHEME; key := key p |}.
Definition with_key_type (t : KeyType) (p : AsymmetricSigningKeyProto) :=
  {| key_type := t; encoding := encoding p;
     signature_scheme := signature_scheme p; key := key p |}.
Definition with_encoding (e : AsymmetricKeyEncoding)
    (p : AsymmetricSigningKeyProto) :=
  {| key_type := key_type p; encoding := e;
     signature_scheme := signature_scheme p; key := key p |}.

(** The error kinds of the four failure tests, in the order the claim lists
    them. *)
Definition failure_kinds (t : KeyType) : list (option GoogleError) :=
  [ error_kind (CreateFromProto t (with_unknown_scheme (pem_proto t)));
    error_kind (CreateFromProto t (with_key_type (opposite t) (pem_proto t)));
    error_kind (CreateFromProto t
                  (with_encoding UNKNOWN_ASYMMETRIC_KEY_ENCODING (pem_proto t)));
    error_kind (CreateFromProto t
                  (with_encoding ASYMMETRIC_KEY_DER (pem_proto t))) ].

(** *** Structured signatures *)

Record EcdsaSignature : Set := {
  r : string;      (* empty when the field is cleared *)
  s : string
}.

Record Signature : Set := {
  sig_scheme : SignatureScheme;
  ecdsa_signature : option EcdsaSignature   (* has_ecdsa_signature() *)
}.

(** A verifying key class: its scheme, the order of its curve's group and
    the cryptographic check of an (R, S) pair, kept abstract. *)
Class VerifyingKey (K : Type) : Type := {
  GetSignatureScheme : K → SignatureScheme;
  curve_order : K → Z;
  ecdsa_verify : K → string → string → string → bool
}.

(** The number of bytes of a big-endian integer below [order]. *)
Definition order_byte_length (order : Z) : nat :=
  Z.to_nat (Z.log2 order / 8 + 1).

Inductive VerifyResult : Set :=
  | Verified
  | VerificationFailed
  | Rejected (status : Status).

#[global] Instance VerifyResult_eq_dec : EqDecision VerifyResult.
Proof. solve_decision. Defined.

Definition invalid_signature (message : string) : VerifyResult :=
  Rejected (mkStatus INVALID_ARGUMENT message).

(** Modelled from the spec: the [Verify(message, Signature)] overload of
    the verifying-key classes (asylo/crypto/ecdsa_signing_key.h is not
    among the sources). Section 4.6: the scheme tag must match the key's
    scheme; the scheme-specific payload must be present; R and S must each
    be non-empty and of the byte length the curve order implies (a shorter
    or a longer value is an invalid-argument error); only then is the
    cryptographic check made, whose failure is a verification failure. The
    error messages are placeholders. *)
Definition Verify {K : Type} `{VerifyingKey K} (k : K) (message : string)
    (signature : Signature) : VerifyResult :=
  if bool_decide (sig_scheme signature ≠ GetSignatureScheme k) then
    invalid_signature "Signature scheme does not match the key"
  else
    match ecdsa_signature signature with
    | None => invalid_signature "Signature has no ECDSA signature value"
    | Some ecdsa =>
        let bound := order_byte_length (curve_order k) in
        if bool_decide (String.length (r ecdsa) = 0%nat)
           || bool_decide (String.length (s ecdsa) = 0%nat)
        then invalid_signature "Signature must have an R and an S value"
        else if bool_decide (String.length (r ecdsa) ≠ bound)
                || bool_decide (String.length (s ecdsa) ≠ bound)
        then invalid_signature "R and S must have the size of the curve order"
        else if ecdsa_verify k message (r ecdsa) (s ecdsa) then Verified
        else VerificationFailed
    end.

(** The structural defects of a signature presented to key [k]. *)
Definition malformed {K : Type} `{VerifyingKey K} (k : K)
    (signature : Signature) : Prop :=
  sig_scheme signature ≠ GetSignatureScheme k ∨
  ecdsa_signature signature = None ∨
  ∃ ecdsa, ecdsa_signature signature = Some ecdsa ∧
    (String.length (r ecdsa) ≠ order_byte_length (curve_order k) ∨
     String.length (s ecdsa) ≠ order_byte_length (curve_order k)).

(** The order of the group of NIST P-256. *)
Definition p256_order : Z :=
  0xFFFFFFFF00000000FFFFFFFFFFFFFFFFBCE6FAADA7179E84F3B9CAC2FC632551.

(** A stand-in P-256 verifying key for concrete runs; its check accepts
    every well-formed pair, so a rejection can only be structural. *)
#[global] Instance p256_key : VerifyingKey unit := {|
  GetSignatureScheme := λ _, ECDSA_P256_SHA256;
  curve_order := λ _, p256_order;
  ecdsa_verify := λ _ _ _ _, true
|}.

Definition short_r_signature : Signature :=
  {| sig_scheme := ECDSA_P256_SHA256;
     ecdsa_signature :=
       Some {| r := "too short";
               s := "0123456789abcdef0123456789abcdef" |} |}.

End Keys.

(** ** Vocabulary for the initialization steps (trusted_application.cc) *)

Module Initialization.

Import Lifecycle.

(** The descriptors [InitializeIO] hands to [RegisterHostFileDescriptor] for
    a config: those of the three standard streams that are not negative, in
    the order of the calls. *)
Definition stdio_fds (config : EnclaveConfig) : list Z :=
  filter (λ fd, fd >= 0)
         [stdin_fd config; stdout_fd config; stderr_fd config].

(** The test of [InitializeEnvironmentVariables] on one variable:
    [has_name() && has_value()]. *)
Definition well_formed (variable : EnvironmentVariable) : Prop :=
  is_Some (ev_name variable) ∧ is_Some (ev_value variable).

(** [c_str()] of a string is the whole string when it holds no NUL. *)
Definition c_text (s : string) : Prop :=
  Ascii.zero ∉ list_ascii_of_string s.

(** The names libc's [setenv] accepts: not empty and without ['=']. *)
Definition setenv_name (name : string) : Prop :=
  name ≠ EmptyString ∧ c_text name ∧ "="%char ∉ list_ascii_of_string name.

(** A variable on which the call of [setenv] stores the name and the value
    as the message gives them. *)
Definition setenv_accepts (variable : EnvironmentVariable) : Prop :=
  (∀ name, ev_name variable = Some name → setenv_name name) ∧
  (∀ value, ev_value variable = Some value → c_text value).

(** The range of [greg_t]. *)
Definition is_greg_t (x : Z) : Prop := - 2 ^ 63 <= x < 2 ^ 63.

End Initialization.

(** ** The snapshot entry points and sequences of entries
       (trusted_application.cc) *)

Module Snapshot.

Import Lifecycle.

(** [ForkHandshakeConfig]: which side of the handshake the enclave plays and
    the socket it uses. *)
Record ForkHandshakeConfig : Set := {
  is_parent : bool;
  handshake_socket : Z
}.

(** What the snapshot entry points use but the translation unit does not
    define: the generated accessors of the [enable_fork] field, the error a
    [StatusOr] for the enclave config carries when no config was stored (a
    [StatusOr] without a value never holds an OK status), the fork runtime
    and the parser of the handshake message. [RestoreForFork] replaces the
    enclave's memory, so it returns the enclave it leaves behind. *)
Class ForkRuntime : Type := {
  has_enable_fork : EnclaveConfig → bool;
  enable_fork : EnclaveConfig → bool;
  config_not_set : Status;
  config_not_set_error : ok config_not_set = false;
  TakeSnapshotForFork : Enclave → Status;
  RestoreForFork : string → Enclave → Status * Enclave;
  ParseForkHandshakeConfig : string → option ForkHandshakeConfig;
  TransferSecureSnapshotKey : ForkHandshakeConfig → Enclave → Status
}.

(** [asylo::GetEnclaveConfig()], defined outside the sources: it is taken to
    give the config [SetEnclaveConfig] stored, and the error of the class
    when none was stored. *)
Definition GetEnclaveConfig `{ForkRuntime} : Comp (Status + EnclaveConfig) :=
  w ← get_enclave;
  match enclave_config w with
  | Some config => mret (inr config)
  | None => mret (inl config_not_set)
  end.

(** The call of [RestoreForFork]: the enclave's fields become those of the
    restored memory; the record of what ran is kept. *)
Definition restore_memory `{ForkRuntime} (snapshot_layout : string)
    : Comp Status :=
  λ w,
    let '(status, restored) := RestoreForFork snapshot_layout w in
    (status,
     mkEnclave (enclave_state_ restored) (enclave_name restored)
               (enclave_config restored) (environ restored)
               (io_manager restored) (signal_mask restored) (trace w)).

(** The enclave [restore_memory] leaves behind. *)
Definition restored_enclave `{ForkRuntime} (snapshot_layout : string)
    (w : Enclave) : Enclave :=
  (restore_memory snapshot_layout w).2.

Definition __asylo_take_snapshot `{ForkRuntime} (output output_len : bool)
    : Comp EntryResult :=
  let status := VerifyOutputArguments output output_len in
  if negb (ok status) then mret ReturnOne
  else
    config_result ← GetEnclaveConfig;
    match config_result with
    | inl config_status => mret (Serialize config_status)
    | inr config =>
        if negb (has_enable_fork config) || negb (enable_fork config) then
          mret (Serialize (mkStatus FAILED_PRECONDITION
                                    "Insecure fork not enabled"))
        else
          state ← GetState;
          if bool_decide (state ≠ kRunning) then
            mret (Serialize (mkStatus FAILED_PRECONDITION
                                      "Enclave not in state RUNNING"))
          else
            w ← get_enclave;
            mret (Serialize (TakeSnapshotForFork w))
    end.

Definition __asylo_restore `{ForkRuntime} (snapshot_layout : string)
    (output output_len : bool) : Comp EntryResult :=
  let status := VerifyOutputArguments output output_len in
  if negb (ok status) then mret ReturnOne
  else
    config_result ← GetEnclaveConfig;
    match config_result with
    | inl config_status => mret (Serialize config_status)
    | inr config =>
        if negb (has_enable_fork config) || negb (enable_fork config) then
          mret (Serialize (mkStatus FAILED_PRECONDITION
                                    "Insecure fork not enabled"))
        else
          state ← GetState;
          if bool_decide (state ≠ kRunning) then
            mret (Serialize (mkStatus FAILED_PRECONDITION
                                      "Enclave not in state RUNNING"))
          else
            status ← restore_memory snapshot_layout;
            if negb (ok status) then
              emit EvThreadManagerFinalize;;
              SetState kFinalized;;
              mret (Serialize status)
            else mret (Serialize status)
    end.

Definition __asylo_transfer_secure_snapshot_key `{ForkRuntime}
    (input : string) (output output_len : bool) : Comp EntryResult :=
  let status := VerifyOutputArguments output output_len in
  if negb (ok status) then mret ReturnOne
  else
    match ParseForkHandshakeConfig input with
    | None =>
        mret (Serialize (mkStatus INVALID_ARGUMENT
                                  "Failed to parse HandshakeInput"))
    | Some fork_handshake_config =>
        state ← GetState;
        if bool_decide (state ≠ kRunning) then
          mret (Serialize (mkStatus FAILED_PRECONDITION
                                    "Enclave not in state RUNNING"))
        else
          w ← get_enclave;
          mret (Serialize (TransferSecureSnapshotKey fork_handshake_config w))
    end.

(** *** Sequences of entries

    The host enters the enclave through the [extern "C"] functions of the
    translation unit, one call after the other. *)

Inductive EntryCall : Set :=
  | CallUserInit (name config : string) (output output_len : bool)
  | CallUserRun (input : string) (output output_len : bool)
  | CallUserFini (input : string) (output output_len : bool)
  | CallHandleSignal (input : string)
  | CallTakeSnapshot (output output_len : bool)
  | CallRestore (snapshot_layout : string) (output output_len : bool)
  | CallTransferSecureSnapshotKey (input : string) (output output_len : bool).

(** What a call hands back: the serialized status (or [return 1]) of the
    entry points with an output buffer, the integer of the signal entry. *)
Inductive EntryReturn : Set :=
  | Reported (result : EntryResult)
  | Code (rc : Z).

Definition enter `{TrustedApplication} `{Platform} `{ForkRuntime}
    (call : EntryCall) : Comp EntryReturn :=
  match call with
  | CallUserInit name config output output_len =>
      r ← __asylo_user_init name config output output_len; mret (Reported r)
  | CallUserRun input output output_len =>
      r ← __asylo_user_run input output output_len; mret (Reported r)
  | CallUserFini input output output_len =>
      r ← __asylo_user_fini input output output_len; mret (Reported r)
  | CallHandleSignal input =>
      rc ← __asylo_handle_signal input; mret (Code rc)
  | CallTakeSnapshot output output_len =>
      r ← __asylo_take_snapshot output output_len; mret (Reported r)
  | CallRestore snapshot_layout output output_len =>
      r ← __asylo_restore snapshot_layout output output_len; mret (Reported r)
  | CallTransferSecureSnapshotKey input output output_len =>
      r ← __asylo_transfer_secure_snapshot_key input output output_len;
      mret (Reported r)
  end.

Fixpoint enter_all `{TrustedApplication} `{Platform} `{ForkRuntime}
    (calls : list EntryCall) : Comp (list EntryReturn) :=
  match calls with
  | [] => mret []
  | call :: rest =>
      r ← enter call;
      rs ← enter_all rest;
      mret (r :: rs)
  end.

(** The call failed as far as its caller can tell. *)
Definition rejected (r : EntryReturn) : Prop :=
  match r with
  | Reported result => ¬ succeeded result
  | Code rc => rc ≠ 0
  end.

(** The states an enclave rests in between two entries. *)
Definition resting (s : State) : Prop :=
  s = kUninitialized ∨ s = kRunning ∨ s = kFinalized.

(** Snapshots are taken from running enclaves ([__asylo_take_snapshot]
    refuses any other state), so a successful restore leaves a running
    enclave. *)
Definition restores_running `{ForkRuntime} : Prop :=
  ∀ snapshot_layout w,
    ok (RestoreForFork snapshot_layout w).1 = true →
    enclave_state_ (RestoreForFork snapshot_layout w).2 = kRunning.

(** How often the user's [Finalize] has run. *)
Definition finalizations (w : Enclave) : nat :=
  length (filter (λ e, e = EvUserFinalize) (trace w)).

(** A fork runtime for running the model: fork is enabled by a non-negative
    verbosity, a snapshot layout other than "snapshot" cannot be restored,
    and a restored enclave is the running enclave the snapshot was taken
    from. *)
#[global] Instance demo_fork_runtime : ForkRuntime := {|
  has_enable_fork := λ _, true;
  enable_fork := λ config, bool_decide (0 <= vlog_level config);
  config_not_set := mkStatus FAILED_PRECONDITION "EnclaveConfig is not set";
  config_not_set_error := eq_refl;
  TakeSnapshotForFork := λ _, OkStatus;
  RestoreForFork := λ layout w,
    if bool_decide (layout = "snapshot")
    then (OkStatus, with_name "parent" (with_state kRunning w))
    else (mkStatus INTERNAL "cannot restore", w);
  ParseForkHandshakeConfig := λ text,
    if bool_decide (text = "parent")
    then Some {| is_parent := true; handshake_socket := 3 |}
    else if bool_decide (text = "child")
    then Some {| is_parent := false; handshake_socket := 3 |}
    else None;
  TransferSecureSnapshotKey := λ _ _, OkStatus
|}.

End Snapshot.

(** ** The child's side of the fork ocall (ocalls.cc) *)

Module ForkChild.

Import Fork.

(** A system call answered without failure. *)
Definition answered (answer : SysResult) : Prop :=
  ∃ value, answer = SysOk value ∧ 0 <= value.

(** Every step of the branch [pid == 0] succeeds on this host: closing the
    read end of the pipe, loading the enclave, the base-address check, the
    key transfer (closing the peer's socket, then the transfer itself),
    [EnterAndRestore], and writing the confirmation. *)
Definition child_succeeds (h : Host) : Prop :=
  answered (close_pipe_answer h) ∧
  load_enclave_ok h = true ∧
  same_base_address h = true ∧
  answered (close_peer_answer h) ∧
  transfer_key_ok h = true ∧
  enter_and_restore_ok h = true ∧
  answered (write_answer h (str_data "Child fork succeeded")).

End ForkChild.

(** ** Registering and dispatching signal handlers on the host (ocalls.cc) *)

Module Signals.

Definition EINVAL : Z := 22.

(** [SA_SIGINFO] (Linux value). *)
Definition SA_SIGINFO : Z := 4.

(** [struct BridgeSignalHandler]. A function pointer is kept as its address,
    [None] being the null pointer. *)
Record BridgeSignalHandler : Set := {
  bridge_sigaction : option Z;
  bridge_mask : list Z;
  bridge_flags : Z
}.

(** The two functions of this file that are installed as [sa_sigaction]. *)
Inductive InstalledHandler : Set :=
  | AddressOfEnterEnclaveAndHandleSignal
  | AddressOfHandleSignalInSim.

#[global] Instance InstalledHandler_eq_dec : EqDecision InstalledHandler.
Proof. solve_decision. Defined.

(** [struct sigaction] as this file fills it. *)
Record sigaction_t : Type := {
  sa_sigaction : InstalledHandler;
  sa_mask : gset Z;
  sa_flags : Z
}.

(** The conversions of the bridge layer, which this file calls but does not
    define. *)
Class Bridge : Type := {
  FromBridgeSignal : Z → Z;
  ToBridgeSignal : Z → Z;
  FromBridgeSigSet : list Z → gset Z;
  FromBridgeSignalFlags : Z → Z
}.

(** What the ocall and the handlers read and write on the host: whether the
    enclave manager exists, the primitive client of each loaded enclave
    (by address; no entry when [GetClient] returns null), the table of
    [EnclaveSignalDispatcher] (which client handles which signal), the
    static pointer [handle_signal_inside_enclave], the dispositions the
    kernel holds, the kernel's answer to [sigaction] for a signal ([None]
    when it accepts, the [errno] otherwise) and whether a client's TCS is
    active. [RegisterSignal] is taken to record the client for the signal
    and to return the one recorded before, [GetClientForSignal] to fail when
    none is recorded. *)
Record SignalHost : Type := {
  manager_ok : bool;
  clients : gmap string Z;
  dispatcher : gmap Z Z;
  handle_signal_inside_enclave : option Z;
  dispositions : gmap Z sigaction_t;
  sigaction_error : Z → option Z;
  tcs_active : Z → bool
}.

Definition with_dispatcher (d : gmap Z Z) (host : SignalHost) : SignalHost :=
  {| manager_ok := manager_ok host; clients := clients host;
     dispatcher := d;
     handle_signal_inside_enclave := handle_signal_inside_enclave host;
     dispositions := dispositions host;
     sigaction_error := sigaction_error host;
     tcs_active := tcs_active host |}.

Definition with_inside_handler (fn : option Z) (host : SignalHost)
    : SignalHost :=
  {| manager_ok := manager_ok host; clients := clients host;
     dispatcher := dispatcher host;
     handle_signal_inside_enclave := fn;
     dispositions := dispositions host;
     sigaction_error := sigaction_error host;
     tcs_active := tcs_active host |}.

Definition with_dispositions (t : gmap Z sigaction_t) (host : SignalHost)
    : SignalHost :=
  {| manager_ok := manager_ok host; clients := clients host;
     dispatcher := dispatcher host;
     handle_signal_inside_enclave := handle_signal_inside_enclave host;
     dispositions := t;
     sigaction_error := sigaction_error host;
     tcs_active := tcs_active host |}.

(** The call returns a value with [errno] and the host as it leaves them, or
    it reads through a null pointer, which has no defined behaviour; the
    host is then given as it was at that point. *)
Inductive Registration : Type :=
  | Returned (value errno : Z) (host : SignalHost)
  | NullDereference (host : SignalHost).

(** [sigaction(signum, &newact, &oldact)] *)
Definition sigaction (signum : Z) (newact : sigaction_t) (host : SignalHost)
    (errno : Z) : Z * Z * SignalHost :=
  match sigaction_error host signum with
  | Some err => (-1, err, host)
  | None =>
      (0, errno,
       with_dispositions (<[signum := newact]> (dispositions host)) host)
  end.

Definition ocall_enc_untrusted_register_signal_handler `{Bridge}
    (bridge_signum : Z) (handler : option BridgeSignalHandler)
    (name : string) (host : SignalHost) (errno : Z) : Registration :=
  let signum := FromBridgeSignal bridge_signum in
  if bool_decide (signum < 0) then Returned (-1) EINVAL host
  else if negb (manager_ok host) then Returned (-1) errno host
  else
    match clients host !! name with
    | None => NullDereference host   (* generic_client->GetPrimitiveClient() *)
    | Some primitive_client =>
        let host :=
          with_dispatcher (<[signum := primitive_client]> (dispatcher host))
                          host in
        let '(newact_sa_sigaction, host) :=
          match handler with
          | Some {| bridge_sigaction := Some fn |} =>
              (AddressOfHandleSignalInSim,
               with_inside_handler (Some fn) host)
          | _ => (AddressOfEnterEnclaveAndHandleSignal, host)
          end in
        match handler with
        | None => NullDereference host   (* handler->flags *)
        | Some handler =>
            let newact :=
              {| sa_sigaction := newact_sa_sigaction;
                 sa_mask := FromBridgeSigSet (bridge_mask handler);
                 sa_flags :=
                   Z.lor (FromBridgeSignalFlags (bridge_flags handler))
                         SA_SIGINFO |} in
            let '(rc, errno, host) := sigaction signum newact host errno in
            Returned rc errno host
        end
    end.

(** What a signal handler of this file ends up doing with a signal: nothing,
    a call of the function registered inside the enclave, or an entry into
    the enclave through the dispatcher. *)
Inductive Delivery : Set :=
  | Dropped
  | CalledInsideEnclave (fn bridge_signum : Z)
  | EnteredEnclave (signum : Z).

Definition TranslateToBridgeAndHandleSignal `{Bridge} (host : SignalHost)
    (signum : Z) : Delivery :=
  let bridge_signum := ToBridgeSignal signum in
  if bool_decide (bridge_signum < 0) then Dropped
  else
    match handle_signal_inside_enclave host with
    | Some fn => CalledInsideEnclave fn bridge_signum
    | None => Dropped
    end.

Definition EnterEnclaveAndHandleSignal (host : SignalHost) (signum : Z)
    : Delivery :=
  EnteredEnclave signum.

Definition HandleSignalInSim `{Bridge} (host : SignalHost) (signum : Z)
    : Delivery :=
  match dispatcher host !! signum with
  | None => Dropped
  | Some client =>
      if tcs_active host client
      then TranslateToBridgeAndHandleSignal host signum
      else EnterEnclaveAndHandleSignal host signum
  end.

(** The kernel delivers [signum] to the handler this file installed for it,
    if any. *)
Definition deliver `{Bridge} (host : SignalHost) (signum : Z)
    : option Delivery :=
  match dispositions host !! signum with
  | None => None
  | Some act =>
      match sa_sigaction act with
      | AddressOfEnterEnclaveAndHandleSignal =>
          Some (EnterEnclaveAndHandleSignal host signum)
      | AddressOfHandleSignalInSim => Some (HandleSignalInSim host signum)
      end
  end.

(** A bridge that numbers signals as the host does (1 to 64) and keeps
    masks and flags. *)
#[global] Instance demo_bridge : Bridge := {|
  FromBridgeSignal := λ n, if bool_decide (1 <= n <= 64) then n else -1;
  ToBridgeSignal := λ n, if bool_decide (1 <= n <= 64) then n else -1;
  FromBridgeSigSet := list_to_set;
  FromBridgeSignalFlags := λ flags, flags
|}.

(** A host with two enclaves loaded, nothing registered, every TCS active
    and a kernel that refuses to change signal 9. *)
Definition two_enclaves : SignalHost :=
  {| manager_ok := true;
     clients := {[ "first" := 1000; "second" := 2000 ]};
     dispatcher := ∅;
     handle_signal_inside_enclave := None;
     dispositions := ∅;
     sigaction_error := λ signum,
       if bool_decide (signum = 9) then Some EINVAL else None;
     tcs_active := λ _, true |}.

Definition sim_handler (fn : Z) : BridgeSignalHandler :=
  {| bridge_sigaction := Some fn; bridge_mask := []; bridge_flags := 0 |}.

(** The host a call leaves behind. *)
Definition host_after (r : Registration) : SignalHost :=
  match r with
  | Returned _ _ host => host
  | NullDereference host => host
  end.

(** The first enclave registers function 111 for signal 10, then the second
    enclave function 222 for signal 12. *)
Definition after_first_registration : SignalHost :=
  host_after (ocall_enc_untrusted_register_signal_handler
                10 (Some (sim_handler 111)) "first" two_enclaves 0).

Definition after_second_registration : SignalHost :=
  host_after (ocall_enc_untrusted_register_signal_handler
                12 (Some (sim_handler 222)) "second"
                after_first_registration 0).

End Signals.

(** ** Reading and writing a whole buffer (socket_transmit.cc) *)

Module Transmit.

Import Fork.

Definition EINTR : Z := 4.

Definition INT_MAX : Z := 2 ^ 31 - 1.

(** A status of the POSIX error space: its code is [P_EPIPE] or an [errno]
    value cast to [error::PosixError]. *)
Inductive PosixError : Set :=
  | P_EPIPE
  | posix_errno (errno : Z).

Inductive TransmitStatus : Set :=
  | TransmitOk
  | PosixStatus (code : PosixError) (message : string).

#[global] Instance PosixError_eq_dec : EqDecision PosixError.
Proof. solve_decision. Defined.
#[global] Instance TransmitStatus_eq_dec : EqDecision TransmitStatus.
Proof. solve_decision. Defined.

(** The counters of a [SocketTransmit] object (both [int]). *)
Record SocketTransmit : Set := {
  write_count_ : Z;
  read_count_ : Z
}.

(** A call returns a status; or the host's answers are used up while the
    loop is still running; or an [int] of the function would leave its
    range, which has no defined behaviour. *)
Inductive Outcome : Set :=
  | Finished (status : TransmitStatus)
  | StillLooping
  | IntOutOfRange.

(** The loop of [SocketTransmit::Read] from [read_bytes] on and the code
    after it; one answer of the host per call of [read]. [read_bytes] is
    never negative, so its comparison with the unsigned [read_len] is the
    comparison of the numbers. *)
Fixpoint Read_loop (answers : list ReadAnswer) (buf : list ascii)
    (read_len read_bytes : Z) (t : SocketTransmit) (errno : Z)
    : Outcome * list ascii * SocketTransmit * Z :=
  if bool_decide (read_bytes < read_len) then
    match answers with
    | [] => (StillLooping, buf, t, errno)
    | answer :: answers =>
        let '(nbytes, tail, errno) :=
          read answer (drop (Z.to_nat read_bytes) buf)
               (Z.to_nat (read_len - read_bytes)) errno in
        let buf := take (Z.to_nat read_bytes) buf ++ tail in
        if bool_decide (nbytes < 0) then
          if bool_decide (errno = EINTR) || bool_decide (errno = EAGAIN)
          then (* continue *)
            Read_loop answers buf read_len read_bytes t errno
          else (* break, which leaves the switch *)
            Read_loop answers buf read_len read_bytes t errno
        else if bool_decide (nbytes = 0) then
          (Finished (PosixStatus P_EPIPE "connection closed by peer"),
           buf, t, errno)
        else if bool_decide (read_bytes + nbytes > INT_MAX)
                || bool_decide (read_count_ t >= INT_MAX)
        then (IntOutOfRange, buf, t, errno)
        else
          Read_loop answers buf read_len (read_bytes + nbytes)
            {| write_count_ := write_count_ t;
               read_count_ := read_count_ t + 1 |} errno
    end
  else if bool_decide (read_bytes < read_len) then
    (Finished (PosixStatus (posix_errno errno) "read error"), buf, t, errno)
  else (Finished TransmitOk, buf, t, errno).

Definition Read (answers : list ReadAnswer) (buf : list ascii) (read_len : Z)
    (t : SocketTransmit) (errno : Z)
    : Outcome * list ascii * SocketTransmit * Z :=
  Read_loop answers buf read_len 0 t errno.

(** The host's answer to one [write]: how many bytes it is ready to take,
    or an error. *)
Inductive WriteAnswer : Set :=
  | WriteTakes (room : nat)
  | WriteErr (err : Z).

(** [write(fd, data, count)]: the returned value, the bytes that went out
    and [errno] afterwards. *)
Definition write (answer : WriteAnswer) (data : list ascii) (count : nat)
    (errno : Z) : Z * list ascii * Z :=
  match answer with
  | WriteTakes room =>
      let sent := take (Nat.min room count) data in
      (Z.of_nat (length sent), sent, errno)
  | WriteErr err => (-1, [], err)
  end.

(** The loop of [SocketTransmit::Write] and the code after it; [wire]
    collects the bytes that went out. *)
Fixpoint Write_loop (answers : list WriteAnswer) (buf : list ascii)
    (write_len write_bytes : Z) (wire : list ascii) (t : SocketTransmit)
    (errno : Z) : Outcome * list ascii * SocketTransmit * Z :=
  if bool_decide (write_bytes < write_len) then
    match answers with
    | [] => (StillLooping, wire, t, errno)
    | answer :: answers =>
        let '(nbytes, sent, errno) :=
          write answer (drop (Z.to_nat write_bytes) buf)
                (Z.to_nat (write_len - write_bytes)) errno in
        let wire := wire ++ sent in
        if bool_decide (nbytes < 0) then
          if bool_decide (errno = EINTR) || bool_decide (errno = EAGAIN)
          then Write_loop answers buf write_len write_bytes wire t errno
          else Write_loop answers buf write_len write_bytes wire t errno
        else if bool_decide (write_bytes + nbytes > INT_MAX)
                || bool_decide (write_count_ t >= INT_MAX)
        then (IntOutOfRange, wire, t, errno)
        else
          Write_loop answers buf write_len (write_bytes + nbytes) wire
            {| write_count_ := write_count_ t + 1;
               read_count_ := read_count_ t |} errno
    end
  else if bool_decide (write_bytes < write_len) then
    (Finished (PosixStatus (posix_errno errno) "write error"), wire, t, errno)
  else (Finished TransmitOk, wire, t, errno).

Definition Write (answers : list WriteAnswer) (buf : list ascii)
    (write_len : Z) (t : SocketTransmit) (errno : Z)
    : Outcome * list ascii * SocketTransmit * Z :=
  Write_loop answers buf write_len 0 [] t errno.

Definition GetWrite (t : SocketTransmit) : Z := write_count_ t.
Definition GetRead (t : SocketTransmit) : Z := read_count_ t.
Definition reset (t : SocketTransmit) : SocketTransmit :=
  {| write_count_ := 0; read_count_ := 0 |}.

(** The bytes a list of answers to [read] delivers, and the pieces they
    come in. *)
Definition pieces (answers : list ReadAnswer) : list (list ascii) :=
  omap (λ answer, match answer with
                  | ReadData avail => Some avail
                  | ReadErr _ => None
                  end) answers.

Definition delivered (answers : list ReadAnswer) : list ascii :=
  concat (pieces answers).

(** [errno] after the failing calls among the answers. *)
Definition last_errno (answers : list ReadAnswer) (errno : Z) : Z :=
  foldl (λ e answer, match answer with
                     | ReadData _ => e
                     | ReadErr err => err
                     end) errno answers.

End Transmit.

(** ** Gathering and scattering message buffers (host_calls.cc) *)

Module HostCalls.

Import Fork.

(** [struct msghdr]. A buffer is the list of the bytes it holds, so
    [iov_len] is the length of an element of [msg_iov] and [msg_iovlen] the
    length of [msg_iov]; [msg_name] and [msg_control] are the buffers the
    caller provides, next to the lengths it announces for them. *)
Record msghdr : Set := {
  msg_name : list ascii;
  msg_namelen : Z;
  msg_iov : list (list ascii);
  msg_control : list ascii;
  msg_controllen : Z;
  msg_flags : Z
}.

(** Addition of [size_t] values. *)
Definition size_t_add (a b : Z) : Z := (a + b) mod 2 ^ 64.

Definition CalculateTotalSize (msg : msghdr) : Z :=
  foldl (λ total_message_size iov,
           size_t_add total_message_size (Z.of_nat (length iov)))
        0 (msg_iov msg).

(** [memcpy(dest + offset, src, n)]: defined when the [n] bytes lie inside
    both buffers. *)
Definition memcpy (dest : list ascii) (offset : nat) (src : list ascii)
    (n : nat) : option (list ascii) :=
  if decide (offset + n ≤ length dest ∧ n ≤ length src)%nat
  then Some (take offset dest ++ take n src ++ drop (offset + n) dest)
  else None.

(** The translation of the host's error numbers, defined elsewhere. *)
Class ErrorNumbers : Type := {
  FromkLinuxErrorNumber : Z → Z
}.

(** *** sendmsg *)

(** What [enc_untrusted_sendmsg] pushes to the host. *)
Record SendRequest : Set := {
  send_sockfd : Z;
  send_name : list ascii;
  send_iov_buffer : list ascii;
  send_control : list ascii;
  send_msg_flags : Z;
  send_flags : Z
}.

(** The host's reply: the result and, read only when the result is -1, the
    error number. *)
Record SendReply : Set := {
  send_result : Z;
  send_klinux_errno : Z
}.

Inductive Outcome (A : Type) : Type :=
  | Returns (result : Z) (errno : Z) (value : A)
  | Aborts
  | OutOfBounds.

Arguments Returns {A} result errno value.
Arguments Aborts {A}.
Arguments OutOfBounds {A}.

(** The loop that copies the buffers of [msg_iov] one after the other into
    [msg_iov_buffer]. *)
Fixpoint gather (iovs : list (list ascii)) (msg_iov_buffer : list ascii)
    (copied_bytes : nat) : option (list ascii) :=
  match iovs with
  | [] => Some msg_iov_buffer
  | iov :: iovs =>
      match memcpy msg_iov_buffer copied_bytes iov (length iov) with
      | None => None
      | Some msg_iov_buffer =>
          gather iovs msg_iov_buffer (copied_bytes + length iov)
      end
  end.

(** [enc_untrusted_sendmsg]. [uninitialized] is what the fresh allocation
    happens to hold; [host] answers the dispatched call, [None] when the
    dispatch fails. The value returned with the result is the request the
    host received. *)
Definition enc_untrusted_sendmsg `{ErrorNumbers}
    (host : SendRequest → option SendReply) (uninitialized : list ascii)
    (sockfd : Z) (msg : msghdr) (flags : Z) (errno : Z)
    : Outcome SendRequest :=
  let total_message_size := CalculateTotalSize msg in
  let msg_iov_buffer :=
    resize (Z.to_nat total_message_size) NUL uninitialized in
  match gather (msg_iov msg) msg_iov_buffer 0 with
  | None => OutOfBounds
  | Some msg_iov_buffer =>
      let input :=
        {| send_sockfd := sockfd;
           send_name := take (Z.to_nat (msg_namelen msg)) (msg_name msg);
           send_iov_buffer := msg_iov_buffer;
           send_control :=
             take (Z.to_nat (msg_controllen msg)) (msg_control msg);
           send_msg_flags := msg_flags msg;
           send_flags := flags |} in
      match host input with
      | None => Aborts
      | Some output =>
          let result := send_result output in
          if bool_decide (result = -1) then
            Returns result (FromkLinuxErrorNumber (send_klinux_errno output))
                    input
          else Returns result errno input
      end
  end.

(** *** recvmsg *)

Record RecvRequest : Set := {
  recv_sockfd : Z;
  recv_namelen : Z;
  recv_total_buffer_size : Z;
  recv_controllen : Z;
  recv_msg_flags : Z;
  recv_flags : Z
}.

(** The host's reply: the result, the error number, and the three extents
    read when the result is not -1. Their sizes are the host's choice. *)
Record RecvReply : Set := {
  recv_result : Z;
  recv_klinux_errno : Z;
  msg_name_extent : list ascii;
  msg_iov_extent : list ascii;
  msg_control_extent : list ascii
}.

(** The loop that copies the single buffer of the host into the buffers of
    [msg_iov]. *)
Fixpoint scatter (iovs : list (list ascii)) (extent : list ascii)
    (bytes_copied : nat) : option (list (list ascii)) :=
  match iovs with
  | [] => Some []
  | iov :: iovs =>
      let total_bytes := length extent in
      if decide (bytes_copied < total_bytes)%nat then
        let bytes_to_copy :=
          Nat.min (length iov) (total_bytes - bytes_copied) in
        match memcpy iov 0 (drop bytes_copied extent) bytes_to_copy with
        | None => None
        | Some iov =>
            match scatter iovs extent (bytes_copied + bytes_to_copy) with
            | None => None
            | Some iovs => Some (iov :: iovs)
            end
        end
      else Some (iov :: iovs)
  end.

(** [msg->msg_namelen = msg_name_extent.size()]: [socklen_t] has 32 bits. *)
Definition to_socklen_t (n : Z) : Z := n mod 2 ^ 32.

Definition enc_untrusted_recvmsg `{ErrorNumbers}
    (host : RecvRequest → option RecvReply) (sockfd : Z) (msg : msghdr)
    (flags : Z) (errno : Z) : Outcome msghdr :=
  let total_buffer_size := CalculateTotalSize msg in
  let input :=
    {| recv_sockfd := sockfd;
       recv_namelen := msg_namelen msg;
       recv_total_buffer_size := total_buffer_size;
       recv_controllen := msg_controllen msg;
       recv_msg_flags := msg_flags msg;
       recv_flags := flags |} in
  match host input with
  | None => Aborts
  | Some output =>
      let result := recv_result output in
      if bool_decide (result = -1) then
        Returns result (FromkLinuxErrorNumber (recv_klinux_errno output)) msg
      else
        let namelen :=
          to_socklen_t (Z.of_nat (length (msg_name_extent output))) in
        match memcpy (msg_name msg) 0 (msg_name_extent output)
                     (Z.to_nat namelen) with
        | None => OutOfBounds
        | Some name =>
            match scatter (msg_iov msg) (msg_iov_extent output) 0 with
            | None => OutOfBounds
            | Some iov =>
                let controllen :=
                  Z.of_nat (length (msg_control_extent output)) in
                match memcpy (msg_control msg) 0 (msg_control_extent output)
                             (Z.to_nat controllen) with
                | None => OutOfBounds
                | Some control =>
                    Returns result errno
                      {| msg_name := name;
                         msg_namelen := namelen;
                         msg_iov := iov;
                         msg_control := control;
                         msg_controllen := controllen;
                         msg_flags := msg_flags msg |}
                end
            end
        end
  end.

(** Error numbers are the same on both sides. *)
#[global] Instance same_error_numbers : ErrorNumbers := {|
  FromkLinuxErrorNumber := λ n, n
|}.

(** A message of two buffers and no address or control data. *)
Definition two_buffers (first second : list ascii) : msghdr :=
  {| msg_name := []; msg_namelen := 0;
     msg_iov := [first; second];
     msg_control := []; msg_controllen := 0;
     msg_flags := 0 |}.

(** A host that takes every byte it is sent. *)
Definition taking_host (request : SendRequest) : option SendReply :=
  Some {| send_result := Z.of_nat (length (send_iov_buffer request));
          send_klinux_errno := 0 |}.

(** A host that answers a receive with [data] and nothing else. *)
Definition host_holding (data : list ascii) (request : RecvRequest)
    : option RecvReply :=
  Some {| recv_result := Z.of_nat (length data);
          recv_klinux_errno := 0;
          msg_name_extent := [];
          msg_iov_extent := data;
          msg_control_extent := [] |}.

End HostCalls.

(** ** The AES-GCM-SIV cryptor (aes_gcm_siv.h) *)

Module AesGcmSiv.

Definition kAesGcmSivNonceSize : nat := 12.

Definition uint8_t : Set := ascii.

(** The two AEADs the cryptor chooses from:
    [EVP_aead_aes_128_gcm_siv()] and [EVP_aead_aes_256_gcm_siv()]. *)
Inductive EVP_AEAD : Set := aead_128 | aead_256.

#[global] Instance EVP_AEAD_eq_dec : EqDecision EVP_AEAD.
Proof. solve_decision. Defined.

(** The functions of BoringSSL the header calls. [EVP_AEAD_CTX_init] tells
    whether it returned 1; [EVP_AEAD_CTX_seal] and [EVP_AEAD_CTX_open] take
    the AEAD and the key of the context, the room in the output buffer, the
    nonce, the input and the additional data, and give the output when they
    return 1. *)
Class BoringSSL : Type := {
  EVP_AEAD_key_length : EVP_AEAD → nat;
  EVP_AEAD_nonce_length : EVP_AEAD → nat;
  EVP_AEAD_max_overhead : EVP_AEAD → nat;
  SHA256 : list uint8_t → list uint8_t;
  EVP_AEAD_CTX_init : EVP_AEAD → list uint8_t → bool;
  EVP_AEAD_CTX_seal :
    EVP_AEAD → list uint8_t → nat → list uint8_t → list uint8_t
    → list uint8_t → option (list uint8_t);
  EVP_AEAD_CTX_open :
    EVP_AEAD → list uint8_t → nat → list uint8_t → list uint8_t
    → list uint8_t → option (list uint8_t);
  BsslLastErrorString : string
}.

(** A [NonceGenerator<kAesGcmSivNonceSize>] with its state: [NextNonce]
    returns a status and the bytes it wrote, and moves the state on. *)
Class NonceGenerator (G : Type) : Type := {
  nonce_size : nat;
  uses_key_id : bool;
  NextNonce : list uint8_t → G → Status * list uint8_t * G
}.

(** A byte container: its bytes, and whether [resize] changes its size (the
    [Bytes] template has a [resize] that does not). *)
Record Container : Set := {
  contents : list uint8_t;
  resizes : bool
}.

Definition resize_container (n : nat) (c : Container) : Container :=
  if resizes c
  then {| contents := resize n Ascii.zero (contents c); resizes := true |}
  else c.

(** [std::copy(src.cbegin(), src.cend(), c->begin())] on a container of the
    size of [src]. *)
Definition copy_into (src : list uint8_t) (c : Container) : Container :=
  {| contents := src ++ drop (length src) (contents c);
     resizes := resizes c |}.

Definition key_size_message (key_size : nat) : string :=
  "Key size " +:+ AlphaNum (Z.of_nat key_size) +:+ " is invalid".

Definition EvpAead `{BoringSSL} (key_size : nat) : Status + EVP_AEAD :=
  if decide (key_size = EVP_AEAD_key_length aead_128) then inr aead_128
  else if decide (key_size = EVP_AEAD_key_length aead_256) then inr aead_256
  else inl (mkStatus INVALID_ARGUMENT (key_size_message key_size)).

(** [AesGcmSivCryptor::Seal]: the status, the generator afterwards, and the
    two output containers. The sum of two sizes is a [size_t]. *)
Definition Seal `{BoringSSL} {G : Type} `{NonceGenerator G}
    (message_size_limit_ : Z) (nonce_generator_ : G)
    (key additional_data plaintext : list uint8_t)
    (nonce ciphertext : Container)
    : Status * G * Container * Container :=
  match EvpAead (length key) with
  | inl status => (status, nonce_generator_, nonce, ciphertext)
  | inr aead =>
      if bool_decide
           ((Z.of_nat (length additional_data)
             + Z.of_nat (length plaintext)) mod 2 ^ 64
            > message_size_limit_)
      then (mkStatus INVALID_ARGUMENT "Message size is too large",
            nonce_generator_, nonce, ciphertext)
      else if bool_decide (nonce_size ≠ EVP_AEAD_nonce_length aead)
      then (mkStatus INVALID_ARGUMENT
              "NonceGenerator produces nonces of incorrect length",
            nonce_generator_, nonce, ciphertext)
      else
        let key_id :=
          if uses_key_id then SHA256 key
          else replicate 32 Ascii.zero in
        let '(status, written, nonce_generator_) :=
          NextNonce key_id nonce_generator_ in
        let nonce_copy := resize kAesGcmSivNonceSize Ascii.zero written in
        if negb (ok status)
        then (status, nonce_generator_, nonce, ciphertext)
        else
          let nonce := resize_container (length nonce_copy) nonce in
          if bool_decide (length (contents nonce) ≠ length nonce_copy)
          then (mkStatus INVALID_ARGUMENT
                  "Could not resize *|nonce| to correct size",
                nonce_generator_, nonce, ciphertext)
          else
            let nonce := copy_into nonce_copy nonce in
            let max_ciphertext_length :=
              (length plaintext + EVP_AEAD_max_overhead aead)%nat in
            if negb (EVP_AEAD_CTX_init aead key)
            then (mkStatus INTERNAL
                    ("EVP_AEAD_CTX_init failed: " +:+ BsslLastErrorString),
                  nonce_generator_, nonce, ciphertext)
            else
              match EVP_AEAD_CTX_seal aead key max_ciphertext_length
                      nonce_copy plaintext additional_data with
              | None =>
                  (mkStatus INTERNAL
                     ("EVP_AEAD_CTX_seal failed: " +:+ BsslLastErrorString),
                   nonce_generator_, nonce, ciphertext)
              | Some tmp_ciphertext =>
                  let ciphertext_length := length tmp_ciphertext in
                  let ciphertext :=
                    resize_container ciphertext_length ciphertext in
                  if bool_decide
                       (length (contents ciphertext) ≠ ciphertext_length)
                  then (mkStatus INVALID_ARGUMENT
                          "Could not resize *|ciphertext| to correct size",
                        nonce_generator_, nonce, ciphertext)
                  else (OkStatus, nonce_generator_, nonce,
                        copy_into tmp_ciphertext ciphertext)
              end
  end.

(** [AesGcmSivCryptor::Open]: the status and the output container. *)
Definition Open `{BoringSSL}
    (key additional_data ciphertext nonce : list uint8_t)
    (plaintext : Container) : Status * Container :=
  match EvpAead (length key) with
  | inl status => (status, plaintext)
  | inr aead =>
      if bool_decide (length nonce ≠ EVP_AEAD_nonce_length aead)
      then (mkStatus INVALID_ARGUMENT "|nonce| has incorrect length",
            plaintext)
      else if negb (EVP_AEAD_CTX_init aead key)
      then (mkStatus INTERNAL
              ("EVP_AEAD_CTX_init failed: " +:+ BsslLastErrorString),
            plaintext)
      else
        match EVP_AEAD_CTX_open aead key (length ciphertext) nonce
                ciphertext additional_data with
        | None =>
            (mkStatus INTERNAL
               ("EVP_AEAD_CTX_open failed: " +:+ BsslLastErrorString),
             plaintext)
        | Some tmp_plaintext =>
            let plaintext_length := length tmp_plaintext in
            let plaintext := resize_container plaintext_length plaintext in
            if bool_decide (length (contents plaintext) ≠ plaintext_length)
            then (mkStatus INVALID_ARGUMENT
                    "Could not resize *|plaintext| to correct size",
                  plaintext)
            else (OkStatus, copy_into tmp_plaintext plaintext)
        end
  end.

(** The checks [Seal] makes before it asks for a nonce: the key selects
    [aead], the message is within the limit and the generator's nonces have
    the length the AEAD wants. *)
Definition validated `{BoringSSL} {G : Type} `{NonceGenerator G}
    (message_size_limit_ : Z) (key additional_data plaintext : list uint8_t)
    (aead : EVP_AEAD) : Prop :=
  EvpAead (length key) = inr aead ∧
  (Z.of_nat (length additional_data) + Z.of_nat (length plaintext))
    mod 2 ^ 64 <= message_size_limit_ ∧
  nonce_size = EVP_AEAD_nonce_length aead.

(** The call of [NextNonce] that [Seal] makes for a key. *)
Definition draw `{BoringSSL} {G : Type} `{NonceGenerator G}
    (key : list uint8_t) (nonce_generator_ : G)
    : Status * list uint8_t * G :=
  NextNonce (if uses_key_id then SHA256 key else replicate 32 Ascii.zero)
            nonce_generator_.

(** The contract of the AEAD the round trip relies on: what was sealed under
    a key, a nonce and additional data opens, under the same three, to the
    plaintext, given room for the ciphertext. *)
Definition opens_what_it_sealed `{BoringSSL} : Prop :=
  ∀ aead key room nonce plaintext additional_data sealed,
    EVP_AEAD_CTX_seal aead key room nonce plaintext additional_data
      = Some sealed →
    EVP_AEAD_CTX_open aead key (length sealed) nonce sealed additional_data
      = Some plaintext.

(** A stand-in for BoringSSL with the sizes of AES-GCM-SIV: sealing appends
    a tag of sixteen bytes made of the first byte of the nonce, opening
    checks and removes it. *)
Definition toy_tag (nonce : list uint8_t) : list uint8_t :=
  replicate 16 (hd Ascii.zero nonce).

#[global] Instance toy_ssl : BoringSSL := {|
  EVP_AEAD_key_length := λ aead,
    match aead with aead_128 => 16%nat | aead_256 => 32%nat end;
  EVP_AEAD_nonce_length := λ _, 12%nat;
  EVP_AEAD_max_overhead := λ _, 16%nat;
  SHA256 := λ data, resize 32 Ascii.zero data;
  EVP_AEAD_CTX_init := λ _ _, true;
  EVP_AEAD_CTX_seal := λ _ _ room nonce plaintext _,
    if decide (length plaintext + 16 ≤ room)%nat
    then Some (plaintext ++ toy_tag nonce) else None;
  EVP_AEAD_CTX_open := λ _ _ room nonce sealed _,
    if decide (drop (length sealed - 16) sealed = toy_tag nonce
               ∧ 16 ≤ length sealed)%nat
    then Some (take (length sealed - 16) sealed) else None;
  BsslLastErrorString := "error"
|}.

(** A counter as nonce generator: the nonce is the counter's value repeated,
    and the generator is exhausted at 255. *)
#[global] Instance counter_generator : NonceGenerator nat := {|
  nonce_size := 12;
  uses_key_id := false;
  NextNonce := λ _ counter,
    if decide (counter < 255)%nat
    then (OkStatus,
          replicate 12 (ascii_of_nat counter), S counter)
    else (mkStatus RESOURCE_EXHAUSTED "no nonce left", [], counter)
|}.

Definition empty_vector : Container :=
  {| contents := []; resizes := true |}.

Definition key_128 : list uint8_t := replicate 16 "k"%char.

End AesGcmSiv.

(** * Properties *)

(** ** Lifecycle *)

Module LifecycleProofs.
Import Lifecycle.

Ltac run_comp :=
  unfold mbind, Comp_bind, mret, Comp_ret, get_enclave, modify, emit; simpl.

Lemma state_mismatch_message_inj (c e c' e' : State) :
  state_mismatch_message c e = state_mismatch_message c' e' → c = c' ∧ e = e'.
Proof.
  destruct c, e, c', e'; vm_compute; intros Heq;
    first [ split; reflexivity | discriminate Heq ].
Qed.

Lemma VerifyAndSetState_mismatch (expected new : State) (w : Enclave) :
  enclave_state_ w ≠ expected →
  VerifyAndSetState expected new w =
    (mkStatus FAILED_PRECONDITION
       (state_mismatch_message (enclave_state_ w) expected), w).
Proof.
  intros Hne. unfold VerifyAndSetState. run_comp.
  rewrite bool_decide_eq_true_2; [reflexivity | assumption].
Qed.

Lemma VerifyAndSetState_match (expected new : State) (w : Enclave) :
  enclave_state_ w = expected →
  VerifyAndSetState expected new w = (OkStatus, with_state new w).
Proof.
  intros Heq. unfold VerifyAndSetState. run_comp.
  rewrite bool_decide_eq_false_2; [reflexivity | ].
  intros Hne. apply Hne, Heq.
Qed.

(** C1. [VerifyAndSetState(expected, new)]: when the current state differs
    from [expected] the call returns a FAILED_PRECONDITION status whose
    message determines both the current and the expected state, and the
    enclave is left as it was; when the current state equals [expected] the
    state becomes [new] and the call returns the ok status. *)
Theorem VerifyAndSetState_contract (expected new : State) (w : Enclave) :
  let '(status, w') := VerifyAndSetState expected new w in
  (enclave_state_ w ≠ expected →
     error_code status = FAILED_PRECONDITION ∧
     error_message status
       = state_mismatch_message (enclave_state_ w) expected ∧
     (∀ c e, error_message status = state_mismatch_message c e →
             c = enclave_state_ w ∧ e = expected) ∧
     w' = w) ∧
  (enclave_state_ w = expected →
     status = OkStatus ∧ enclave_state_ w' = new ∧ w' = with_state new w).
Proof.
  destruct (decide (enclave_state_ w = expected)) as [Heq | Hne].
  - rewrite (VerifyAndSetState_match _ _ _ Heq). split.
    + intros Hne. contradiction.
    + intros _. repeat split.
  - rewrite (VerifyAndSetState_mismatch _ _ _ Hne). simpl. split.
    + intros _. split; [reflexivity | split; [reflexivity | split]];
        [ | reflexivity ].
      intros c e Hmsg. symmetry in Hmsg.
      apply state_mismatch_message_inj in Hmsg. exact Hmsg.
    + intros Heq. contradiction.
Qed.

Lemma VerifyAndSetState_contract_witness :
  (VerifyAndSetState kRunning kFinalizing fresh_enclave).2 = fresh_enclave ∧
  enclave_state_ (VerifyAndSetState kRunning kFinalizing (in_state kRunning)).2
    = kFinalizing.
Proof.
  split.
  - pose proof (VerifyAndSetState_contract kRunning kFinalizing fresh_enclave)
      as Hc.
    destruct (VerifyAndSetState kRunning kFinalizing fresh_enclave)
      as [status w'].
    destruct Hc as [Hfail _]. simpl.
    apply Hfail. simpl. discriminate.
  - pose proof (VerifyAndSetState_contract kRunning kFinalizing
                  (in_state kRunning)) as Hc.
    destruct (VerifyAndSetState kRunning kFinalizing (in_state kRunning))
      as [status w'].
    destruct Hc as [_ Hpass]. simpl.
    apply Hpass. reflexivity.
Defined.

Lemma not_succeeded_ReturnOne : ¬ succeeded ReturnOne.
Proof. intros [status [Heq _]]. discriminate Heq. Qed.

Lemma succeeded_Serialize (status : Status) :
  succeeded (Serialize status) ↔ ok status = true.
Proof.
  split.
  - intros [status' [Heq Hok]]. injection Heq as ->. exact Hok.
  - intros Hok. exists status. split; [reflexivity | exact Hok].
Qed.

Lemma VerifyOutputArguments_ok (output output_len : bool) :
  ok (VerifyOutputArguments output output_len) = output && output_len.
Proof. destruct output, output_len; reflexivity. Qed.

(** C2, as the claim states it: from a state other than kUninitialized
    [__asylo_user_init] does not always report a precondition error. With
    the enclave in kRunning, a config that does not parse is answered with
    INVALID_ARGUMENT, and a null output pointer with the bare return value
    1; neither is a FAILED_PRECONDITION report. *)
Lemma user_init_reports_other_errors :
  enclave_state_ (in_state kRunning) ≠ kUninitialized ∧
  (__asylo_user_init "enclave" "garbage" true true (in_state kRunning)).1
    = Serialize (mkStatus INVALID_ARGUMENT "Failed to parse EnclaveConfig") ∧
  (__asylo_user_init "enclave" "good" false true (in_state kRunning)).1
    = ReturnOne ∧
  ¬ (∃ text,
       (__asylo_user_init "enclave" "garbage" true true (in_state kRunning)).1
       = Serialize (mkStatus FAILED_PRECONDITION text)).
Proof.
  split; [simpl; discriminate | ].
  split; [vm_compute; reflexivity | ].
  split; [vm_compute; reflexivity | ].
  intros [text Heq]. vm_compute in Heq. discriminate Heq.
Qed.

(** C2, amended. [__asylo_user_init] reports success only from
    kUninitialized. A call with a null output argument returns 1, and one
    whose config does not parse reports INVALID_ARGUMENT, both changing
    nothing. A call with valid output arguments and a parseable config
    reports, from any state other than kUninitialized, the
    FAILED_PRECONDITION status of the state check and changes nothing; from
    kUninitialized its result is the serialized status of
    [InitializeInternal], run after the state advanced to
    kInternalInitializing, and when that status is an error the state is
    set back to kUninitialized (so that Initialize can be tried again),
    otherwise it becomes kRunning. *)
Theorem user_init_contract `{TrustedApplication} `{Platform}
    (name config : string) (output output_len : bool) (w : Enclave) :
  let '(result, w') := __asylo_user_init name config output output_len w in
  (succeeded result → enclave_state_ w = kUninitialized) ∧
  (output = false ∨ output_len = false → result = ReturnOne ∧ w' = w) ∧
  (output = true → output_len = true → ParseEnclaveConfig config = None →
     result = Serialize (mkStatus INVALID_ARGUMENT
                                  "Failed to parse EnclaveConfig") ∧
     w' = w) ∧
  (output = true → output_len = true →
   is_Some (ParseEnclaveConfig config) →
   enclave_state_ w ≠ kUninitialized →
     result = Serialize
                (mkStatus FAILED_PRECONDITION
                   (state_mismatch_message (enclave_state_ w)
                                           kUninitialized)) ∧
     w' = w) ∧
  (output = true → output_len = true →
   ∀ enclave_config, ParseEnclaveConfig config = Some enclave_config →
   enclave_state_ w = kUninitialized →
     let entered :=
       (SetEnclaveName name
          (VerifyAndSetState kUninitialized kInternalInitializing w).2).2 in
     let status := (InitializeInternal enclave_config entered).1 in
     enclave_state_ entered = kInternalInitializing ∧
     result = Serialize status ∧
     (ok status = false → enclave_state_ w' = kUninitialized) ∧
     (ok status = true → enclave_state_ w' = kRunning)).
Proof.
  unfold __asylo_user_init.
  rewrite VerifyOutputArguments_ok.
  destruct (output && output_len) eqn:Hargs; simpl.
  - (* valid output arguments *)
    apply andb_true_iff in Hargs as [-> ->].
    destruct (ParseEnclaveConfig config) as [enclave_config|] eqn:Hparse.
    + unfold mbind at 1, Comp_bind at 1.
      destruct (decide (enclave_state_ w = kUninitialized)) as [Heq | Hne].
      * rewrite (VerifyAndSetState_match _ _ _ Heq). simpl.
        unfold mbind at 1, Comp_bind at 1.
        unfold SetEnclaveName at 1, modify at 1.
        unfold mbind at 1, Comp_bind at 1.
        destruct (InitializeInternal enclave_config
                    (with_name name (with_state kInternalInitializing w)))
          as [status w2] eqn:Hinternal.
        destruct (ok status) eqn:Hok; simpl;
          (split; [intros _; exact Heq | ]);
          (split; [intros [Hnull | Hnull]; discriminate Hnull | ]);
          (split; [intros _ _ Hnone; discriminate Hnone | ]);
          (split; [intros _ _ _ Hne; contradiction | ]);
          intros _ _ cfg' Hcfg _; injection Hcfg as <-;
          unfold SetEnclaveName, modify; simpl;
          rewrite Hinternal; simpl; rewrite Hok;
          (split; [reflexivity | split; [reflexivity | split]]);
          first [ intros _; reflexivity | intros Hno; discriminate Hno ].
      * rewrite (VerifyAndSetState_mismatch _ _ _ Hne). simpl.
        split.
        { intros Hs. apply succeeded_Serialize in Hs. discriminate Hs. }
        split; [intros [Hnull | Hnull]; discriminate Hnull | ].
        split; [intros _ _ Hnone; discriminate Hnone | ].
        split; [intros _ _ _ _; split; reflexivity | ].
        intros _ _ cfg' _ Heq. contradiction.
    + (* the config does not parse *)
      simpl. split.
      { intros Hs. apply succeeded_Serialize in Hs. discriminate Hs. }
      split; [intros [Hnull | Hnull]; discriminate Hnull | ].
      split; [intros _ _ _; split; reflexivity | ].
      split; [intros _ _ [cfg' Hcfg]; discriminate Hcfg | ].
      intros _ _ cfg' Hcfg. discriminate Hcfg.
  - (* a null output argument *)
    split.
    { intros Hs. exfalso. exact (not_succeeded_ReturnOne Hs). }
    split; [intros _; split; reflexivity | ].
    split; [intros -> ->; discriminate Hargs | ].
    split; [intros -> ->; discriminate Hargs | ].
    intros -> ->. discriminate Hargs.
Qed.

Lemma user_init_contract_witness :
  let run := __asylo_user_init "enclave" "bad" true true fresh_enclave in
  run.1 = Serialize (mkStatus INTERNAL "user initialization failed") ∧
  enclave_state_ run.2 = kUninitialized.
Proof.
  pose proof (user_init_contract "enclave" "bad" true true fresh_enclave)
    as Hc.
  cbv zeta.
  destruct (__asylo_user_init "enclave" "bad" true true fresh_enclave)
    as [result w'].
  destruct Hc as (_ & _ & _ & _ & Hinit).
  specialize (Hinit eq_refl eq_refl (demo_config (-1)) eq_refl eq_refl).
  cbv zeta in Hinit. destruct Hinit as (_ & Hresult & Hfail & _).
  simpl. split.
  - rewrite Hresult. vm_compute. reflexivity.
  - apply Hfail. vm_compute. reflexivity.
Defined.

(** C3, as the claim states it: with the enclave in kRunning and an input
    that does not parse, [__asylo_user_fini] reports INVALID_ARGUMENT and
    the state stays kRunning: it is set neither to kFinalizing nor to
    kFinalized. From kUninitialized the same input is answered with
    INVALID_ARGUMENT, which is not the precondition error. *)
Lemma user_fini_unparseable_input_keeps_state :
  let run := __asylo_user_fini "garbage" true true (in_state kRunning) in
  let early := __asylo_user_fini "garbage" true true fresh_enclave in
  run.1 = Serialize (mkStatus INVALID_ARGUMENT "Failed to parse EnclaveFinal") ∧
  enclave_state_ run.2 = kRunning ∧
  trace run.2 = [] ∧
  enclave_state_ fresh_enclave ≠ kRunning ∧
  early.1
    = Serialize (mkStatus INVALID_ARGUMENT "Failed to parse EnclaveFinal").
Proof.
  cbv zeta.
  split; [vm_compute; reflexivity | ].
  split; [vm_compute; reflexivity | ].
  split; [vm_compute; reflexivity | ].
  split; [simpl; discriminate | vm_compute; reflexivity].
Qed.

(** C3, amended. A call of [__asylo_user_fini] with a null output argument
    returns 1, and one whose input does not parse reports INVALID_ARGUMENT,
    both changing nothing. A call with valid output arguments and a
    parseable input reports, unless the state is kRunning, the
    FAILED_PRECONDITION status of the state check and changes nothing; from
    kRunning the state is set to kFinalizing before the user's finalization
    runs, the thread manager is finalized, the state is then set to
    kFinalized, and the user's status, ok or not, is what is serialized. *)
Theorem user_fini_contract `{TrustedApplication} `{Platform}
    (input : string) (output output_len : bool) (w : Enclave) :
  let '(result, w') := __asylo_user_fini input output output_len w in
  (output = false ∨ output_len = false → result = ReturnOne ∧ w' = w) ∧
  (output = true → output_len = true → ParseEnclaveFinal input = None →
     result = Serialize (mkStatus INVALID_ARGUMENT
                                  "Failed to parse EnclaveFinal") ∧
     w' = w) ∧
  (output = true → output_len = true →
   is_Some (ParseEnclaveFinal input) →
   enclave_state_ w ≠ kRunning →
     result = Serialize
                (mkStatus FAILED_PRECONDITION
                   (state_mismatch_message (enclave_state_ w) kRunning)) ∧
     w' = w) ∧
  (output = true → output_len = true →
   ∀ enclave_final, ParseEnclaveFinal input = Some enclave_final →
   enclave_state_ w = kRunning →
     trace w' = trace w ++ [EvSetState kFinalizing; EvUserFinalize;
                            EvThreadManagerFinalize; EvSetState kFinalized] ∧
     enclave_state_ w' = kFinalized ∧
     result = Serialize (Finalize enclave_final)).
Proof.
  unfold __asylo_user_fini.
  rewrite VerifyOutputArguments_ok.
  destruct (output && output_len) eqn:Hargs; simpl.
  - apply andb_true_iff in Hargs as [-> ->].
    destruct (ParseEnclaveFinal input) as [enclave_final|] eqn:Hparse.
    + unfold mbind at 1, Comp_bind at 1.
      destruct (decide (enclave_state_ w = kRunning)) as [Heq | Hne].
      * rewrite (VerifyAndSetState_match _ _ _ Heq). simpl.
        run_comp. unfold SetState, modify. simpl.
        split; [intros [Hnull | Hnull]; discriminate Hnull | ].
        split; [intros _ _ Hnone; discriminate Hnone | ].
        split; [intros _ _ _ Hne; contradiction | ].
        intros _ _ final' Hfinal _. injection Hfinal as <-.
        split; [ | split; reflexivity ].
        rewrite <- !app_assoc. reflexivity.
      * rewrite (VerifyAndSetState_mismatch _ _ _ Hne). simpl.
        split; [intros [Hnull | Hnull]; discriminate Hnull | ].
        split; [intros _ _ Hnone; discriminate Hnone | ].
        split; [intros _ _ _ _; split; reflexivity | ].
        intros _ _ final' _ Heq. contradiction.
    + simpl.
      split; [intros [Hnull | Hnull]; discriminate Hnull | ].
      split; [intros _ _ _; split; reflexivity | ].
      split; [intros _ _ [final' Hfinal]; discriminate Hfinal | ].
      intros _ _ final' Hfinal. discriminate Hfinal.
  - split; [intros _; split; reflexivity | ].
    split; [intros -> ->; discriminate Hargs | ].
    split; [intros -> ->; discriminate Hargs | ].
    intros -> ->. discriminate Hargs.
Qed.

Lemma user_fini_contract_witness :
  let skipped := __asylo_user_fini "final" true true fresh_enclave in
  let failed := __asylo_user_fini "payload" true true (in_state kRunning) in
  (skipped.2 = fresh_enclave ∧
   skipped.1 = Serialize
                 (mkStatus FAILED_PRECONDITION
                    (state_mismatch_message kUninitialized kRunning))) ∧
  (enclave_state_ failed.2 = kFinalized ∧
   failed.1 = Serialize (mkStatus INTERNAL "user finalization failed")).
Proof.
  cbv zeta. split.
  - pose proof (user_fini_contract "final" true true fresh_enclave) as Hc.
    destruct (__asylo_user_fini "final" true true fresh_enclave)
      as [result w'].
    destruct Hc as (_ & _ & Hskip & _).
    assert (enclave_state_ fresh_enclave ≠ kRunning) as Hne
      by (simpl; discriminate).
    assert (is_Some (ParseEnclaveFinal "final")) as Hparse
      by (eexists; reflexivity).
    destruct (Hskip eq_refl eq_refl Hparse Hne) as [Hreport Hsame].
    simpl. split; [exact Hsame | exact Hreport].
  - pose proof (user_fini_contract "payload" true true (in_state kRunning))
      as Hc.
    destruct (__asylo_user_fini "payload" true true (in_state kRunning))
      as [result w'].
    destruct Hc as (_ & _ & _ & Hrun).
    destruct (Hrun eq_refl eq_refl {| final_extensions := "payload" |}
                   eq_refl eq_refl)
      as (_ & Hstate & Hresult).
    simpl. split; [exact Hstate | exact Hresult].
Defined.

Lemma sigismember_spec (set : gset Z) (signum : Z) :
  sigismember set signum ≠ 0 ↔ signum ∈ set.
Proof.
  unfold sigismember. case_bool_decide as Hin.
  - split; [intros _; exact Hin | intros _; discriminate].
  - split; [intros Hne; contradiction | intros Hyes; contradiction].
Qed.

Lemma in_window_iff (state : State) :
  bool_decide (State_value state < 3) || bool_decide (State_value state > 4)
    = false
  ↔ state = kRunning ∨ state = kFinalizing.
Proof.
  destruct state; vm_compute; split; intros Hw;
    first [ discriminate Hw
          | left; reflexivity
          | right; reflexivity
          | reflexivity
          | destruct Hw as [Hw | Hw]; discriminate Hw ].
Qed.

(** C4, as the claim states it: a masked signal does not always get the
    code -1. Signal 10 is in the mask and arrives before initialization:
    the state check comes first and the call returns 2. *)
Lemma handle_signal_masked_before_init :
  let w := with_mask {[ 10 ]} fresh_enclave in
  FromBridgeSignal 10 ∈ signal_mask w ∧
  ParseEnclaveSignal signal_10
    = Some {| sig_signum := 10; sig_code := 0; sig_gregs := [1; 2; 3] |} ∧
  (__asylo_handle_signal signal_10 w).1 = 2 ∧
  (__asylo_handle_signal signal_10 w).2 = w.
Proof.
  cbv zeta. split.
  { change (FromBridgeSignal 10 ∈ ({[ 10 ]} : gset Z)).
    apply elem_of_singleton. reflexivity. }
  split; [reflexivity | ].
  split; reflexivity.
Qed.

(** C4, amended. [__asylo_handle_signal] either leaves the enclave
    untouched or invokes the signal manager's handler exactly once, and the
    latter happens only when the state is kRunning or kFinalizing and the
    translated signal number is not in the enclave's signal mask. In any
    other state the call returns a non-zero code (2 when the message
    parses) and runs no handler. A masked signal runs no handler and yields
    a non-zero code; inside the window that code is -1. *)
Theorem handle_signal_contract `{Platform} (input : string) (w : Enclave) :
  let '(rc, w') := __asylo_handle_signal input w in
  (w' = w ∨
   ∃ signal, ParseEnclaveSignal input = Some signal ∧
     let signum := FromBridgeSignal (sig_signum signal) in
     w' = with_event (EvHandleSignal signum (sig_code signal)
                                     (copy_gregs (sig_gregs signal))) w ∧
     (enclave_state_ w = kRunning ∨ enclave_state_ w = kFinalizing) ∧
     signum ∉ signal_mask w) ∧
  (enclave_state_ w ≠ kRunning → enclave_state_ w ≠ kFinalizing →
     w' = w ∧ rc ≠ 0 ∧ (is_Some (ParseEnclaveSignal input) → rc = 2)) ∧
  (∀ signal, ParseEnclaveSignal input = Some signal →
     FromBridgeSignal (sig_signum signal) ∈ signal_mask w →
     w' = w ∧ rc ≠ 0 ∧
     (enclave_state_ w = kRunning ∨ enclave_state_ w = kFinalizing →
      0 <= FromBridgeSignal (sig_signum signal) → rc = -1)).
Proof.
  unfold __asylo_handle_signal.
  destruct (ParseEnclaveSignal input) as [signal|] eqn:Hparse.
  - unfold GetState. run_comp.
    destruct (bool_decide (_ < _) || bool_decide (_ > _)) eqn:Hwin.
    + (* outside the window *)
      assert (¬ (enclave_state_ w = kRunning ∨ enclave_state_ w = kFinalizing))
        as Hout.
      { intros Hin. apply in_window_iff in Hin. congruence. }
      split; [left; reflexivity | ]. split.
      * intros _ _. split; [reflexivity | split]; [discriminate | ].
        intros _. reflexivity.
      * intros signal' Hsig _. split; [reflexivity | split];
          [discriminate | ].
        intros Hin. contradiction.
    + apply in_window_iff in Hwin.
      case_bool_decide as Hneg.
      * (* the signal number does not translate *)
        split; [left; reflexivity | ]. split.
        -- intros Hr Hf. destruct Hwin; contradiction.
        -- intros signal' Hsig _. injection Hsig as <-.
           split; [reflexivity | split]; [discriminate | ].
           intros _ Hpos. exfalso. apply (Z.lt_irrefl 0).
           eapply Z.le_lt_trans; [exact Hpos | exact Hneg].
      * case_bool_decide as Hmask.
        -- (* masked *)
           split; [left; reflexivity | ]. split.
           ++ intros Hr Hf. destruct Hwin; contradiction.
           ++ intros signal' Hsig _. injection Hsig as <-.
              split; [reflexivity | split]; [discriminate | ].
              intros _ _. reflexivity.
        -- (* delivered *)
           assert (FromBridgeSignal (sig_signum signal) ∉ signal_mask w)
             as Hfree.
           { intros Hin. apply sigismember_spec in Hin. apply Hin, Hmask. }
           destruct (ok (HandleSignal (FromBridgeSignal (sig_signum signal))
                           (sig_code signal) (copy_gregs (sig_gregs signal))));
             simpl.
           ++ split.
              { right. exists signal. split; [reflexivity | ].
                cbv zeta. split; [reflexivity | split; assumption]. }
              split.
              { intros Hr Hf. destruct Hwin; contradiction. }
              intros signal' Hsig Hin. injection Hsig as <-. contradiction.
           ++ split.
              { right. exists signal. split; [reflexivity | ].
                cbv zeta. split; [reflexivity | split; assumption]. }
              split.
              { intros Hr Hf. destruct Hwin; contradiction. }
              intros signal' Hsig Hin. injection Hsig as <-. contradiction.
  - run_comp. split; [left; reflexivity | ]. split.
    + intros _ _. split; [reflexivity | split]; [discriminate | ].
      intros [signal Hsig]. discriminate Hsig.
    + intros signal Hsig. discriminate Hsig.
Qed.

Lemma handle_signal_contract_witness :
  let early := __asylo_handle_signal signal_10 fresh_enclave in
  let masked :=
    __asylo_handle_signal signal_10 (with_mask {[ 10 ]} (in_state kRunning)) in
  (early.1 = 2 ∧ early.2 = fresh_enclave) ∧
  (masked.1 = -1 ∧ masked.2 = with_mask {[ 10 ]} (in_state kRunning)).
Proof.
  cbv zeta. split.
  - pose proof (handle_signal_contract signal_10 fresh_enclave) as Hc.
    destruct (__asylo_handle_signal signal_10 fresh_enclave) as [rc w'].
    destruct Hc as (_ & Hout & _).
    assert (enclave_state_ fresh_enclave ≠ kRunning) as Hr
      by (simpl; discriminate).
    assert (enclave_state_ fresh_enclave ≠ kFinalizing) as Hf
      by (simpl; discriminate).
    destruct (Hout Hr Hf) as (Hsame & _ & Hcode).
    simpl. split; [ | exact Hsame].
    apply Hcode. eexists. reflexivity.
  - pose proof (handle_signal_contract signal_10
                  (with_mask {[ 10 ]} (in_state kRunning))) as Hc.
    destruct (__asylo_handle_signal signal_10
                (with_mask {[ 10 ]} (in_state kRunning))) as [rc w'].
    destruct Hc as (_ & _ & Hmasked).
    assert (FromBridgeSignal 10 ∈ ({[ 10 ]} : gset Z)) as Hin.
    { apply elem_of_singleton. reflexivity. }
    destruct (Hmasked _ eq_refl Hin) as (Hsame & _ & Hcode).
    simpl. split; [ | exact Hsame].
    apply Hcode; [left; reflexivity | ].
    vm_compute. discriminate.
Defined.

(** *** What "initialization fails" covers *)

Lemma InitializeEnvironmentVariables_frame
    (variables : list EnvironmentVariable) (w : Enclave) :
  ∃ env, (InitializeEnvironmentVariables variables w).2 = with_environ env w.
Proof.
  revert w. induction variables as [|variable rest IH]; intros w.
  - exists (environ w). destruct w; reflexivity.
  - simpl. destruct (ev_name variable) as [name|];
      [destruct (ev_value variable) as [value|] | ];
      try (exists (environ w); destruct w; reflexivity).
    run_comp.
    destruct (IH (with_environ (setenv name value 0 (environ w)) w))
      as [env Henv].
    exists env. rewrite Henv. reflexivity.
Qed.

(** Up to the state check, [InitializeInternal] touches neither the state
    field nor the enclave's name; it logs two collaborator calls. *)
Lemma InitializeInternal_prefix `{TrustedApplication}
    (config : EnclaveConfig) (w : Enclave) :
  ∃ w1,
    enclave_state_ w1 = enclave_state_ w ∧
    trace w1 = trace w ++ [EvInitLogging (log_directory config)
                             (enclave_name w) (vlog_level config);
                           EvInitializeEnclaveAssertionAuthorities] ∧
    InitializeInternal config w =
      (status ← VerifyAndSetState kInternalInitializing kUserInitializing;
       if negb (ok status) then mret status
       else emit EvUserInitialize;; mret (Initialize config)) w1.
Proof.
  unfold InitializeInternal, InitializeIO, SetEnclaveConfig.
  unfold mbind at 1, Comp_bind at 1. unfold mbind at 1, Comp_bind at 1.
  unfold get_enclave at 1. unfold modify at 1.
  unfold mbind at 1, Comp_bind at 1.
  match goal with
  | |- context [InitializeEnvironmentVariables ?vars ?w0] =>
      destruct (InitializeEnvironmentVariables_frame vars w0) as [env Henv];
      destruct (InitializeEnvironmentVariables vars w0) as [status0 w0'] eqn:Hrun
  end.
  simpl in Henv. subst w0'.
  unfold mbind at 1, Comp_bind at 1. unfold get_enclave at 1.
  unfold mbind at 1, Comp_bind at 1. unfold emit at 1, modify at 1.
  unfold mbind at 1, Comp_bind at 1. unfold modify at 1.
  unfold mbind at 1, Comp_bind at 1. unfold emit at 1, modify at 1.
  eexists. split; [ | split; [ | reflexivity ] ].
  - reflexivity.
  - simpl. rewrite <- app_assoc. reflexivity.
Qed.

(** In the state the entry point establishes, [InitializeInternal] advances
    to kUserInitializing, runs the user's [Initialize] and returns its
    status. *)
Lemma InitializeInternal_runs_user `{TrustedApplication}
    (config : EnclaveConfig) (w : Enclave) :
  enclave_state_ w = kInternalInitializing →
  (InitializeInternal config w).1 = Initialize config ∧
  enclave_state_ (InitializeInternal config w).2 = kUserInitializing ∧
  trace (InitializeInternal config w).2 =
    trace w ++ [EvInitLogging (log_directory config) (enclave_name w)
                              (vlog_level config);
                EvInitializeEnclaveAssertionAuthorities;
                EvSetState kUserInitializing;
                EvUserInitialize].
Proof.
  intros Hstate.
  destruct (InitializeInternal_prefix config w) as (w1 & Hs1 & Ht1 & ->).
  match goal with
  | |- context [?body w1] =>
      assert (body w1 = (Initialize config,
                         with_event EvUserInitialize
                           (with_state kUserInitializing w1))) as ->
  end.
  { unfold mbind at 1, Comp_bind at 1.
    rewrite VerifyAndSetState_match by congruence. reflexivity. }
  simpl. split; [reflexivity | split; [reflexivity | ]].
  rewrite Ht1. rewrite <- !app_assoc. reflexivity.
Qed.

(** In any other state its own state check fails: the user's [Initialize]
    does not run and the state field keeps its value. *)
Lemma InitializeInternal_wrong_state `{TrustedApplication}
    (config : EnclaveConfig) (w : Enclave) :
  enclave_state_ w ≠ kInternalInitializing →
  (InitializeInternal config w).1 =
    mkStatus FAILED_PRECONDITION
      (state_mismatch_message (enclave_state_ w) kInternalInitializing) ∧
  enclave_state_ (InitializeInternal config w).2 = enclave_state_ w ∧
  EvUserInitialize ∉ drop (length (trace w))
                          (trace (InitializeInternal config w).2).
Proof.
  intros Hstate.
  destruct (InitializeInternal_prefix config w) as (w1 & Hs1 & Ht1 & ->).
  match goal with
  | |- context [?body w1] =>
      assert (body w1 =
                (mkStatus FAILED_PRECONDITION
                   (state_mismatch_message (enclave_state_ w1)
                                           kInternalInitializing), w1)) as ->
  end.
  { unfold mbind at 1, Comp_bind at 1.
    rewrite VerifyAndSetState_mismatch by congruence. reflexivity. }
  simpl. rewrite Hs1. split; [reflexivity | split; [reflexivity | ]].
  rewrite Ht1. rewrite drop_app_length.
  intros Hin. apply elem_of_cons in Hin as [Heq | Hin]; [discriminate Heq | ].
  apply elem_of_cons in Hin as [Heq | Hin]; [discriminate Heq | ].
  apply elem_of_nil in Hin. exact Hin.
Qed.

(** A call of [__asylo_user_init] with valid arguments from
    kUninitialized, as one equation. *)
Lemma user_init_from_uninitialized `{TrustedApplication} `{Platform}
    (name config : string) (enclave_config : EnclaveConfig) (w : Enclave) :
  enclave_state_ w = kUninitialized →
  ParseEnclaveConfig config = Some enclave_config →
  __asylo_user_init name config true true w =
    let '(status, w2) :=
      InitializeInternal enclave_config
        (with_name name (with_state kInternalInitializing w)) in
    (Serialize status,
     with_state (if ok status then kRunning else kUninitialized) w2).
Proof.
  intros Hstate Hparse. unfold __asylo_user_init. simpl. rewrite Hparse.
  unfold mbind at 1, Comp_bind at 1.
  rewrite (VerifyAndSetState_match _ _ _ Hstate). simpl.
  unfold mbind at 1, Comp_bind at 1. unfold SetEnclaveName at 1, modify at 1.
  unfold mbind at 1, Comp_bind at 1.
  destruct (InitializeInternal enclave_config _) as [status w2].
  destruct (ok status); reflexivity.
Qed.

(** X3. After an initialization that failed in the user's [Initialize], a
    second call to [__asylo_user_init] whose user logic succeeds brings the
    enclave to kRunning. *)
Theorem user_init_retry `{TrustedApplication} `{Platform}
    (name config name' config' : string)
    (enclave_config enclave_config' : EnclaveConfig) (w : Enclave) :
  enclave_state_ w = kUninitialized →
  ParseEnclaveConfig config = Some enclave_config →
  ok (Initialize enclave_config) = false →
  ParseEnclaveConfig config' = Some enclave_config' →
  ok (Initialize enclave_config') = true →
  let first := __asylo_user_init name config true true w in
  let retry := __asylo_user_init name' config' true true first.2 in
  first.1 = Serialize (Initialize enclave_config) ∧
  enclave_state_ first.2 = kUninitialized ∧
  retry.1 = Serialize (Initialize enclave_config') ∧
  enclave_state_ retry.2 = kRunning.
Proof.
  intros Hstate Hparse Hfail Hparse' Hgood. cbv zeta.
  rewrite (user_init_from_uninitialized _ _ _ _ Hstate Hparse).
  pose proof (InitializeInternal_runs_user enclave_config
                (with_name name (with_state kInternalInitializing w))
                eq_refl) as (Hstatus & _).
  destruct (InitializeInternal enclave_config _) as [status w2].
  simpl in Hstatus. subst status. rewrite Hfail. simpl.
  split; [reflexivity | split; [reflexivity | ]].
  rewrite (user_init_from_uninitialized name' config' _
             (with_state kUninitialized w2) eq_refl Hparse').
  pose proof (InitializeInternal_runs_user enclave_config'
                (with_name name'
                   (with_state kInternalInitializing
                      (with_state kUninitialized w2)))
                eq_refl) as (Hstatus' & _).
  destruct (InitializeInternal enclave_config' _) as [status' w3].
  simpl in Hstatus'. subst status'. rewrite Hgood. simpl.
  split; reflexivity.
Qed.

Lemma user_init_retry_witness :
  let first := __asylo_user_init "enclave" "bad" true true fresh_enclave in
  let retry := __asylo_user_init "enclave" "good" true true first.2 in
  enclave_state_ first.2 = kUninitialized ∧
  retry.1 = Serialize OkStatus ∧
  enclave_state_ retry.2 = kRunning.
Proof.
  assert (ParseEnclaveConfig "bad" = Some (demo_config (-1))) as Hbad
    by reflexivity.
  assert (ParseEnclaveConfig "good" = Some (demo_config 0)) as Hgood
    by reflexivity.
  assert (ok (Initialize (demo_config (-1))) = false) as Hfails
    by (vm_compute; reflexivity).
  assert (ok (Initialize (demo_config 0)) = true) as Hworks
    by (vm_compute; reflexivity).
  destruct (user_init_retry "enclave" "bad" "enclave" "good"
              (demo_config (-1)) (demo_config 0) fresh_enclave
              eq_refl Hbad Hfails Hgood Hworks)
    as (_ & Hback & Hresult & Hrunning).
  cbv zeta. split; [exact Hback | split; [exact Hresult | exact Hrunning]].
Defined.

(** X4. [__asylo_user_run] never writes the state field; the user's [Run] is
    invoked only in kRunning, and in any other state a call with valid
    arguments and a parseable input reports FAILED_PRECONDITION. *)
Theorem user_run_contract `{TrustedApplication} `{Platform}
    (input : string) (output output_len : bool) (w : Enclave) :
  let '(result, w') := __asylo_user_run input output output_len w in
  enclave_state_ w' = enclave_state_ w ∧
  (w' = w ∨ (w' = with_event EvUserRun w ∧ enclave_state_ w = kRunning)) ∧
  (enclave_state_ w ≠ kRunning →
     w' = w ∧ ¬ succeeded result ∧
     (output = true → output_len = true →
      is_Some (ParseEnclaveInput input) →
      result = Serialize (mkStatus FAILED_PRECONDITION
                                   "Enclave not in state RUNNING"))) ∧
  (enclave_state_ w = kRunning → output = true → output_len = true →
   ∀ enclave_input, ParseEnclaveInput input = Some enclave_input →
     result = Serialize (Run enclave_input) ∧ w' = with_event EvUserRun w).
Proof.
  unfold __asylo_user_run. rewrite VerifyOutputArguments_ok.
  destruct (output && output_len) eqn:Hargs; simpl.
  - apply andb_true_iff in Hargs as [-> ->].
    destruct (ParseEnclaveInput input) as [enclave_input|] eqn:Hparse.
    + unfold GetState. run_comp. case_bool_decide as Hstate; simpl.
      * split; [reflexivity | split; [left; reflexivity | split]].
        -- intros _. split; [reflexivity | split].
           ++ intros Hs. apply succeeded_Serialize in Hs. discriminate Hs.
           ++ intros _ _ _. reflexivity.
        -- intros Heq. contradiction.
      * split; [reflexivity | split; [right; split; [reflexivity | ] | split]].
        -- destruct (decide (enclave_state_ w = kRunning)); [assumption | ].
           contradiction.
        -- intros Hne. exfalso. apply Hne.
           destruct (decide (enclave_state_ w = kRunning)); [assumption | ].
           contradiction.
        -- intros _ _ _ input' Hinput. injection Hinput as <-.
           split; reflexivity.
    + simpl. split; [reflexivity | split; [left; reflexivity | split]].
      * intros _. split; [reflexivity | split].
        -- intros Hs. apply succeeded_Serialize in Hs. discriminate Hs.
        -- intros _ _ [input' Hinput]. discriminate Hinput.
      * intros _ _ _ input' Hinput. discriminate Hinput.
  - split; [reflexivity | split; [left; reflexivity | split]].
    + intros _. split; [reflexivity | split].
      * exact not_succeeded_ReturnOne.
      * intros -> ->. discriminate Hargs.
    + intros _ -> ->. discriminate Hargs.
Qed.

End LifecycleProofs.

(** ** The fork ocall *)

Module ForkProofs.
Import Fork.

(** [buf[rc] = 0] after a read of [rc] bytes into a 64-byte array is inside
    the array exactly when [rc] is below 64. *)
Lemma store_in_bounds_iff (buf : list ascii) (rc : Z) :
  length buf = sizeof_buf → 0 < rc <= 64 →
  is_Some (store buf (Z.to_nat rc) NUL) ↔ rc < 64.
Proof.
  intros Hlen Hrc. unfold store. rewrite Hlen. unfold sizeof_buf.
  destruct (decide (Z.to_nat rc < 64)%nat) as [Hlt | Hge].
  - split; [intros _; lia | intros _; eexists; reflexivity].
  - split; [intros [x Hx]; discriminate Hx | intros Hlt; lia].
Qed.

(** C10. The pipe holds 64 bytes when the parent reads it: [read] returns
    rc = 64, the store [buf[rc] = 0] has index 64 in an array of 64
    elements, and the call has no defined result. *)
Theorem confirmation_terminator_out_of_bounds :
  let message := replicate 64 "a"%char in
  let buf := resize sizeof_buf NUL [] in
  (read (ReadData message) buf sizeof_buf 0).1.1 = 64 ∧
  length (read (ReadData message) buf sizeof_buf 0).1.2 = 64%nat ∧
  store (read (ReadData message) buf sizeof_buf 0).1.2 (Z.to_nat 64) NUL
    = None ∧
  ocall_enc_untrusted_fork (host_with_message message) true 0
    = OutOfBoundsStore 64 64.
Proof. vm_compute. repeat split. Qed.

(** C5. The child reports a failed restore ("Child EnterAndRestore
    failed"), or closes the pipe without writing, while [errno] is 0 in the
    parent: the call returns -1 and [errno] is still 0, whereas on a
    timeout it returns -1 with [errno] set to EFAULT. *)
Theorem fork_failure_leaves_errno_unset :
  ocall_enc_untrusted_fork
    (host_with_message (str_data "Child EnterAndRestore failed")) true 0
    = Return (-1) 0 ∧
  ocall_enc_untrusted_fork (host_with_message []) true 0 = Return (-1) 0 ∧
  ocall_enc_untrusted_fork (host_with (SysOk 0) (ReadData [])) true 0
    = Return (-1) EFAULT.
Proof. vm_compute. repeat split. Qed.

Lemma char_value_inj (c1 c2 : ascii) : char_value c1 = char_value c2 → c1 = c2.
Proof.
  unfold char_value. intros Heq. apply N2Z.inj in Heq.
  rewrite <- (ascii_N_embedding c1), <- (ascii_N_embedding c2).
  rewrite Heq. reflexivity.
Qed.

Lemma c_string_app_NUL (l rest : list ascii) :
  c_string (l ++ NUL :: rest) = c_string l.
Proof.
  induction l as [|c l IH]; simpl; [reflexivity | ].
  case_bool_decide; [reflexivity | rewrite IH; reflexivity].
Qed.

(** [strncmp] against a literal without embedded [NUL], with room for its
    terminator, is 0 exactly when the array holds that C string. *)
Lemma strncmp_zero_iff (s1 lit : list ascii) (n : nat) :
  NUL ∉ lit → (length lit < n)%nat →
  strncmp s1 (lit ++ [NUL]) n = 0 ↔ c_string s1 = lit.
Proof.
  revert s1 n. induction lit as [|c lit IH]; intros s1 n Hnul Hlen.
  - destruct n as [|n]; [simpl in Hlen; lia | ].
    destruct s1 as [|c1 s1]; [split; reflexivity | ].
    cbn [strncmp c_string app hd tl].
    destruct (decide (c1 = NUL)) as [-> | Hc1].
    + split; reflexivity.
    + rewrite (bool_decide_eq_true_2 (c1 ≠ NUL)) by exact Hc1.
      rewrite (bool_decide_eq_false_2 (c1 = NUL)) by exact Hc1.
      split.
      * intros Hz. exfalso. apply Hc1. apply char_value_inj.
        change (char_value NUL) with 0 in *. lia.
      * intros Hz. discriminate Hz.
  - destruct n as [|n]; [simpl in Hlen; lia | ].
    assert (c ≠ NUL) as Hc.
    { intros ->. apply Hnul. apply elem_of_cons. left. reflexivity. }
    assert (NUL ∉ lit) as Hnul'.
    { intros Hin. apply Hnul. apply elem_of_cons. right. exact Hin. }
    simpl in Hlen.
    destruct s1 as [|c1 s1]; cbn [strncmp c_string app hd tl].
    + rewrite (bool_decide_eq_true_2 (NUL ≠ c))
        by (intros Heq; apply Hc; symmetry; exact Heq).
      split.
      * intros Hz. exfalso. apply Hc. apply char_value_inj.
        change (char_value NUL) with 0 in *. lia.
      * intros Hz. discriminate Hz.
    + destruct (decide (c1 = c)) as [-> | Hc1].
      * rewrite (bool_decide_eq_false_2 (c ≠ c))
          by (intros Hne; apply Hne; reflexivity).
        rewrite !(bool_decide_eq_false_2 (c = NUL)) by exact Hc.
        rewrite (IH s1 n Hnul' ltac:(lia)). split.
        -- intros ->. reflexivity.
        -- intros Hz. injection Hz as Hz. exact Hz.
      * rewrite (bool_decide_eq_true_2 (c1 ≠ c)) by exact Hc1.
        split.
        -- intros Hz. exfalso. apply Hc1. apply char_value_inj. lia.
        -- intros Hz. case_bool_decide; [discriminate Hz | ].
           injection Hz as Hz _. contradiction.
Qed.

Lemma confirmation_has_no_NUL : NUL ∉ str_data "Child fork succeeded".
Proof.
  intros Hin. apply list_elem_of_In in Hin. vm_compute in Hin.
  repeat (destruct Hin as [Hin | Hin]; [discriminate Hin | ]). exact Hin.
Qed.

(** The parent's branch returns something other than -1 only when the pipe
    was readable, [read] delivered fewer than 64 bytes, and those bytes are
    the C string "Child fork succeeded"; what it returns then is the
    child's pid, with [errno] as the earlier calls left it. *)
Lemma fork_parent_confirmed (h : Host) (pid errno value errno' : Z) :
  fork_parent h pid errno = Return value errno' →
  value ≠ -1 →
  value = pid ∧
  ∃ n avail,
    select_answer h 5 0 = SysOk n ∧ 0 < n ∧
    read_answer h = ReadData avail ∧
    (0 < length avail < 64)%nat ∧
    c_string avail = str_data "Child fork succeeded".
Proof.
  unfold fork_parent, DoSnapshotKeyTransfer, sys, read.
  destruct (close_pipe_answer h) as [v0|e0];
    [ | intros Hret; injection Hret as <- _; intros Hne; contradiction ].
  case_bool_decide;
    [ intros Hret; injection Hret as <- _; intros Hne; contradiction | ].
  destruct (close_peer_answer h) as [v1|e1];
    [ | intros Hret; injection Hret as <- _; intros Hne; contradiction ].
  case_bool_decide;
    [ intros Hret; injection Hret as <- _; intros Hne; contradiction | ].
  destruct (transfer_key_ok h); cbn [negb];
    [ | intros Hret; injection Hret as <- _; intros Hne; contradiction ].
  destruct (select_answer h 5 0) as [n|e2] eqn:Hselect;
    [ | intros Hret; injection Hret as <- _; intros Hne; contradiction ].
  case_bool_decide as Hneg;
    [ intros Hret; injection Hret as <- _; intros Hne; contradiction | ].
  case_bool_decide as Hzero;
    [ intros Hret; injection Hret as <- _; intros Hne; contradiction | ].
  destruct (read_answer h) as [avail|e3] eqn:Hread;
    [ | intros Hret; injection Hret as <- _; intros Hne; contradiction ].
  case_bool_decide as Hempty;
    [ intros Hret; injection Hret as <- _; intros Hne; contradiction | ].
  rewrite Nat2Z.id.
  set (got := take sizeof_buf avail) in *.
  set (buf := resize sizeof_buf NUL (stack_garbage h)).
  assert (length buf = 64%nat) as Hbuf by (apply length_resize).
  assert (length got <= 64)%nat as Hgot
    by (unfold got, sizeof_buf; rewrite length_take; lia).
  unfold store. rewrite length_app, length_drop, Hbuf.
  replace (length got + (64 - length got))%nat with 64%nat by lia.
  destruct (decide (length got < 64)%nat) as [Hlt | Hge];
    [ | intros Hret; discriminate Hret ].
  case_bool_decide as Hcmp;
    [ intros Hret; injection Hret as <- _; intros Hne; contradiction | ].
  intros Hret _. injection Hret as <- _. split; [reflexivity | ].
  assert (got = avail) as Hall.
  { unfold got, sizeof_buf in *. apply take_ge.
    rewrite length_take in Hlt. lia. }
  exists n, avail. split; [reflexivity | ]. split; [lia | ].
  split; [reflexivity | ]. rewrite Hall in *. split; [lia | ].
  apply (strncmp_zero_iff _ (str_data "Child fork succeeded") sizeof_buf)
    in Hcmp; [ | exact confirmation_has_no_NUL | ].
  - rewrite <- Hcmp.
    rewrite insert_app_r_alt by lia. rewrite Nat.sub_diag.
    destruct (drop (length avail) buf) as [|c rest] eqn:Hdrop.
    { exfalso. apply (f_equal length) in Hdrop. rewrite length_drop in Hdrop.
      cbn [length] in Hdrop. lia. }
    cbn [list_insert]. symmetry. apply c_string_app_NUL.
  - vm_compute. lia.
Qed.

(** The child's branch returns -1 or the child's own [pid]. *)
Lemma fork_child_returns (h : Host) (pid errno : Z) :
  ∃ errno', fork_child h pid errno = Return (-1) errno' ∨
            fork_child h pid errno = Return pid errno'.
Proof.
  unfold fork_child, DoSnapshotKeyTransfer, sys.
  repeat first [ case_match | case_bool_decide ];
    eexists; first [ left; reflexivity | right; reflexivity ].
Qed.

(** X1. With a snapshot requested, the call returns a positive value only in
    the parent, only after the child's confirmation arrived in full, and
    the value is then the child's pid. *)
Theorem fork_returns_pid_only_when_confirmed (h : Host)
    (errno value errno' : Z) :
  ocall_enc_untrusted_fork h true errno = Return value errno' →
  0 < value →
  fork_answer h = SysOk value ∧
  ∃ n avail,
    select_answer h 5 0 = SysOk n ∧ 0 < n ∧
    read_answer h = ReadData avail ∧
    (0 < length avail < 64)%nat ∧
    c_string avail = str_data "Child fork succeeded".
Proof.
  unfold ocall_enc_untrusted_fork. cbn [negb].
  destruct (manager_ok h); cbn [negb];
    [ | intros Hret; injection Hret as <- _; intros Hpos; lia ].
  destruct (take_snapshot_ok h); cbn [negb];
    [ | intros Hret; injection Hret as <- _; intros Hpos; lia ].
  destruct (has_sgx_load_config h); cbn [negb];
    [ | intros Hret; injection Hret as <- _; intros Hpos; lia ].
  destruct (sys (socketpair_answer h) errno) as [rc0 errno0].
  case_bool_decide;
    [ intros Hret; injection Hret as <- _; intros Hpos; lia | ].
  destruct (sys (pipe_answer h) errno0) as [rc1 errno1].
  case_bool_decide;
    [ intros Hret; injection Hret as <- _; intros Hpos; lia | ].
  destruct (fork_answer h) as [pid | err] eqn:Hfork; cbn [sys].
  - case_bool_decide as Hfailed;
      [ intros Hret; injection Hret as <- _; intros Hpos; lia | ].
    case_bool_decide as Hchild.
    + (* the child returns -1 or its own pid, 0 *)
      subst pid. intros Hret Hpos. exfalso.
      destruct (fork_child_returns h 0 errno1) as [e [Hc | Hc]];
        rewrite Hc in Hret; injection Hret as Hv _; lia.
    + intros Hret Hpos.
      assert (value ≠ -1) as Hne by lia.
      destruct (fork_parent_confirmed h pid errno1 value errno' Hret Hne)
        as [-> Hconfirmed].
      split; [reflexivity | exact Hconfirmed].
  - rewrite bool_decide_eq_true_2 by reflexivity.
    intros Hret; injection Hret as <- _; intros Hpos; lia.
Qed.

Lemma fork_returns_pid_only_when_confirmed_witness :
  fork_answer (host_with_message (str_data "Child fork succeeded"))
    = SysOk 4242 ∧
  c_string (str_data "Child fork succeeded")
    = str_data "Child fork succeeded".
Proof.
  assert (ocall_enc_untrusted_fork
            (host_with_message (str_data "Child fork succeeded")) true 0
          = Return 4242 0) as Hrun by (vm_compute; reflexivity).
  assert (0 < 4242) as Hpos by lia.
  destruct (fork_returns_pid_only_when_confirmed _ _ _ _ Hrun Hpos)
    as (Hpid & n & avail & _ & _ & Hread & _ & Hmessage).
  split; [exact Hpid | ].
  injection Hread as <-. exact Hmessage.
Defined.

(** After a read of fewer than 64 bytes the terminator is stored inside the
    array, and the array then holds the C string of the bytes read. *)
Lemma terminated_buffer (avail buf : list ascii) :
  length buf = sizeof_buf → (length avail < 64)%nat →
  ∃ buf',
    store (take sizeof_buf avail ++ drop (length (take sizeof_buf avail)) buf)
          (length (take sizeof_buf avail)) NUL = Some buf' ∧
    c_string buf' = c_string avail.
Proof.
  unfold sizeof_buf. intros Hbuf Hlen.
  rewrite (take_ge avail 64) by lia.
  unfold store. rewrite length_app, length_drop, Hbuf.
  destruct (decide (length avail < length avail + (64 - length avail))%nat)
    as [_ | Hge]; [ | lia ].
  eexists. split; [reflexivity | ].
  rewrite insert_app_r_alt by lia. rewrite Nat.sub_diag.
  destruct (drop (length avail) buf) as [|c rest] eqn:Hdrop.
  { exfalso. apply (f_equal length) in Hdrop. rewrite length_drop in Hdrop.
    cbn [length] in Hdrop. lia. }
  cbn [list_insert]. apply c_string_app_NUL.
Qed.

Lemma fork_reaches_parent (h : Host) (pid errno : Z) :
  reaches_wait h pid →
  ocall_enc_untrusted_fork h true errno =
    let '(wait_result, errno1) := sys (select_answer h 5 0) errno in
    if bool_decide (wait_result < 0) then Return (-1) errno1
    else if bool_decide (wait_result = 0) then Return (-1) EFAULT
    else
      let buf := resize sizeof_buf NUL (stack_garbage h) in
      let '(rc, buf, errno2) := read (read_answer h) buf sizeof_buf errno1 in
      if bool_decide (rc <= 0) then Return (-1) errno2
      else
        match store buf (Z.to_nat rc) NUL with
        | None => OutOfBoundsStore (Z.to_nat rc) (length buf)
        | Some buf =>
            if bool_decide
                 (strncmp buf (c_str "Child fork succeeded") sizeof_buf ≠ 0)
            then Return (-1) errno2
            else Return pid errno2
        end.
Proof.
  intros (Hmanager & Hsnapshot & Hconfig & (v1 & Hsocket & Hv1)
          & (v2 & Hpipe & Hv2) & Hfork & Hpid & (v3 & Hclose & Hv3)
          & (v4 & Hpeer & Hv4) & Hkey).
  unfold ocall_enc_untrusted_fork, fork_parent, DoSnapshotKeyTransfer.
  rewrite Hmanager, Hsnapshot, Hconfig, Hsocket, Hpipe, Hfork, Hclose, Hpeer,
    Hkey.
  cbn [negb sys].
  rewrite (bool_decide_eq_false_2 (v1 < 0)) by lia.
  rewrite (bool_decide_eq_false_2 (v2 < 0)) by lia.
  rewrite (bool_decide_eq_false_2 (pid = -1)) by lia.
  rewrite (bool_decide_eq_false_2 (pid = 0)) by lia.
  rewrite (bool_decide_eq_false_2 (v3 < 0)) by lia.
  rewrite (bool_decide_eq_false_2 (v4 < 0)) by lia.
  reflexivity.
Qed.

(** X2. What the caller gets for each way the parent's wait can fail, when
    everything before the wait succeeded: always -1 for a read of fewer
    than 64 bytes, with [errno] assigned by [select], by [read] or (on a
    timeout) by the function, but left as it was on entry for an empty read
    and for a message other than the confirmation; a read of 64 bytes ends
    in the out-of-bounds store. *)
Theorem fork_wait_failure_shapes (h : Host) (pid errno : Z) :
  reaches_wait h pid →
  let result := ocall_enc_untrusted_fork h true errno in
  (∀ err, select_answer h 5 0 = SysErr err → result = Return (-1) err) ∧
  (select_answer h 5 0 = SysOk 0 → result = Return (-1) EFAULT) ∧
  (∀ n err, select_answer h 5 0 = SysOk n → 0 < n →
     read_answer h = ReadErr err → result = Return (-1) err) ∧
  (∀ n, select_answer h 5 0 = SysOk n → 0 < n →
     read_answer h = ReadData [] → result = Return (-1) errno) ∧
  (∀ n avail, select_answer h 5 0 = SysOk n → 0 < n →
     read_answer h = ReadData avail → (0 < length avail < 64)%nat →
     c_string avail ≠ str_data "Child fork succeeded" →
     result = Return (-1) errno) ∧
  (∀ n avail, select_answer h 5 0 = SysOk n → 0 < n →
     read_answer h = ReadData avail → (64 <= length avail)%nat →
     result = OutOfBoundsStore 64 64).
Proof.
  intros Hreach. cbv zeta. rewrite (fork_reaches_parent h pid errno Hreach).
  repeat split.
  - intros err ->. reflexivity.
  - intros ->. reflexivity.
  - intros n err -> Hn ->. cbn [sys read].
    rewrite (bool_decide_eq_false_2 (n < 0)) by lia.
    rewrite (bool_decide_eq_false_2 (n = 0)) by lia.
    reflexivity.
  - intros n -> Hn ->. cbn [sys].
    rewrite (bool_decide_eq_false_2 (n < 0)) by lia.
    rewrite (bool_decide_eq_false_2 (n = 0)) by lia.
    reflexivity.
  - intros n avail -> Hn -> Hlen Hother. cbn [sys read].
    rewrite (bool_decide_eq_false_2 (n < 0)) by lia.
    rewrite (bool_decide_eq_false_2 (n = 0)) by lia.
    cbv zeta.
    assert (length (take sizeof_buf avail) = length avail) as Hgot
      by (unfold sizeof_buf; rewrite length_take; lia).
    rewrite (bool_decide_eq_false_2 (Z.of_nat _ <= 0)) by lia.
    rewrite Nat2Z.id.
    destruct (terminated_buffer avail
                (resize sizeof_buf NUL (stack_garbage h)))
      as (buf' & -> & Hstring);
      [apply length_resize | lia | ].
    rewrite bool_decide_eq_true_2; [reflexivity | ].
    intros Hcmp.
    apply (strncmp_zero_iff _ (str_data "Child fork succeeded") sizeof_buf)
      in Hcmp; [ | exact confirmation_has_no_NUL | vm_compute; lia ].
    apply Hother. rewrite <- Hstring. exact Hcmp.
  - intros n avail -> Hn -> Hlen. cbn [sys read].
    rewrite (bool_decide_eq_false_2 (n < 0)) by lia.
    rewrite (bool_decide_eq_false_2 (n = 0)) by lia.
    cbv zeta.
    assert (length (take sizeof_buf avail) = 64%nat) as Hgot
      by (unfold sizeof_buf; rewrite length_take; lia).
    rewrite (bool_decide_eq_false_2 (Z.of_nat _ <= 0)) by lia.
    rewrite Nat2Z.id. unfold store.
    rewrite length_app, length_drop, length_resize, Hgot.
    reflexivity.
Qed.

Lemma fork_wait_failure_shapes_witness :
  ocall_enc_untrusted_fork (host_with (SysOk 0) (ReadData [])) true 0
    = Return (-1) EFAULT ∧
  ocall_enc_untrusted_fork
    (host_with_message (str_data "Child DoSnapshotKeyTransfer failed")) true 7
    = Return (-1) 7.
Proof.
  assert (∀ selected arrived, reaches_wait (host_with selected arrived) 4242)
    as Hreach.
  { intros selected arrived. unfold reaches_wait, host_with. simpl.
    repeat split; try (exists 0; split; [reflexivity | lia]); lia. }
  split.
  - destruct (fork_wait_failure_shapes _ 4242 0
                (Hreach (SysOk 0) (ReadData [])))
      as (_ & Htimeout & _).
    apply Htimeout. reflexivity.
  - destruct (fork_wait_failure_shapes _ 4242 7
                (Hreach (SysOk 1)
                   (ReadData (str_data "Child DoSnapshotKeyTransfer failed"))))
      as (_ & _ & _ & _ & Hother & _).
    apply (Hother 1 (str_data "Child DoSnapshotKeyTransfer failed"));
      [reflexivity | lia | reflexivity | vm_compute; lia | ].
    vm_compute. discriminate.
Defined.

End ForkProofs.

(** ** Keys *)

Module KeysProofs.
Import Keys.

Lemma CreateFromProto_wrong_key_type {K : Type} `{KeyParsers K}
    (expected : KeyType) (p : AsymmetricSigningKeyProto) :
  wrong_key_type expected p →
  CreateFromProto expected p = inl wrong_key_type_error.
Proof.
  intros Hwrong. unfold CreateFromProto.
  rewrite bool_decide_eq_true_2; [reflexivity | exact Hwrong].
Qed.

Lemma CreateFromProto_right_key_type {K : Type} `{KeyParsers K}
    (expected : KeyType) (p : AsymmetricSigningKeyProto) :
  ¬ wrong_key_type expected p →
  CreateFromProto expected p =
    if bool_decide (signature_scheme p = UNKNOWN_SIGNATURE_SCHEME)
    then inl unknown_scheme_error
    else match encoding p with
         | UNKNOWN_ASYMMETRIC_KEY_ENCODING => inl unknown_encoding_error
         | ASYMMETRIC_KEY_DER =>
             match CreateFromDer (key p) with
             | Some k => inr k
             | None => inl mismatched_encoding_error
             end
         | ASYMMETRIC_KEY_PEM =>
             match CreateFromPem (key p) with
             | Some k => inr k
             | None => inl mismatched_encoding_error
             end
         end.
Proof.
  intros Hright. unfold CreateFromProto.
  rewrite bool_decide_eq_false_2; [reflexivity | exact Hright].
Qed.

(** C6, as the claim states it: the four failure tests do not get four
    different error kinds, for verifying keys and for signing keys alike;
    the first two kinds are both INVALID_ARGUMENT. *)
Lemma CreateFromProto_error_kinds_not_distinct :
  ¬ NoDup (failure_kinds VERIFYING_KEY) ∧ ¬ NoDup (failure_kinds SIGNING_KEY).
Proof.
  split; intros Hdistinct; vm_compute in Hdistinct;
    apply NoDup_cons in Hdistinct as [Hfresh _];
    apply Hfresh; apply elem_of_cons; left; reflexivity.
Qed.

(** C6, amended. [CreateFromProto], for signing and for verifying keys,
    rejects a proto exactly when it has one of four malformed shapes, and
    uses three error kinds for them: a key_type tag of the opposite kind
    and an unknown signature scheme both yield INVALID_ARGUMENT; with those
    two fields right, an unrecognised encoding yields UNIMPLEMENTED and key
    bytes that do not decode under the tagged encoding yield INTERNAL. *)
Theorem CreateFromProto_rejections {K : Type} `{KeyParsers K}
    (expected : KeyType) (p : AsymmetricSigningKeyProto) :
  (error_kind (CreateFromProto expected p) ≠ None ↔
     wrong_key_type expected p ∨ unknown_scheme p ∨ unknown_encoding p ∨
     mismatched_encoding p) ∧
  (unknown_scheme p →
     error_kind (CreateFromProto expected p) = Some INVALID_ARGUMENT) ∧
  (wrong_key_type expected p →
     error_kind (CreateFromProto expected p) = Some INVALID_ARGUMENT) ∧
  (¬ wrong_key_type expected p → ¬ unknown_scheme p → unknown_encoding p →
     error_kind (CreateFromProto expected p) = Some UNIMPLEMENTED) ∧
  (¬ wrong_key_type expected p → ¬ unknown_scheme p →
   mismatched_encoding p →
     error_kind (CreateFromProto expected p) = Some INTERNAL) ∧
  (∀ kind, error_kind (CreateFromProto expected p) = Some kind →
     kind ∈ [INVALID_ARGUMENT; UNIMPLEMENTED; INTERNAL]).
Proof.
  unfold unknown_scheme, unknown_encoding, mismatched_encoding.
  destruct (decide (wrong_key_type expected p)) as [Hwrong | Hright].
  - rewrite (CreateFromProto_wrong_key_type _ _ Hwrong). simpl.
    split; [split; [intros _; left; exact Hwrong | intros _; discriminate] | ].
    split; [intros _; reflexivity | ].
    split; [intros _; reflexivity | ].
    split; [intros Hno; contradiction | ].
    split; [intros Hno; contradiction | ].
    intros kind Hkind. injection Hkind as <-. apply elem_of_cons. left.
    reflexivity.
  - rewrite (CreateFromProto_right_key_type _ _ Hright).
    case_bool_decide as Hscheme.
    + simpl.
      split; [split; [intros _; right; left; exact Hscheme
                     | intros _; discriminate] | ].
      split; [intros _; reflexivity | ].
      split; [intros Hyes; contradiction | ].
      split; [intros _ Hno; contradiction | ].
      split; [intros _ Hno; contradiction | ].
      intros kind Hkind. injection Hkind as <-. apply elem_of_cons. left.
      reflexivity.
    + destruct (encoding p) eqn:Hencoding.
      * simpl.
        split; [split; [intros _; right; right; left; reflexivity
                       | intros _; discriminate] | ].
        split; [intros Hyes; contradiction | ].
        split; [intros Hyes; contradiction | ].
        split; [intros _ _ _; reflexivity | ].
        split.
        { intros _ _ [[Henc _] | [Henc _]]; discriminate Henc. }
        intros kind Hkind. injection Hkind as <-.
        apply elem_of_cons. right. apply elem_of_cons. left. reflexivity.
      * destruct (CreateFromDer (key p)) as [k|] eqn:Hder; simpl.
        -- split.
           { split; [intros Hno; contradiction | ].
             intros [Hw | [Hs | [He | [[_ Hd] | [He _]]]]];
               first [ contradiction | discriminate ]. }
           split; [intros Hyes; contradiction | ].
           split; [intros Hyes; contradiction | ].
           split; [intros _ _ He; discriminate He | ].
           split.
           { intros _ _ [[_ Hd] | [He _]]; discriminate. }
           intros kind Hkind. discriminate Hkind.
        -- split.
           { split; [ | intros _; discriminate].
             intros _. right. right. right. left. split; reflexivity. }
           split; [intros Hyes; contradiction | ].
           split; [intros Hyes; contradiction | ].
           split; [intros _ _ He; discriminate He | ].
           split; [intros _ _ _; reflexivity | ].
           intros kind Hkind. injection Hkind as <-.
           apply elem_of_cons. right. apply elem_of_cons. right.
           apply elem_of_cons. left. reflexivity.
      * destruct (CreateFromPem (key p)) as [k|] eqn:Hpem; simpl.
        -- split.
           { split; [intros Hno; contradiction | ].
             intros [Hw | [Hs | [He | [[He _] | [_ Hd]]]]];
               first [ contradiction | discriminate ]. }
           split; [intros Hyes; contradiction | ].
           split; [intros Hyes; contradiction | ].
           split; [intros _ _ He; discriminate He | ].
           split.
           { intros _ _ [[He _] | [_ Hd]]; discriminate. }
           intros kind Hkind. discriminate Hkind.
        -- split.
           { split; [ | intros _; discriminate].
             intros _. right. right. right. right. split; reflexivity. }
           split; [intros Hyes; contradiction | ].
           split; [intros Hyes; contradiction | ].
           split; [intros _ _ He; discriminate He | ].
           split; [intros _ _ _; reflexivity | ].
           intros kind Hkind. injection Hkind as <-.
           apply elem_of_cons. right. apply elem_of_cons. right.
           apply elem_of_cons. left. reflexivity.
Qed.

Lemma CreateFromProto_rejections_witness :
  error_kind (CreateFromProto (K := string) SIGNING_KEY
                (with_encoding ASYMMETRIC_KEY_DER (pem_proto SIGNING_KEY)))
    = Some INTERNAL ∧
  error_kind (CreateFromProto (K := string) VERIFYING_KEY
                (with_encoding UNKNOWN_ASYMMETRIC_KEY_ENCODING
                   (pem_proto VERIFYING_KEY)))
    = Some UNIMPLEMENTED.
Proof.
  split.
  - destruct (CreateFromProto_rejections (K := string) SIGNING_KEY
                (with_encoding ASYMMETRIC_KEY_DER (pem_proto SIGNING_KEY)))
      as (_ & _ & _ & _ & Hinternal & _).
    apply Hinternal.
    + unfold wrong_key_type. simpl. intros Hne. apply Hne. reflexivity.
    + unfold unknown_scheme. simpl. discriminate.
    + left. split; reflexivity.
  - destruct (CreateFromProto_rejections (K := string) VERIFYING_KEY
                (with_encoding UNKNOWN_ASYMMETRIC_KEY_ENCODING
                   (pem_proto VERIFYING_KEY)))
      as (_ & _ & _ & Hunimplemented & _).
    apply Hunimplemented.
    + unfold wrong_key_type. simpl. intros Hne. apply Hne. reflexivity.
    + unfold unknown_scheme. simpl. discriminate.
    + reflexivity.
Defined.

Lemma order_byte_length_pos (order : Z) : (0 < order_byte_length order)%nat.
Proof.
  unfold order_byte_length.
  pose proof (Z.log2_nonneg order) as Hlog.
  assert (0 <= Z.log2 order / 8) by (apply Z.div_pos; lia).
  lia.
Qed.

Lemma p256_order_byte_length : order_byte_length p256_order = 32%nat.
Proof. vm_compute. reflexivity. Qed.

(** C7. For every verifying key and every structured signature whose
    scheme tag differs from the key's, whose ECDSA payload is absent, or
    whose R or S does not have the byte length the curve order implies
    (which covers a missing, a shorter and a longer value),
    [Verify(message, signature)] returns an INVALID_ARGUMENT error, and the
    result is the same whatever the cryptographic check would answer: the
    check is not consulted, and the result is not a verification
    failure. *)
Theorem Verify_rejects_malformed_signature {K : Type} `{VerifyingKey K}
    (check' : K → string → string → string → bool)
    (k : K) (message : string) (signature : Signature) :
  malformed k signature →
  (∃ text, Verify k message signature
           = Rejected (mkStatus INVALID_ARGUMENT text)) ∧
  Verify k message signature ≠ VerificationFailed ∧
  Verify k message signature =
    @Verify K {| GetSignatureScheme := GetSignatureScheme;
                 curve_order := curve_order;
                 ecdsa_verify := check' |} k message signature.
Proof.
  intros Hbad. unfold Verify, invalid_signature. simpl.
  case_bool_decide as Hscheme.
  { split; [eexists; reflexivity | split; [discriminate | reflexivity]]. }
  destruct (ecdsa_signature signature) as [ecdsa|] eqn:Hpayload.
  2: { split; [eexists; reflexivity | split; [discriminate | reflexivity]]. }
  destruct (bool_decide (String.length (r ecdsa) = 0%nat)
            || bool_decide (String.length (s ecdsa) = 0%nat)).
  { split; [eexists; reflexivity | split; [discriminate | reflexivity]]. }
  destruct (bool_decide (String.length (r ecdsa)
                         ≠ order_byte_length (curve_order k))
            || bool_decide (String.length (s ecdsa)
                            ≠ order_byte_length (curve_order k))) eqn:Hsize.
  { split; [eexists; reflexivity | split; [discriminate | reflexivity]]. }
  exfalso. apply orb_false_iff in Hsize as [Hr Hs].
  apply bool_decide_eq_false in Hr, Hs.
  destruct Hbad as [Hbad | [Hbad | (ecdsa' & Heq & [Hbad | Hbad])]].
  - apply Hbad, Hscheme.
  - congruence.
  - assert (ecdsa' = ecdsa) as -> by congruence. apply Hr, Hbad.
  - assert (ecdsa' = ecdsa) as -> by congruence. apply Hs, Hbad.
Qed.

Lemma Verify_rejects_malformed_signature_witness :
  Verify tt "message" short_r_signature
    = Rejected (mkStatus INVALID_ARGUMENT
                  "R and S must have the size of the curve order").
Proof.
  assert (malformed tt short_r_signature) as Hbad.
  { right. right. eexists. split; [reflexivity | ].
    left. vm_compute. discriminate. }
  destruct (Verify_rejects_malformed_signature (λ _ _ _ _, false) tt "message"
              short_r_signature Hbad) as ([text Htext] & _ & _).
  rewrite Htext. vm_compute in Htext. injection Htext as <-. reflexivity.
Defined.

(** A signature with none of the structural defects gets the verdict of
    the cryptographic check: a verification failure is reported only for
    well-formed signatures. *)
Lemma Verify_well_formed {K : Type} `{VerifyingKey K}
    (k : K) (message : string) (signature : Signature) :
  ¬ malformed k signature →
  ∃ ecdsa, ecdsa_signature signature = Some ecdsa ∧
    Verify k message signature =
      if ecdsa_verify k message (r ecdsa) (s ecdsa)
      then Verified else VerificationFailed.
Proof.
  intros Hgood. unfold Verify.
  case_bool_decide as Hscheme.
  { exfalso. apply Hgood. left. exact Hscheme. }
  destruct (ecdsa_signature signature) as [ecdsa|] eqn:Hpayload.
  2: { exfalso. apply Hgood. right. left. exact Hpayload. }
  exists ecdsa. split; [reflexivity | ].
  pose proof (order_byte_length_pos (curve_order k)) as Hpos.
  assert (String.length (r ecdsa) = order_byte_length (curve_order k)) as Hr.
  { destruct (decide (String.length (r ecdsa)
                      = order_byte_length (curve_order k))) as [Heq | Hne];
      [exact Heq | ].
    exfalso. apply Hgood. right. right. exists ecdsa.
    split; [exact Hpayload | left; exact Hne]. }
  assert (String.length (s ecdsa) = order_byte_length (curve_order k)) as Hs.
  { destruct (decide (String.length (s ecdsa)
                      = order_byte_length (curve_order k))) as [Heq | Hne];
      [exact Heq | ].
    exfalso. apply Hgood. right. right. exists ecdsa.
    split; [exact Hpayload | right; exact Hne]. }
  rewrite (bool_decide_eq_false_2 (String.length (r ecdsa) = 0%nat)) by lia.
  rewrite (bool_decide_eq_false_2 (String.length (s ecdsa) = 0%nat)) by lia.
  rewrite (bool_decide_eq_false_2 (String.length (r ecdsa) ≠ _))
    by (intros Hne; apply Hne, Hr).
  rewrite (bool_decide_eq_false_2 (String.length (s ecdsa) ≠ _))
    by (intros Hne; apply Hne, Hs).
  reflexivity.
Qed.

End KeysProofs.

(** ** Snapshot entry points and sequences of entries *)

Module SnapshotProofs.
Import Lifecycle Snapshot LifecycleProofs.

Ltac not_among :=
  let Hin := fresh "Hin" in
  intros Hin;
  repeat (apply elem_of_cons in Hin as [Hin | Hin]; [discriminate Hin | ]);
  apply elem_of_nil in Hin; exact Hin.

Lemma finalizations_extend (w w' : Enclave) (events : list Event) :
  trace w' = trace w ++ events →
  EvUserFinalize ∉ events →
  finalizations w' = finalizations w.
Proof.
  intros Htrace Hnot. unfold finalizations. rewrite Htrace, filter_app.
  rewrite length_app.
  assert (filter (λ e, e = EvUserFinalize) events = []) as ->.
  { clear Htrace. induction events as [|e events IH]; [reflexivity | ].
    rewrite filter_cons. destruct (decide (e = EvUserFinalize)) as [-> | _].
    - exfalso. apply Hnot. left.
    - apply IH. intros Hin. apply Hnot. right. exact Hin. }
  simpl. lia.
Qed.

Lemma not_succeeded_error (code : GoogleError) (message : string) :
  code ≠ OK → ¬ succeeded (Serialize (mkStatus code message)).
Proof.
  intros Hcode Hs. apply succeeded_Serialize in Hs.
  unfold ok in Hs. simpl in Hs. apply bool_decide_eq_true_1 in Hs.
  contradiction.
Qed.

Lemma not_succeeded_failure (status : Status) :
  ok status = false → ¬ succeeded (Serialize status).
Proof.
  intros Hfail Hs. apply succeeded_Serialize in Hs. congruence.
Qed.

(** *** One entry at a time *)

Lemma user_init_effect `{TrustedApplication} `{Platform}
    (name config : string) (output output_len : bool) (w : Enclave) :
  let '(r, w') := __asylo_user_init name config output output_len w in
  (w' = w ∧ ¬ succeeded r) ∨
  (enclave_state_ w = kUninitialized ∧
   (enclave_state_ w' = kUninitialized ∨ enclave_state_ w' = kRunning) ∧
   finalizations w' = finalizations w).
Proof.
  destruct (output && output_len) eqn:Hargs.
  - apply andb_true_iff in Hargs as [-> ->].
    destruct (ParseEnclaveConfig config) as [enclave_config|] eqn:Hparse.
    + destruct (decide (enclave_state_ w = kUninitialized)) as [Hstate | Hstate].
      * rewrite (user_init_from_uninitialized _ _ _ _ Hstate Hparse).
        pose proof (InitializeInternal_runs_user enclave_config
                      (with_name name (with_state kInternalInitializing w))
                      eq_refl) as (_ & _ & Htrace).
        destruct (InitializeInternal enclave_config _) as [status w2].
        simpl in Htrace. right. split; [exact Hstate | split].
        -- destruct (ok status); [right | left]; reflexivity.
        -- apply finalizations_extend with
             (events := [EvSetState kInternalInitializing;
                         EvInitLogging (log_directory enclave_config) name
                                       (vlog_level enclave_config);
                         EvInitializeEnclaveAssertionAuthorities;
                         EvSetState kUserInitializing;
                         EvUserInitialize;
                         EvSetState (if ok status then kRunning
                                     else kUninitialized)]).
           ++ simpl. rewrite Htrace, <- !app_assoc. reflexivity.
           ++ not_among.
      * unfold __asylo_user_init. simpl. rewrite Hparse.
        unfold mbind at 1, Comp_bind at 1.
        rewrite (VerifyAndSetState_mismatch _ _ _ Hstate). simpl.
        left. split; [reflexivity | ].
        apply not_succeeded_error. discriminate.
    + unfold __asylo_user_init. simpl. rewrite Hparse. left.
      split; [reflexivity | ]. apply not_succeeded_error. discriminate.
  - unfold __asylo_user_init. rewrite VerifyOutputArguments_ok, Hargs.
    left. split; [reflexivity | exact not_succeeded_ReturnOne].
Qed.

Lemma user_run_effect `{TrustedApplication} `{Platform}
    (input : string) (output output_len : bool) (w : Enclave) :
  let '(r, w') := __asylo_user_run input output output_len w in
  (w' = w ∧ ¬ succeeded r) ∨
  (enclave_state_ w = kRunning ∧ w' = with_event EvUserRun w).
Proof.
  unfold __asylo_user_run. rewrite VerifyOutputArguments_ok.
  destruct (output && output_len); simpl;
    [ | left; split; [reflexivity | exact not_succeeded_ReturnOne] ].
  destruct (ParseEnclaveInput input) as [enclave_input|]; simpl;
    [ | left; split; [reflexivity | apply not_succeeded_error; discriminate] ].
  unfold GetState. run_comp. case_bool_decide as Hstate; simpl.
  - left. split; [reflexivity | apply not_succeeded_error; discriminate].
  - right. split; [ | reflexivity].
    destruct (decide (enclave_state_ w = kRunning)); [assumption | contradiction].
Qed.

Lemma user_fini_effect `{TrustedApplication} `{Platform}
    (input : string) (output output_len : bool) (w : Enclave) :
  let '(r, w') := __asylo_user_fini input output output_len w in
  (w' = w ∧ ¬ succeeded r) ∨
  (enclave_state_ w = kRunning ∧ enclave_state_ w' = kFinalized ∧
   finalizations w' = S (finalizations w)).
Proof.
  unfold __asylo_user_fini. rewrite VerifyOutputArguments_ok.
  destruct (output && output_len); simpl;
    [ | left; split; [reflexivity | exact not_succeeded_ReturnOne] ].
  destruct (ParseEnclaveFinal input) as [enclave_final|]; simpl;
    [ | left; split; [reflexivity | apply not_succeeded_error; discriminate] ].
  unfold mbind at 1, Comp_bind at 1.
  destruct (decide (enclave_state_ w = kRunning)) as [Hstate | Hstate].
  - rewrite (VerifyAndSetState_match _ _ _ Hstate). simpl.
    unfold SetState. run_comp. right.
    split; [exact Hstate | split; [reflexivity | ]].
    unfold finalizations. simpl. rewrite <- !app_assoc. simpl.
    rewrite filter_app, length_app. simpl. lia.
  - rewrite (VerifyAndSetState_mismatch _ _ _ Hstate). simpl.
    left. split; [reflexivity | apply not_succeeded_error; discriminate].
Qed.

Lemma handle_signal_effect `{Platform} (input : string) (w : Enclave) :
  let '(rc, w') := __asylo_handle_signal input w in
  (w' = w ∧ rc ≠ 0) ∨
  ((enclave_state_ w = kRunning ∨ enclave_state_ w = kFinalizing) ∧
   ∃ signum code gregs, w' = with_event (EvHandleSignal signum code gregs) w).
Proof.
  unfold __asylo_handle_signal.
  destruct (ParseEnclaveSignal input) as [signal|];
    [ | left; split; [reflexivity | discriminate] ].
  unfold GetState. run_comp.
  destruct (bool_decide (_ < _) || bool_decide (_ > _)) eqn:Hwindow;
    [left; split; [reflexivity | discriminate] | ].
  apply orb_false_iff in Hwindow as [Hlow Hhigh].
  apply bool_decide_eq_false_1 in Hlow, Hhigh.
  case_bool_decide; [left; split; [reflexivity | discriminate] | ].
  case_bool_decide; simpl; [left; split; [reflexivity | discriminate] | ].
  assert (enclave_state_ w = kRunning ∨ enclave_state_ w = kFinalizing)
    as Hstate
    by (destruct (enclave_state_ w); simpl in Hlow, Hhigh;
        first [left; reflexivity | right; reflexivity | lia]).
  destruct (ok _); simpl; right; (split; [exact Hstate | ]);
    eexists _, _, _; reflexivity.
Qed.

Lemma take_snapshot_effect `{ForkRuntime} (output output_len : bool)
    (w : Enclave) :
  let '(r, w') := __asylo_take_snapshot output output_len w in
  w' = w ∧ (enclave_state_ w ≠ kRunning → ¬ succeeded r).
Proof.
  unfold __asylo_take_snapshot. rewrite VerifyOutputArguments_ok.
  destruct (output && output_len); simpl;
    [ | split; [reflexivity | intros _; exact not_succeeded_ReturnOne] ].
  unfold GetEnclaveConfig, GetState. run_comp.
  destruct (enclave_config w) as [config|]; simpl;
    [ | split; [reflexivity | intros _; apply not_succeeded_failure,
                                config_not_set_error] ].
  destruct (negb (has_enable_fork config) || negb (enable_fork config)); simpl;
    [split; [reflexivity | intros _; apply not_succeeded_error; discriminate] | ].
  case_bool_decide as Hstate; simpl.
  - split; [reflexivity | intros _; apply not_succeeded_error; discriminate].
  - split; [reflexivity | intros Hne; contradiction].
Qed.

Lemma transfer_key_effect `{ForkRuntime} (input : string)
    (output output_len : bool) (w : Enclave) :
  let '(r, w') :=
    __asylo_transfer_secure_snapshot_key input output output_len w in
  w' = w ∧ (enclave_state_ w ≠ kRunning → ¬ succeeded r).
Proof.
  unfold __asylo_transfer_secure_snapshot_key. rewrite VerifyOutputArguments_ok.
  destruct (output && output_len); simpl;
    [ | split; [reflexivity | intros _; exact not_succeeded_ReturnOne] ].
  destruct (ParseForkHandshakeConfig input) as [fork_handshake_config|]; simpl;
    [ | split; [reflexivity | intros _; apply not_succeeded_error; discriminate] ].
  unfold GetState. run_comp. case_bool_decide as Hstate; simpl.
  - split; [reflexivity | intros _; apply not_succeeded_error; discriminate].
  - split; [reflexivity | intros Hne; contradiction].
Qed.

Lemma restore_effect `{ForkRuntime} (snapshot_layout : string)
    (output output_len : bool) (w : Enclave) :
  let '(r, w') := __asylo_restore snapshot_layout output output_len w in
  (w' = w ∧ ¬ succeeded r) ∨
  (enclave_state_ w = kRunning ∧
   r = Serialize (RestoreForFork snapshot_layout w).1 ∧
   if ok (RestoreForFork snapshot_layout w).1 then
     w' = restored_enclave snapshot_layout w
   else
     w' = with_state kFinalized
            (with_event EvThreadManagerFinalize
               (restored_enclave snapshot_layout w))).
Proof.
  unfold __asylo_restore. rewrite VerifyOutputArguments_ok.
  destruct (output && output_len); simpl;
    [ | left; split; [reflexivity | exact not_succeeded_ReturnOne] ].
  unfold GetEnclaveConfig, GetState. run_comp.
  destruct (enclave_config w) as [config|]; simpl;
    [ | left; split; [reflexivity | apply not_succeeded_failure,
                                      config_not_set_error] ].
  destruct (negb (has_enable_fork config) || negb (enable_fork config)); simpl;
    [left; split; [reflexivity | apply not_succeeded_error; discriminate] | ].
  case_bool_decide as Hstate; simpl;
    [left; split; [reflexivity | apply not_succeeded_error; discriminate] | ].
  assert (enclave_state_ w = kRunning) as Hrunning
    by (destruct (decide (enclave_state_ w = kRunning));
        [assumption | contradiction]).
  unfold restored_enclave, restore_memory, SetState, modify.
  destruct (RestoreForFork snapshot_layout w) as [status restored]. simpl.
  destruct (ok status); simpl; right; (split; [exact Hrunning | ]);
    split; reflexivity.
Qed.

(** *** Any entry *)

Ltac enter_with lemma :=
  unfold enter, mbind, Comp_bind;
  let Heffect := fresh "Heffect" in
  pose proof lemma as Heffect;
  match type of Heffect with
  | (let '(_, _) := ?e in _) =>
      let r := fresh "r" in
      let w1 := fresh "w1" in
      destruct e as [r w1]
  end;
  unfold mret, Comp_ret.

Lemma enter_finalized `{TrustedApplication} `{Platform} `{ForkRuntime}
    (call : EntryCall) (w : Enclave) :
  enclave_state_ w = kFinalized →
  let '(r, w') := enter call w in w' = w ∧ rejected r.
Proof.
  intros Hstate. destruct call.
  - enter_with (user_init_effect name config output output_len w).
    destruct Heffect as [[-> Hr] | (Hw & _)]; [split; [reflexivity | exact Hr] | ].
    congruence.
  - enter_with (user_run_effect input output output_len w).
    destruct Heffect as [[-> Hr] | (Hw & _)]; [split; [reflexivity | exact Hr] | ].
    congruence.
  - enter_with (user_fini_effect input output output_len w).
    destruct Heffect as [[-> Hr] | (Hw & _)]; [split; [reflexivity | exact Hr] | ].
    congruence.
  - enter_with (handle_signal_effect input w).
    destruct Heffect as [[-> Hr] | ([Hw | Hw] & _)];
      [split; [reflexivity | exact Hr] | congruence | congruence].
  - enter_with (take_snapshot_effect output output_len w).
    destruct Heffect as [-> Hr]. split; [reflexivity | ].
    apply Hr. congruence.
  - enter_with (restore_effect snapshot_layout output output_len w).
    destruct Heffect as [[-> Hr] | (Hw & _)]; [split; [reflexivity | exact Hr] | ].
    congruence.
  - enter_with (transfer_key_effect input output output_len w).
    destruct Heffect as [-> Hr]. split; [reflexivity | ].
    apply Hr. congruence.
Qed.

Lemma restored_enclave_state `{ForkRuntime} (snapshot_layout : string)
    (w : Enclave) :
  enclave_state_ (restored_enclave snapshot_layout w) =
    enclave_state_ (RestoreForFork snapshot_layout w).2.
Proof.
  unfold restored_enclave, restore_memory.
  destruct (RestoreForFork snapshot_layout w); reflexivity.
Qed.

Lemma restored_enclave_trace `{ForkRuntime} (snapshot_layout : string)
    (w : Enclave) :
  trace (restored_enclave snapshot_layout w) = trace w.
Proof.
  unfold restored_enclave, restore_memory.
  destruct (RestoreForFork snapshot_layout w); reflexivity.
Qed.

Lemma enter_resting `{TrustedApplication} `{Platform} `{ForkRuntime}
    (call : EntryCall) (w : Enclave) :
  restores_running →
  resting (enclave_state_ w) →
  resting (enclave_state_ (enter call w).2) ∧
  State_value (enclave_state_ w) <= State_value (enclave_state_ (enter call w).2).
Proof.
  intros Hrestore Hrest.
  assert (resting (enclave_state_ w) ∧
          State_value (enclave_state_ w) <= State_value (enclave_state_ w))
    as Hsame by (split; [exact Hrest | lia]).
  destruct call.
  - enter_with (user_init_effect name config output output_len w). simpl.
    destruct Heffect as [[-> _] | (Hw & [Hw' | Hw'] & _)]; [exact Hsame | | ];
      rewrite Hw, Hw'; unfold resting; simpl; split; auto; lia.
  - enter_with (user_run_effect input output output_len w). simpl.
    destruct Heffect as [[-> _] | (_ & ->)]; exact Hsame.
  - enter_with (user_fini_effect input output output_len w). simpl.
    destruct Heffect as [[-> _] | (Hw & Hw' & _)]; [exact Hsame | ].
    rewrite Hw, Hw'. unfold resting. simpl. split; auto; lia.
  - enter_with (handle_signal_effect input w). simpl.
    destruct Heffect as [[-> _] | (_ & signum & code & gregs & ->)];
      exact Hsame.
  - enter_with (take_snapshot_effect output output_len w). simpl.
    destruct Heffect as [-> _]. exact Hsame.
  - enter_with (restore_effect snapshot_layout output output_len w). simpl.
    destruct Heffect as [[-> _] | (Hw & _ & Hw')]; [exact Hsame | ].
    destruct (ok (RestoreForFork snapshot_layout w).1) eqn:Hok; subst w1.
    + rewrite restored_enclave_state, (Hrestore _ _ Hok), Hw.
      unfold resting. split; auto; lia.
    + rewrite Hw. unfold resting. simpl. split; auto; lia.
  - enter_with (transfer_key_effect input output output_len w). simpl.
    destruct Heffect as [-> _]. exact Hsame.
Qed.

Lemma enter_finalizations `{TrustedApplication} `{Platform} `{ForkRuntime}
    (call : EntryCall) (w : Enclave) :
  finalizations (enter call w).2 = finalizations w ∨
  (finalizations (enter call w).2 = S (finalizations w) ∧
   enclave_state_ (enter call w).2 = kFinalized).
Proof.
  destruct call.
  - enter_with (user_init_effect name config output output_len w). simpl.
    destruct Heffect as [[-> _] | (_ & _ & ->)]; left; reflexivity.
  - enter_with (user_run_effect input output output_len w). simpl.
    destruct Heffect as [[-> _] | (_ & ->)]; left; [reflexivity | ].
    apply finalizations_extend with (events := [EvUserRun]);
      [reflexivity | not_among].
  - enter_with (user_fini_effect input output output_len w). simpl.
    destruct Heffect as [[-> _] | (_ & Hw' & ->)];
      [left; reflexivity | right; split; [reflexivity | exact Hw']].
  - enter_with (handle_signal_effect input w). simpl.
    destruct Heffect as [[-> _] | (_ & signum & code & gregs & ->)];
      left; [reflexivity | ].
    apply finalizations_extend with
      (events := [EvHandleSignal signum code gregs]);
      [reflexivity | not_among].
  - enter_with (take_snapshot_effect output output_len w). simpl.
    destruct Heffect as [-> _]. left. reflexivity.
  - enter_with (restore_effect snapshot_layout output output_len w). simpl.
    destruct Heffect as [[-> _] | (_ & _ & Hw')]; left; [reflexivity | ].
    destruct (ok (RestoreForFork snapshot_layout w).1); subst w1.
    + unfold finalizations. rewrite restored_enclave_trace. reflexivity.
    + apply finalizations_extend with
        (events := [EvThreadManagerFinalize; EvSetState kFinalized]);
        [ | not_among].
      simpl. rewrite restored_enclave_trace, <- app_assoc. reflexivity.
  - enter_with (transfer_key_effect input output output_len w). simpl.
    destruct Heffect as [-> _]. left. reflexivity.
Qed.

Lemma enter_all_cons `{TrustedApplication} `{Platform} `{ForkRuntime}
    (call : EntryCall) (rest : list EntryCall) (w : Enclave) :
  enter_all (call :: rest) w =
    ((enter call w).1 :: (enter_all rest (enter call w).2).1,
     (enter_all rest (enter call w).2).2).
Proof.
  cbn [enter_all]. unfold mbind at 1, Comp_bind at 1.
  destruct (enter call w) as [r w1]. cbn [fst snd].
  unfold mbind at 1, Comp_bind at 1.
  destruct (enter_all rest w1) as [rs w2]. reflexivity.
Qed.

Lemma enter_all_finalized `{TrustedApplication} `{Platform} `{ForkRuntime}
    (calls : list EntryCall) (w : Enclave) :
  enclave_state_ w = kFinalized → (enter_all calls w).2 = w.
Proof.
  intros Hstate. induction calls as [|call rest IH]; [reflexivity | ].
  rewrite enter_all_cons. cbn [snd].
  pose proof (enter_finalized call w Hstate) as Hone.
  destruct (enter call w) as [r w1]. destruct Hone as [-> _]. exact IH.
Qed.

Lemma enter_all_finalized_rejected `{TrustedApplication} `{Platform}
    `{ForkRuntime} (calls : list EntryCall) (w : Enclave) :
  enclave_state_ w = kFinalized → Forall rejected (enter_all calls w).1.
Proof.
  intros Hstate. induction calls as [|call rest IH]; [constructor | ].
  rewrite enter_all_cons. cbn [fst].
  pose proof (enter_finalized call w Hstate) as Hone.
  destruct (enter call w) as [r w1]. destruct Hone as [-> Hr].
  constructor; [exact Hr | exact IH].
Qed.

(** X5. A finalized enclave stays as it is: whatever sequence of entries
    the host makes, every one of them is refused and the enclave (its state,
    name, config, environment, I/O registrations and the record of what
    ran) is left unchanged. *)
Theorem finalized_enclave_is_inert `{TrustedApplication} `{Platform}
    `{ForkRuntime} (calls : list EntryCall) (w : Enclave) :
  enclave_state_ w = kFinalized →
  (enter_all calls w).2 = w ∧
  length (enter_all calls w).1 = length calls ∧
  Forall rejected (enter_all calls w).1.
Proof.
  intros Hstate. induction calls as [|call rest IH].
  - split; [reflexivity | split; [reflexivity | constructor]].
  - rewrite enter_all_cons.
    pose proof (enter_finalized call w Hstate) as Hone.
    destruct (enter call w) as [r w1]. destruct Hone as [-> Hr].
    cbn [fst snd]. destruct IH as (Hw & Hlen & Hall).
    split; [exact Hw | split].
    + simpl. rewrite Hlen. reflexivity.
    + constructor; [exact Hr | exact Hall].
Qed.

Lemma finalized_enclave_is_inert_witness :
  let calls := [CallUserInit "enclave" "good" true true;
                CallUserRun "work" true true;
                CallHandleSignal signal_10;
                CallRestore "snapshot" true true;
                CallUserFini "bye" true true] in
  (enter_all calls (in_state kFinalized)).2 = in_state kFinalized ∧
  length (enter_all calls (in_state kFinalized)).1 = length calls ∧
  Forall rejected (enter_all calls (in_state kFinalized)).1.
Proof.
  exact (finalized_enclave_is_inert _ (in_state kFinalized) eq_refl).
Defined.

(** X6. Between entries the enclave rests in kUninitialized, kRunning or
    kFinalized, and no sequence of entries moves it backwards: provided a
    successful [RestoreForFork] leaves a running enclave, every sequence of
    entries from a resting state ends in a resting state that is not
    earlier in the lifecycle. *)
Theorem entries_keep_resting_states `{TrustedApplication} `{Platform}
    `{ForkRuntime} (calls : list EntryCall) (w : Enclave) :
  restores_running →
  resting (enclave_state_ w) →
  resting (enclave_state_ (enter_all calls w).2) ∧
  State_value (enclave_state_ w)
    <= State_value (enclave_state_ (enter_all calls w).2).
Proof.
  intros Hrestore. revert w. induction calls as [|call rest IH]; intros w Hrest.
  - simpl. split; [exact Hrest | lia].
  - rewrite enter_all_cons. cbn [snd].
    destruct (enter_resting call w Hrestore Hrest) as [Hrest1 Hle1].
    destruct (IH _ Hrest1) as [Hrest2 Hle2].
    split; [exact Hrest2 | lia].
Qed.

Lemma entries_keep_resting_states_witness :
  let calls := [CallUserInit "enclave" "bad" true true;
                CallUserInit "enclave" "good" true true;
                CallUserRun "work" true true;
                CallHandleSignal signal_10;
                CallTakeSnapshot true true;
                CallRestore "snapshot" true true;
                CallRestore "torn" true true;
                CallUserRun "work" true true] in
  resting (enclave_state_ (enter_all calls fresh_enclave).2) ∧
  State_value (enclave_state_ fresh_enclave)
    <= State_value (enclave_state_ (enter_all calls fresh_enclave).2).
Proof.
  assert restores_running as Hrestore.
  { intros snapshot_layout w. simpl.
    destruct (bool_decide (snapshot_layout = "snapshot")); simpl;
      [reflexivity | discriminate]. }
  assert (resting (enclave_state_ fresh_enclave)) as Hrest
    by (left; reflexivity).
  exact (entries_keep_resting_states _ fresh_enclave Hrestore Hrest).
Defined.

(** X7. The user's [Finalize] runs at most once: over any sequence of
    entries, from any enclave, the number of its runs grows by at most one,
    and when it has grown the enclave is finalized. *)
Theorem user_finalize_runs_at_most_once `{TrustedApplication} `{Platform}
    `{ForkRuntime} (calls : list EntryCall) (w : Enclave) :
  finalizations (enter_all calls w).2 = finalizations w ∨
  (finalizations (enter_all calls w).2 = S (finalizations w) ∧
   enclave_state_ (enter_all calls w).2 = kFinalized).
Proof.
  revert w. induction calls as [|call rest IH]; intros w.
  - left. reflexivity.
  - rewrite enter_all_cons. cbn [snd].
    destruct (enter_finalizations call w) as [Hsame | [Hmore Hfinal]].
    + rewrite <- Hsame. apply IH.
    + right.
      rewrite (enter_all_finalized rest _ Hfinal).
      split; [exact Hmore | exact Hfinal].
Qed.

(** X8. A restore that fails retires the enclave. When [__asylo_restore]
    gets as far as [RestoreForFork] (valid output arguments, a stored
    config with fork enabled, state kRunning) and [RestoreForFork] fails,
    the entry reports that failure, finalizes the thread manager and sets
    the state to kFinalized; from then on every entry is refused and
    changes nothing. *)
Theorem failed_restore_retires_enclave `{TrustedApplication} `{Platform}
    `{ForkRuntime} (snapshot_layout : string) (config : EnclaveConfig)
    (w : Enclave) :
  enclave_config w = Some config →
  has_enable_fork config = true →
  enable_fork config = true →
  enclave_state_ w = kRunning →
  ok (RestoreForFork snapshot_layout w).1 = false →
  let '(r, w') := __asylo_restore snapshot_layout true true w in
  r = Serialize (RestoreForFork snapshot_layout w).1 ∧
  ¬ succeeded r ∧
  enclave_state_ w' = kFinalized ∧
  trace w' = trace w ++ [EvThreadManagerFinalize; EvSetState kFinalized] ∧
  ∀ calls,
    (enter_all calls w').2 = w' ∧ Forall rejected (enter_all calls w').1.
Proof.
  intros Hconfig Hhas Henabled Hstate Hfails.
  unfold __asylo_restore. simpl. unfold GetEnclaveConfig, GetState. run_comp.
  rewrite Hconfig. simpl. rewrite Hhas, Henabled. simpl.
  rewrite bool_decide_eq_false_2 by (intros Hne; apply Hne, Hstate).
  pose proof (restored_enclave_trace snapshot_layout w) as Htrace.
  unfold restored_enclave in Htrace. unfold SetState, modify.
  destruct (restore_memory snapshot_layout w) as [status restored] eqn:Hrun.
  assert (status = (RestoreForFork snapshot_layout w).1) as Hstatus.
  { unfold restore_memory in Hrun.
    destruct (RestoreForFork snapshot_layout w); simpl.
    injection Hrun as <- _. reflexivity. }
  simpl in Htrace. rewrite <- Hstatus in *. rewrite Hfails. simpl.
  split; [reflexivity | split; [ | split; [reflexivity | split]]].
  - apply not_succeeded_failure, Hfails.
  - rewrite Htrace, <- app_assoc. reflexivity.
  - intros calls. split.
    + apply enter_all_finalized. reflexivity.
    + apply enter_all_finalized_rejected. reflexivity.
Qed.

Lemma failed_restore_retires_enclave_witness :
  let w := with_config (demo_config 0) (in_state kRunning) in
  let '(r, w') := __asylo_restore "torn" true true w in
  r = Serialize (mkStatus INTERNAL "cannot restore") ∧
  enclave_state_ w' = kFinalized ∧
  (enter_all [CallUserRun "work" true true] w').2 = w'.
Proof.
  pose proof (failed_restore_retires_enclave "torn" (demo_config 0)
                (with_config (demo_config 0) (in_state kRunning))
                eq_refl eq_refl eq_refl eq_refl eq_refl) as Hretired.
  cbv zeta.
  destruct (__asylo_restore "torn" true true _) as [r w'].
  destruct Hretired as (Hr & _ & Hstate & _ & Hinert).
  split; [exact Hr | split; [exact Hstate | ]].
  apply Hinert.
Defined.

End SnapshotProofs.

(** ** Initialization: environment, I/O and registers *)

Module InitializationProofs.
Import Lifecycle Initialization LifecycleProofs.

Lemma setenv_keeps (name value : string) (env : gmap string string)
    (n v : string) :
  env !! n = Some v → setenv name value 0 env !! n = Some v.
Proof.
  intros Hn. unfold setenv. destruct (env !! name) as [old|] eqn:Hname.
  - rewrite bool_decide_eq_true_2 by reflexivity. exact Hn.
  - rewrite lookup_insert_ne; [exact Hn | ]. intros ->. congruence.
Qed.

Lemma setenv_defines (name value : string) (env : gmap string string) :
  is_Some (setenv name value 0 env !! name).
Proof.
  unfold setenv. destruct (env !! name) as [old|] eqn:Hname.
  - rewrite bool_decide_eq_true_2 by reflexivity. rewrite Hname. eauto.
  - rewrite lookup_insert_eq. eauto.
Qed.

Lemma setenv_origin (name value : string) (env : gmap string string)
    (n v : string) :
  setenv name value 0 env !! n = Some v →
  env !! n = Some v ∨ (n = name ∧ v = value ∧ env !! name = None).
Proof.
  unfold setenv. destruct (env !! name) as [old|] eqn:Hname.
  - rewrite bool_decide_eq_true_2 by reflexivity. intros Hn. left. exact Hn.
  - destruct (decide (n = name)) as [-> | Hne].
    + rewrite lookup_insert_eq. intros [= <-]. right. auto.
    + rewrite lookup_insert_ne by congruence. intros Hn. left. exact Hn.
Qed.

(** One round of the loop on a variable with both fields. *)
Lemma InitializeEnvironmentVariables_cons
    (variable : EnvironmentVariable) (rest : list EnvironmentVariable)
    (name value : string) (w : Enclave) :
  ev_name variable = Some name →
  ev_value variable = Some value →
  InitializeEnvironmentVariables (variable :: rest) w =
    InitializeEnvironmentVariables rest
      (with_environ (setenv name value 0 (environ w)) w).
Proof.
  intros Hname Hvalue. cbn [InitializeEnvironmentVariables].
  rewrite Hname, Hvalue. reflexivity.
Qed.

Lemma InitializeEnvironmentVariables_malformed
    (variable : EnvironmentVariable) (rest : list EnvironmentVariable)
    (w : Enclave) :
  ¬ well_formed variable →
  InitializeEnvironmentVariables (variable :: rest) w =
    (mkStatus INVALID_ARGUMENT
       "Environment variables should set both name and value fields", w).
Proof.
  intros Hbad. cbn [InitializeEnvironmentVariables].
  destruct (ev_name variable) as [name|] eqn:Hname;
    [destruct (ev_value variable) as [value|] eqn:Hvalue | ];
    try reflexivity.
  exfalso. apply Hbad. unfold well_formed. rewrite Hname, Hvalue. eauto.
Qed.

Lemma environment_keeps (variables : list EnvironmentVariable) (w : Enclave)
    (n v : string) :
  environ w !! n = Some v →
  environ (InitializeEnvironmentVariables variables w).2 !! n = Some v.
Proof.
  revert w. induction variables as [|variable rest IH]; intros w Hn.
  - exact Hn.
  - destruct (decide (well_formed variable))
      as [[[name Hname] [value Hvalue]] | Hbad].
    + rewrite (InitializeEnvironmentVariables_cons _ _ _ _ _ Hname Hvalue).
      apply IH. simpl. apply setenv_keeps, Hn.
    + rewrite (InitializeEnvironmentVariables_malformed _ _ _ Hbad). exact Hn.
Qed.

(** The loop reads and writes the environment only. *)
Lemma environment_only (variables : list EnvironmentVariable)
    (w1 w2 : Enclave) :
  environ w1 = environ w2 →
  (InitializeEnvironmentVariables variables w1).1 =
    (InitializeEnvironmentVariables variables w2).1 ∧
  environ (InitializeEnvironmentVariables variables w1).2 =
    environ (InitializeEnvironmentVariables variables w2).2.
Proof.
  revert w1 w2. induction variables as [|variable rest IH]; intros w1 w2 Henv.
  - split; [reflexivity | exact Henv].
  - destruct (decide (well_formed variable))
      as [[[name Hname] [value Hvalue]] | Hbad].
    + rewrite !(InitializeEnvironmentVariables_cons _ _ _ _ _ Hname Hvalue).
      apply IH. simpl. rewrite Henv. reflexivity.
    + rewrite !(InitializeEnvironmentVariables_malformed _ _ _ Hbad).
      split; [reflexivity | exact Henv].
Qed.

(** X9. [InitializeEnvironmentVariables] never overwrites and touches
    nothing but the environment: whatever the config lists, a variable that
    is already set keeps its value, and every other field of the enclave is
    left as it was. *)
Theorem environment_variables_never_overwritten
    (variables : list EnvironmentVariable) (w : Enclave) :
  let w' := (InitializeEnvironmentVariables variables w).2 in
  w' = with_environ (environ w') w ∧
  ∀ n v, environ w !! n = Some v → environ w' !! n = Some v.
Proof.
  cbv zeta. split.
  - destruct (InitializeEnvironmentVariables_frame variables w) as [env ->].
    reflexivity.
  - intros n v. apply environment_keeps.
Qed.

(** X10. [InitializeEnvironmentVariables] stops at the first variable that
    lacks a name or a value: it returns INVALID_ARGUMENT, and the
    environment is the one that processing the variables before it alone
    gives, so these stay set and the ones after it are never looked at. It
    returns the ok status exactly when no variable lacks a field. *)
Theorem environment_variables_stop_at_first_malformed
    (variables : list EnvironmentVariable) (w : Enclave) :
  (∀ good bad rest,
     variables = good ++ bad :: rest →
     Forall well_formed good → ¬ well_formed bad →
     (InitializeEnvironmentVariables good w).1 = OkStatus ∧
     InitializeEnvironmentVariables variables w =
       (mkStatus INVALID_ARGUMENT
          "Environment variables should set both name and value fields",
        (InitializeEnvironmentVariables good w).2)) ∧
  (Forall well_formed variables ↔
   (InitializeEnvironmentVariables variables w).1 = OkStatus).
Proof.
  split.
  - intros good bad rest -> Hgood Hbad. revert w.
    induction Hgood as [|variable good [[name Hname] [value Hvalue]] _ IH];
      intros w.
    + simpl app. rewrite (InitializeEnvironmentVariables_malformed _ _ _ Hbad).
      split; reflexivity.
    + rewrite <- app_comm_cons.
      rewrite !(InitializeEnvironmentVariables_cons _ _ _ _ _ Hname Hvalue).
      apply IH.
  - revert w. induction variables as [|variable rest IH]; intros w.
    + split; [reflexivity | constructor].
    + destruct (decide (well_formed variable))
        as [Hgood | Hbad].
      * pose proof Hgood as [[name Hname] [value Hvalue]].
        rewrite (InitializeEnvironmentVariables_cons _ _ _ _ _ Hname Hvalue).
        rewrite <- IH. split.
        -- intros Hall. apply Forall_cons in Hall as [_ Hall]. exact Hall.
        -- intros Hall. constructor; [exact Hgood | exact Hall].
      * rewrite (InitializeEnvironmentVariables_malformed _ _ _ Hbad). simpl.
        split.
        -- intros Hall. apply Forall_cons in Hall as [Hgood _]. contradiction.
        -- intros Heq. discriminate Heq.
Qed.

(** X11. Of the values a config lists, the first one for a name wins. For
    variables whose names and values [setenv] stores as given (a non-empty
    name without ['='], no NUL in either): a variable found afterwards was
    set before or is listed with that value; a listed value is the one found
    afterwards when the name was unset, no variable before it lacks a field
    and none before it has the same name; and if no variable lacks a field
    every listed name is defined afterwards. *)
Theorem environment_variables_first_value_wins
    (variables : list EnvironmentVariable) (w : Enclave) :
  Forall setenv_accepts variables →
  let w' := (InitializeEnvironmentVariables variables w).2 in
  (∀ n v, environ w' !! n = Some v →
     environ w !! n = Some v ∨
     ∃ variable, variable ∈ variables ∧
       ev_name variable = Some n ∧ ev_value variable = Some v) ∧
  (∀ i variable n v,
     variables !! i = Some variable →
     ev_name variable = Some n → ev_value variable = Some v →
     Forall well_formed (take i variables) →
     Forall (λ earlier, ev_name earlier ≠ Some n) (take i variables) →
     environ w !! n = None →
     environ w' !! n = Some v) ∧
  (Forall well_formed variables →
   ∀ variable n, variable ∈ variables → ev_name variable = Some n →
     is_Some (environ w' !! n)).
Proof.
  intros _. cbv zeta. revert w.
  induction variables as [|variable rest IH]; intros w.
  - simpl. split; [auto | split].
    + intros i variable n v Hi. rewrite lookup_nil in Hi. discriminate Hi.
    + intros _ variable n Hin. apply elem_of_nil in Hin. contradiction.
  - destruct (decide (well_formed variable))
      as [[[name Hname] [value Hvalue]] | Hbad].
    + rewrite (InitializeEnvironmentVariables_cons _ _ _ _ _ Hname Hvalue).
      pose proof (environment_keeps rest
                    (with_environ (setenv name value 0 (environ w)) w))
        as Hkeep.
      specialize (IH (with_environ (setenv name value 0 (environ w)) w)).
      destruct IH as (Horigin & Hfirst & Hdefined).
      split; [ | split].
      * intros n v Hn. apply Horigin in Hn as [Hn | (var & Hin & Hvn & Hvv)].
        -- simpl in Hn. apply setenv_origin in Hn as [Hn | (-> & -> & _)].
           ++ left. exact Hn.
           ++ right. exists variable. split; [left | auto].
        -- right. exists var. split; [right; exact Hin | auto].
      * intros i var n v Hi Hvn Hvv Hgood Hfresh Hunset.
        destruct i as [|i].
        -- simpl in Hi. injection Hi as <-.
           assert (name = n) as -> by congruence.
           assert (value = v) as -> by congruence.
           apply Hkeep. simpl. unfold setenv. rewrite Hunset.
           apply lookup_insert_eq.
        -- simpl in Hi, Hgood, Hfresh.
           apply Forall_cons in Hgood as [_ Hgood].
           apply Forall_cons in Hfresh as [Hne Hfresh].
           apply (Hfirst i var n v Hi Hvn Hvv Hgood Hfresh).
           simpl. unfold setenv.
           destruct (environ w !! name) as [old|] eqn:Hold.
           ++ rewrite bool_decide_eq_true_2 by reflexivity. exact Hunset.
           ++ rewrite lookup_insert_ne; [exact Hunset | ].
              intros ->. apply Hne. exact Hname.
      * intros Hall var n Hin Hvn.
        apply Forall_cons in Hall as [_ Hall].
        apply elem_of_cons in Hin as [-> | Hin].
        -- assert (n = name) as -> by congruence.
           destruct (setenv_defines name value (environ w)) as [v Hv].
           exists v. apply Hkeep. exact Hv.
        -- apply (Hdefined Hall var n Hin Hvn).
    + rewrite (InitializeEnvironmentVariables_malformed _ _ _ Hbad). simpl.
      split; [auto | split].
      * intros i var n v Hi Hvn Hvv Hgood Hfresh Hunset. exfalso.
        destruct i as [|i].
        -- simpl in Hi. injection Hi as <-. apply Hbad. unfold well_formed.
           rewrite Hvn, Hvv. eauto.
        -- simpl in Hgood. apply Forall_cons in Hgood as [Hgood _].
           contradiction.
      * intros Hall. apply Forall_cons in Hall as [Hgood _]. contradiction.
Qed.

Lemma environment_variables_first_value_wins_witness :
  let variables :=
    [ {| ev_name := Some "HOME"; ev_value := Some "/" |};
      {| ev_name := Some "HOME"; ev_value := Some "/root" |} ] in
  environ (InitializeEnvironmentVariables variables fresh_enclave).2 !! "HOME"
    = Some "/".
Proof.
  cbv zeta.
  assert (Forall setenv_accepts
            [ {| ev_name := Some "HOME"; ev_value := Some "/" |};
              {| ev_name := Some "HOME"; ev_value := Some "/root" |} ])
    as Haccepts.
  { apply Forall_cons; split;
      [ | apply Forall_cons; split; [ | apply Forall_nil] ];
      (split; simpl; intros text [= <-];
       unfold setenv_name, c_text; simpl;
       repeat split; try discriminate;
       intros Hin;
       repeat (apply elem_of_cons in Hin as [Hin | Hin];
               [discriminate Hin | ]);
       apply elem_of_nil in Hin; exact Hin). }
  pose proof (environment_variables_first_value_wins _ fresh_enclave Haccepts)
    as (_ & Hfirst & _).
  apply (Hfirst 0%nat {| ev_name := Some "HOME"; ev_value := Some "/" |}
           "HOME" "/" eq_refl eq_refl eq_refl).
  - constructor.
  - constructor.
  - apply lookup_empty.
Defined.

(** *** The register copy of [__asylo_handle_signal] *)

Lemma to_greg_t_range (x : Z) : is_greg_t (to_greg_t x).
Proof.
  unfold is_greg_t, to_greg_t.
  pose proof (Z.mod_pos_bound (x + 2 ^ 63) (2 ^ 64) ltac:(lia)). lia.
Qed.

Lemma to_greg_t_id (x : Z) : is_greg_t x → to_greg_t x = x.
Proof.
  unfold is_greg_t, to_greg_t. intros Hx.
  rewrite Z.mod_small by lia. lia.
Qed.

Lemma take_min_length {A : Type} (n : nat) (l : list A) :
  take (Nat.min n (length l)) l = take n l.
Proof.
  destruct (decide (n ≤ length l)%nat) as [Hle | Hgt].
  - rewrite Nat.min_l by exact Hle. reflexivity.
  - rewrite Nat.min_r by lia. rewrite !take_ge by lia. reflexivity.
Qed.

(** X12. The register copy stays inside both arrays and inside [greg_t]:
    [__asylo_handle_signal] fills exactly the first min(NGREG, gregs_size())
    slots, slot [i] with the 64-bit two's-complement reading of register [i]
    of the message (congruent to it modulo 2^64, and equal to it when the
    message value is in range); registers of the message from index NGREG on
    are dropped. *)
Theorem copy_gregs_bounds `{Platform} (gregs : list Z) :
  length (copy_gregs gregs) = Nat.min NGREG (length gregs) ∧
  Forall is_greg_t (copy_gregs gregs) ∧
  (∀ i, copy_gregs gregs !! i =
        if decide (i < NGREG)%nat then to_greg_t <$> gregs !! i else None) ∧
  (∀ i x g, copy_gregs gregs !! i = Some x → gregs !! i = Some g →
            (x - g) mod 2 ^ 64 = 0) ∧
  (Forall is_greg_t gregs → copy_gregs gregs = take NGREG gregs).
Proof.
  unfold copy_gregs. rewrite take_min_length.
  split; [ | split; [ | split; [ | split]]].
  - rewrite length_fmap, length_take. reflexivity.
  - apply Forall_fmap, Forall_forall. intros x _. apply to_greg_t_range.
  - intros i. rewrite list_lookup_fmap. destruct (decide (i < NGREG)%nat).
    + rewrite lookup_take_lt by assumption. reflexivity.
    + rewrite lookup_take_ge by lia. reflexivity.
  - intros i x g Hx Hg. rewrite list_lookup_fmap in Hx.
    destruct (decide (i < NGREG)%nat).
    + rewrite lookup_take_lt, Hg in Hx by assumption. simpl in Hx.
      injection Hx as <-. unfold to_greg_t.
      replace ((g + 2 ^ 63) mod 2 ^ 64 - 2 ^ 63 - g)
        with (- (2 ^ 64 * ((g + 2 ^ 63) / 2 ^ 64)))
        by (pose proof (Z.div_mod (g + 2 ^ 63) (2 ^ 64) ltac:(lia)); lia).
      rewrite Z.mod_opp_l_z by lia || (rewrite Z.mul_comm; apply Z.mod_mul; lia).
      reflexivity.
    + rewrite lookup_take_ge in Hx by lia. discriminate Hx.
  - intros Hrange.
    assert (Forall is_greg_t (take NGREG gregs)) as Htaken
      by (apply Forall_take; exact Hrange).
    induction Htaken as [|x rest Hx _ IH]; [reflexivity | ].
    rewrite fmap_cons, IH, (to_greg_t_id _ Hx). reflexivity.
Qed.

(** *** What initialization leaves behind *)

Lemma InitializeIO_registers (config : EnclaveConfig) (w : Enclave) :
  InitializeIO config w =
    (tt, with_io
           {| host_fds := host_fds (io_manager w) ++ stdio_fds config;
              path_handlers :=
                path_handlers (io_manager w)
                  ++ [EmptyString; "/dev/random"; "/dev/urandom"];
              io_cwd := current_working_directory config |} w).
Proof.
  unfold InitializeIO, register_if_open, stdio_fds. run_comp.
  rewrite !filter_cons, filter_nil.
  repeat case_bool_decide;
    repeat first [ rewrite decide_True by assumption
                 | rewrite decide_False by assumption ];
    unfold SetCurrentWorkingDirectory, RegisterVirtualPathHandler,
      RegisterHostFileDescriptor; simpl;
    rewrite <- ?app_assoc, ?app_nil_r; reflexivity.
Qed.

(** The fields [InitializeInternal] leaves, whether or not it gets to the
    user's [Initialize]. *)
Lemma InitializeInternal_fields `{TrustedApplication}
    (config : EnclaveConfig) (w : Enclave) :
  ∃ status w',
    InitializeInternal config w = (status, w') ∧
    enclave_name w' = enclave_name w ∧
    enclave_config w' = Some config ∧
    io_manager w' =
      {| host_fds := host_fds (io_manager w) ++ stdio_fds config;
         path_handlers :=
           path_handlers (io_manager w)
             ++ [EmptyString; "/dev/random"; "/dev/urandom"];
         io_cwd := current_working_directory config |} ∧
    environ w' =
      environ (InitializeEnvironmentVariables
                 (environment_variables config) w).2 ∧
    signal_mask w' = signal_mask w.
Proof.
  unfold InitializeInternal.
  unfold mbind at 1, Comp_bind at 1. rewrite InitializeIO_registers.
  unfold mbind at 1, Comp_bind at 1.
  match goal with
  | |- context [InitializeEnvironmentVariables ?vars ?w0] =>
      pose proof (environment_only vars w0 w eq_refl) as [_ Henv];
      destruct (InitializeEnvironmentVariables_frame vars w0) as [env Hframe];
      destruct (InitializeEnvironmentVariables vars w0) as [status0 w0']
  end.
  simpl in Hframe, Henv. subst w0'. simpl in Henv. rewrite <- Henv.
  unfold mbind, Comp_bind, mret, Comp_ret, get_enclave, emit,
    SetEnclaveConfig.
  unfold modify.
  match goal with
  | |- context [VerifyAndSetState ?e ?n ?w1] =>
      destruct (decide (enclave_state_ w1 = e)) as [Hstate | Hstate];
      [ rewrite (VerifyAndSetState_match e n w1 Hstate)
      | rewrite (VerifyAndSetState_mismatch e n w1 Hstate) ]
  end; simpl; eexists _, _; (split; [reflexivity | ]); simpl;
    repeat split; reflexivity.
Qed.

(** The same for a call of the entry point that gets past its checks. *)
Lemma user_init_fields `{TrustedApplication} `{Platform}
    (name config : string) (enclave_config0 : EnclaveConfig) (w : Enclave) :
  enclave_state_ w = kUninitialized →
  ParseEnclaveConfig config = Some enclave_config0 →
  let '(r, w') := __asylo_user_init name config true true w in
  r = Serialize (Initialize enclave_config0) ∧
  enclave_state_ w' =
    (if ok (Initialize enclave_config0) then kRunning else kUninitialized) ∧
  enclave_name w' = name ∧
  enclave_config w' = Some enclave_config0 ∧
  io_manager w' =
    {| host_fds := host_fds (io_manager w) ++ stdio_fds enclave_config0;
       path_handlers :=
         path_handlers (io_manager w)
           ++ [EmptyString; "/dev/random"; "/dev/urandom"];
       io_cwd := current_working_directory enclave_config0 |} ∧
  environ w' =
    environ (InitializeEnvironmentVariables
               (environment_variables enclave_config0) w).2 ∧
  signal_mask w' = signal_mask w.
Proof.
  intros Hstate Hparse.
  rewrite (user_init_from_uninitialized _ _ _ _ Hstate Hparse).
  pose proof (InitializeInternal_runs_user enclave_config0
                (with_name name (with_state kInternalInitializing w))
                eq_refl) as (Hstatus & _).
  destruct (InitializeInternal_fields enclave_config0
              (with_name name (with_state kInternalInitializing w)))
    as (status & w2 & Hrun & Hname & Hconfig & Hio & Henv & Hmask).
  pose proof (environment_only (environment_variables enclave_config0)
                (with_name name (with_state kInternalInitializing w)) w
                eq_refl) as [_ Honly].
  rewrite Hrun in Hstatus |- *. simpl in Hstatus. subst status.
  split; [reflexivity | ].
  split; [destruct (ok (Initialize enclave_config0)); reflexivity | ].
  simpl. rewrite Hname, Hconfig, Hio, Henv, Hmask, Honly.
  repeat split; reflexivity.
Qed.

(** X13. A failed initialization is not rolled back. When the user's
    [Initialize] fails, [__asylo_user_init] resets the state to
    kUninitialized and nothing else: the enclave keeps the name and the
    config of the failed call, the environment variables it set, the
    working directory, and the standard descriptors and path handlers handed
    to the I/O manager. A retry therefore hands the I/O manager the
    descriptors of both calls. *)
Theorem failed_initialization_is_not_rolled_back `{TrustedApplication}
    `{Platform} (name config : string) (enclave_config0 : EnclaveConfig)
    (w : Enclave) :
  enclave_state_ w = kUninitialized →
  ParseEnclaveConfig config = Some enclave_config0 →
  ok (Initialize enclave_config0) = false →
  let '(r, w') := __asylo_user_init name config true true w in
  r = Serialize (Initialize enclave_config0) ∧
  enclave_state_ w' = kUninitialized ∧
  enclave_name w' = name ∧
  enclave_config w' = Some enclave_config0 ∧
  host_fds (io_manager w') =
    host_fds (io_manager w) ++ stdio_fds enclave_config0 ∧
  path_handlers (io_manager w') =
    path_handlers (io_manager w)
      ++ [EmptyString; "/dev/random"; "/dev/urandom"] ∧
  io_cwd (io_manager w') = current_working_directory enclave_config0 ∧
  environ w' =
    environ (InitializeEnvironmentVariables
               (environment_variables enclave_config0) w).2 ∧
  ∀ name' config' enclave_config',
    ParseEnclaveConfig config' = Some enclave_config' →
    host_fds (io_manager (__asylo_user_init name' config' true true w').2) =
      host_fds (io_manager w) ++ stdio_fds enclave_config0
        ++ stdio_fds enclave_config'.
Proof.
  intros Hstate Hparse Hfails.
  pose proof (user_init_fields name config enclave_config0 w Hstate Hparse)
    as Hfirst.
  destruct (__asylo_user_init name config true true w) as [r w'].
  destruct Hfirst as (Hr & Hstate' & Hname & Hconfig & Hio & Henv & _).
  rewrite Hfails in Hstate'.
  split; [exact Hr | split; [exact Hstate' | split; [exact Hname | ]]].
  split; [exact Hconfig | ]. rewrite Hio. simpl.
  split; [reflexivity | split; [reflexivity | split; [reflexivity | ]]].
  split; [exact Henv | ].
  intros name' config' enclave_config' Hparse'.
  pose proof (user_init_fields name' config' enclave_config' w' Hstate'
                Hparse') as Hsecond.
  destruct (__asylo_user_init name' config' true true w') as [r' w''].
  destruct Hsecond as (_ & _ & _ & _ & Hio' & _).
  simpl. rewrite Hio', Hio. simpl. rewrite <- app_assoc. reflexivity.
Qed.

Lemma failed_initialization_is_not_rolled_back_witness :
  let '(r, w') := __asylo_user_init "enclave" "bad" true true fresh_enclave in
  enclave_state_ w' = kUninitialized ∧
  enclave_name w' = "enclave" ∧
  host_fds (io_manager w') = [0; 1; 2] ∧
  host_fds (io_manager (__asylo_user_init "enclave" "good" true true w').2)
    = [0; 1; 2; 0; 1; 2].
Proof.
  assert (ParseEnclaveConfig "bad" = Some (demo_config (-1))) as Hbad
    by reflexivity.
  assert (ParseEnclaveConfig "good" = Some (demo_config 0)) as Hgood
    by reflexivity.
  assert (ok (Initialize (demo_config (-1))) = false) as Hfails
    by (vm_compute; reflexivity).
  pose proof (failed_initialization_is_not_rolled_back "enclave" "bad"
                (demo_config (-1)) fresh_enclave eq_refl Hbad Hfails)
    as Hkept.
  destruct (__asylo_user_init "enclave" "bad" true true fresh_enclave)
    as [r w'].
  destruct Hkept as (_ & Hstate & Hname & _ & Hfds & _ & _ & _ & Hretry).
  split; [exact Hstate | split; [exact Hname | split; [exact Hfds | ]]].
  exact (Hretry "enclave" "good" (demo_config 0) Hgood).
Defined.

End InitializationProofs.

(** ** The child's side of the fork ocall *)

Module ForkChildProofs.
Import Fork ForkChild.

Lemma not_answered_error (err : Z) : ¬ answered (SysErr err).
Proof. intros (value & Heq & _). discriminate Heq. Qed.

Lemma not_answered_negative (value : Z) : value < 0 → ¬ answered (SysOk value).
Proof. intros Hneg (value' & Heq & Hpos). injection Heq as <-. lia. Qed.

Lemma answered_ok (value : Z) : ¬ value < 0 → answered (SysOk value).
Proof. intros Hpos. exists value. split; [reflexivity | lia]. Qed.

Ltac child_fails :=
  split;
    [ split;
        [ intros (H1 & H2 & H3 & H4 & H5 & H6 & H7);
          first [contradiction | congruence]
        | intros Hreturn; discriminate Hreturn ]
    | ];
  split; [intros _; eexists; reflexivity | ];
  repeat split;
    first [ intros; reflexivity
          | intros; first [contradiction | congruence] ].

Ltac report_fails :=
  match goal with
  | |- context [match write_answer ?h ?m with SysOk _ => _ | SysErr _ => _ end] =>
      let written := fresh "written" in
      let Hwritten := fresh "Hwritten" in
      destruct (write_answer h m) as [written | ?]; cbn beta iota zeta;
      [ destruct_decide (@bool_decide_reflect (written < 0) _) as Hwritten
      | rewrite bool_decide_eq_true_2 by lia ];
      child_fails
  end.

(** X14. In the child ([fork] returned 0) the snapshot path of
    [ocall_enc_untrusted_fork] returns 0 exactly when every step succeeded,
    the write of the confirmation to the pipe included, and [errno] is then
    as on entry; in every other case it returns -1. Failing to close the
    pipe gives EFAULT, failing to load the enclave ENOMEM, a different base
    address EAGAIN. *)
Theorem fork_child_succeeds_iff (h : Host) (errno : Z) :
  (child_succeeds h ↔ fork_child h 0 errno = Return 0 errno) ∧
  (¬ child_succeeds h → ∃ errno', fork_child h 0 errno = Return (-1) errno') ∧
  (¬ answered (close_pipe_answer h) →
     fork_child h 0 errno = Return (-1) EFAULT) ∧
  (answered (close_pipe_answer h) → load_enclave_ok h = false →
     fork_child h 0 errno = Return (-1) ENOMEM) ∧
  (answered (close_pipe_answer h) → load_enclave_ok h = true →
   same_base_address h = false →
     fork_child h 0 errno = Return (-1) EAGAIN).
Proof.
  unfold child_succeeds, fork_child, DoSnapshotKeyTransfer, sys.
  destruct (close_pipe_answer h) as [closed | err]; cbn beta iota zeta.
  2:{ rewrite bool_decide_eq_true_2 by lia.
      pose proof (not_answered_error err) as Hno. child_fails. }
  destruct_decide (@bool_decide_reflect (closed < 0) _) as Hclosed.
  { pose proof (not_answered_negative closed Hclosed) as Hno. child_fails. }
  pose proof (answered_ok closed Hclosed) as Hyes.
  destruct (load_enclave_ok h); cbn [negb]; [ | child_fails].
  destruct (same_base_address h); cbn [negb]; [ | child_fails].
  destruct (close_peer_answer h) as [peer | err]; cbn beta iota zeta.
  2:{ rewrite bool_decide_eq_true_2 by lia. cbn [negb].
      pose proof (not_answered_error err) as Hno.
      report_fails. }
  destruct_decide (@bool_decide_reflect (peer < 0) _) as Hpeer; cbn [negb].
  { pose proof (not_answered_negative peer Hpeer) as Hno.
    report_fails. }
  pose proof (answered_ok peer Hpeer) as Hpeer_ok.
  destruct (transfer_key_ok h); cbn [negb].
  2:{ report_fails. }
  destruct (enter_and_restore_ok h); cbn [negb].
  2:{ report_fails. }
  destruct (write_answer h (str_data "Child fork succeeded"))
    as [written | err']; cbn beta iota zeta.
  2:{ rewrite bool_decide_eq_true_2 by lia.
      pose proof (not_answered_error err') as Hno. child_fails. }
  destruct_decide (@bool_decide_reflect (written < 0) _) as Hwritten.
  { pose proof (not_answered_negative written Hwritten) as Hno. child_fails. }
  pose proof (answered_ok written Hwritten) as Hwritten_ok.
  split; [split; [reflexivity | intros _; repeat split; assumption] | ].
  split.
  - intros Hno. exfalso. apply Hno. repeat split; assumption.
  - repeat split; intros; first [contradiction | congruence].
Qed.

End ForkChildProofs.

(** ** Signal handlers on the host *)

Module SignalsProofs.
Import Signals.

Lemma SA_SIGINFO_set (flags : Z) : Z.testbit (Z.lor flags SA_SIGINFO) 2 = true.
Proof. rewrite Z.lor_spec. apply orb_true_r. Qed.

(** What a registration that returns from a valid signal and an existing
    manager has done. *)
Lemma registration_returned `{Bridge} (bridge_signum : Z)
    (handler : option BridgeSignalHandler) (name : string)
    (host : SignalHost) (errno rc errno' : Z) (host' : SignalHost) :
  ocall_enc_untrusted_register_signal_handler bridge_signum handler name
    host errno = Returned rc errno' host' →
  0 <= FromBridgeSignal bridge_signum →
  manager_ok host = true →
  ∃ client h,
    clients host !! name = Some client ∧ handler = Some h ∧
    manager_ok host' = true ∧ clients host' = clients host ∧
    tcs_active host' = tcs_active host ∧
    sigaction_error host' = sigaction_error host ∧
    dispatcher host' =
      <[FromBridgeSignal bridge_signum := client]> (dispatcher host) ∧
    handle_signal_inside_enclave host' =
      match bridge_sigaction h with
      | Some fn => Some fn
      | None => handle_signal_inside_enclave host
      end ∧
    match sigaction_error host (FromBridgeSignal bridge_signum) with
    | Some err =>
        rc = -1 ∧ errno' = err ∧ dispositions host' = dispositions host
    | None =>
        rc = 0 ∧ errno' = errno ∧
        dispositions host' =
          <[FromBridgeSignal bridge_signum :=
              {| sa_sigaction :=
                   match bridge_sigaction h with
                   | Some _ => AddressOfHandleSignalInSim
                   | None => AddressOfEnterEnclaveAndHandleSignal
                   end;
                 sa_mask := FromBridgeSigSet (bridge_mask h);
                 sa_flags :=
                   Z.lor (FromBridgeSignalFlags (bridge_flags h))
                         SA_SIGINFO |}]>
            (dispositions host)
    end.
Proof.
  unfold ocall_enc_untrusted_register_signal_handler.
  intros Hreturn Hvalid Hmanager.
  rewrite bool_decide_eq_false_2 in Hreturn by lia.
  rewrite Hmanager in Hreturn. cbn [negb] in Hreturn.
  destruct (clients host !! name) as [client|]; [ | discriminate Hreturn].
  destruct handler as [[[fn|] mask flags]|]; cbn beta iota zeta in Hreturn;
    [ | | discriminate Hreturn ];
    unfold sigaction in Hreturn; cbn [sigaction_error with_inside_handler
      with_dispatcher] in Hreturn;
    (destruct (sigaction_error host (FromBridgeSignal bridge_signum))
       as [err|]);
    injection Hreturn as <- <- <-;
    eexists client, _; (split; [reflexivity | ]); (split; [reflexivity | ]);
    cbn; repeat split; first [reflexivity | exact Hmanager].
Qed.

(** X15. [ocall_enc_untrusted_register_signal_handler]: an invalid bridge
    signal gives -1 with EINVAL and a missing manager -1 with [errno] as it
    was, both without touching the host. Past these checks a null handler
    (or an enclave name without client) never returns: the call reads
    through the null pointer. When it returns, the enclave's client is
    recorded for the signal and a handler with a function has replaced the
    pointer to the function inside the enclave, whether or not the kernel
    then accepted the disposition; an accepted disposition always carries
    SA_SIGINFO and selects the simulation-mode handler exactly when the
    bridge handler has a function. *)
Theorem register_signal_handler_contract `{Bridge} (bridge_signum : Z)
    (handler : option BridgeSignalHandler) (name : string)
    (host : SignalHost) (errno : Z) :
  let signum := FromBridgeSignal bridge_signum in
  let result :=
    ocall_enc_untrusted_register_signal_handler bridge_signum handler name
      host errno in
  (signum < 0 → result = Returned (-1) EINVAL host) ∧
  (0 <= signum → manager_ok host = false →
     result = Returned (-1) errno host) ∧
  (0 <= signum → manager_ok host = true →
   handler = None ∨ clients host !! name = None →
     ∃ host', result = NullDereference host') ∧
  (0 <= signum → manager_ok host = true →
   ∀ rc errno' host', result = Returned rc errno' host' →
     ∃ client h,
       clients host !! name = Some client ∧ handler = Some h ∧
       dispatcher host' !! signum = Some client ∧
       handle_signal_inside_enclave host' =
         match bridge_sigaction h with
         | Some fn => Some fn
         | None => handle_signal_inside_enclave host
         end ∧
       match sigaction_error host signum with
       | Some err =>
           rc = -1 ∧ errno' = err ∧ dispositions host' = dispositions host
       | None =>
           rc = 0 ∧ errno' = errno ∧
           ∃ act, dispositions host' !! signum = Some act ∧
             Z.testbit (sa_flags act) 2 = true ∧
             sa_mask act = FromBridgeSigSet (bridge_mask h) ∧
             (sa_sigaction act = AddressOfHandleSignalInSim ↔
              is_Some (bridge_sigaction h))
       end).
Proof.
  cbv zeta. split; [ | split; [ | split]].
  - intros Hinvalid. unfold ocall_enc_untrusted_register_signal_handler.
    rewrite bool_decide_eq_true_2 by exact Hinvalid. reflexivity.
  - intros Hvalid Hmanager.
    unfold ocall_enc_untrusted_register_signal_handler.
    rewrite bool_decide_eq_false_2 by lia. rewrite Hmanager. reflexivity.
  - intros Hvalid Hmanager Hnull.
    unfold ocall_enc_untrusted_register_signal_handler.
    rewrite bool_decide_eq_false_2 by lia. rewrite Hmanager. cbn [negb].
    destruct (clients host !! name) as [client|];
      [ | eexists; reflexivity ].
    destruct Hnull as [-> | Hnone]; [ | discriminate Hnone].
    eexists. reflexivity.
  - intros Hvalid Hmanager rc errno' host' Hreturn.
    destruct (registration_returned _ _ _ _ _ _ _ _ Hreturn Hvalid Hmanager)
      as (client & h & Hclient & Hhandler & _ & _ & _ & _ & Hdispatcher
          & Hinside & Hkernel).
    exists client, h.
    split; [exact Hclient | split; [exact Hhandler | split]].
    { rewrite Hdispatcher. apply lookup_insert_eq. }
    split; [exact Hinside | ].
    destruct (sigaction_error host (FromBridgeSignal bridge_signum))
      as [err|]; [exact Hkernel | ].
    destruct Hkernel as (Hrc & Herrno & Hinstalled).
    split; [exact Hrc | split; [exact Herrno | ]].
    eexists. rewrite Hinstalled. split; [apply lookup_insert_eq | ].
    cbn. split; [apply SA_SIGINFO_set | split; [reflexivity | ]].
    destruct (bridge_sigaction h) as [fn|]; split.
    + intros _. eauto.
    + intros _. reflexivity.
    + intros Heq. discriminate Heq.
    + intros [fn Hfn]. discriminate Hfn.
Qed.

(** X16. There is one pointer to the function inside the enclave for all
    signals and all enclaves. After two returning registrations whose
    handlers both carry a function, the first one for a signal the kernel
    let it install and the second for a different signal, the first signal
    still has the simulation-mode handler and the first enclave's client,
    but with an active TCS its delivery calls the function of the second
    registration. *)
Theorem inside_handler_is_shared `{Bridge}
    (bridge_signum1 bridge_signum2 fn1 fn2 : Z)
    (handler1 handler2 : BridgeSignalHandler) (name1 name2 : string)
    (host host1 host2 : SignalHost) (errno errno1 errno2 rc2 : Z) :
  let signum1 := FromBridgeSignal bridge_signum1 in
  let signum2 := FromBridgeSignal bridge_signum2 in
  bridge_sigaction handler1 = Some fn1 →
  bridge_sigaction handler2 = Some fn2 →
  ocall_enc_untrusted_register_signal_handler bridge_signum1 (Some handler1)
    name1 host errno = Returned 0 errno1 host1 →
  ocall_enc_untrusted_register_signal_handler bridge_signum2 (Some handler2)
    name2 host1 errno1 = Returned rc2 errno2 host2 →
  0 <= signum1 → 0 <= signum2 → signum1 ≠ signum2 →
  manager_ok host = true →
  ∃ client1,
    clients host !! name1 = Some client1 ∧
    dispatcher host2 !! signum1 = Some client1 ∧
    handle_signal_inside_enclave host2 = Some fn2 ∧
    deliver host2 signum1 = Some (HandleSignalInSim host2 signum1) ∧
    (tcs_active host client1 = true → 0 <= ToBridgeSignal signum1 →
     HandleSignalInSim host2 signum1 =
       CalledInsideEnclave fn2 (ToBridgeSignal signum1)).
Proof.
  cbv zeta.
  intros Hfn1 Hfn2 Hfirst Hsecond Hvalid1 Hvalid2 Hdistinct Hmanager.
  destruct (registration_returned _ _ _ _ _ _ _ _ Hfirst Hvalid1 Hmanager)
    as (client1 & h1 & Hclient1 & [= <-] & Hmanager1 & Hclients1 & Htcs1
        & Herror1 & Hdispatcher1 & _ & Hkernel1).
  destruct (registration_returned _ _ _ _ _ _ _ _ Hsecond Hvalid2 Hmanager1)
    as (client2 & h2 & Hclient2 & [= <-] & _ & _ & Htcs2 & _ & Hdispatcher2
        & Hinside2 & Hkernel2).
  rewrite Hfn2 in Hinside2.
  assert (dispatcher host2 !! FromBridgeSignal bridge_signum1 = Some client1)
    as Hlookup.
  { rewrite Hdispatcher2, lookup_insert_ne by congruence.
    rewrite Hdispatcher1. apply lookup_insert_eq. }
  assert (∃ act, dispositions host1 !! FromBridgeSignal bridge_signum1
                   = Some act ∧
                 sa_sigaction act = AddressOfHandleSignalInSim)
    as (act & Hact & Hsim).
  { destruct (sigaction_error host (FromBridgeSignal bridge_signum1))
      as [err|].
    - destruct Hkernel1 as (Hrc & _). discriminate Hrc.
    - destruct Hkernel1 as (_ & _ & ->). eexists.
      split; [apply lookup_insert_eq | ]. cbn. rewrite Hfn1. reflexivity. }
  assert (dispositions host2 !! FromBridgeSignal bridge_signum1 = Some act)
    as Hact2.
  { rewrite Herror1 in Hkernel2.
    destruct (sigaction_error host (FromBridgeSignal bridge_signum2))
      as [err|].
    - destruct Hkernel2 as (_ & _ & ->). exact Hact.
    - destruct Hkernel2 as (_ & _ & ->).
      rewrite lookup_insert_ne by congruence. exact Hact. }
  exists client1.
  split; [exact Hclient1 | split; [exact Hlookup | split; [exact Hinside2 | ]]].
  split.
  - unfold deliver. rewrite Hact2, Hsim. reflexivity.
  - intros Hactive Hbridge. unfold HandleSignalInSim. rewrite Hlookup.
    rewrite Htcs2, Htcs1, Hactive.
    unfold TranslateToBridgeAndHandleSignal.
    rewrite bool_decide_eq_false_2 by lia. rewrite Hinside2. reflexivity.
Qed.

Lemma inside_handler_is_shared_witness :
  handle_signal_inside_enclave after_first_registration = Some 111 ∧
  HandleSignalInSim after_second_registration 10 = CalledInsideEnclave 222 10.
Proof.
  split; [reflexivity | ].
  assert (ocall_enc_untrusted_register_signal_handler
            10 (Some (sim_handler 111)) "first" two_enclaves 0
          = Returned 0 0 after_first_registration) as Hfirst
    by (vm_compute; reflexivity).
  assert (ocall_enc_untrusted_register_signal_handler
            12 (Some (sim_handler 222)) "second" after_first_registration 0
          = Returned 0 0 after_second_registration) as Hsecond
    by (vm_compute; reflexivity).
  assert (0 <= FromBridgeSignal 10) as Hvalid1 by (vm_compute; discriminate).
  assert (0 <= FromBridgeSignal 12) as Hvalid2 by (vm_compute; discriminate).
  assert (FromBridgeSignal 10 ≠ FromBridgeSignal 12) as Hdistinct
    by (vm_compute; discriminate).
  destruct (inside_handler_is_shared 10 12 111 222
              (sim_handler 111) (sim_handler 222) "first" "second"
              two_enclaves after_first_registration
              after_second_registration 0 0 0 0
              eq_refl eq_refl Hfirst Hsecond Hvalid1 Hvalid2 Hdistinct
              eq_refl)
    as (client1 & Hclient1 & _ & _ & _ & Hcalled).
  assert (client1 = 1000) as ->
    by (vm_compute in Hclient1; congruence).
  apply Hcalled; [reflexivity | vm_compute; discriminate].
Defined.

End SignalsProofs.

(** ** Reading and writing a whole buffer *)

Module TransmitProofs.
Import Fork Transmit.

Local Open Scope Z_scope.

Lemma Read_loop_done (answers : list ReadAnswer) (buf : list ascii)
    (read_len read_bytes : Z) (t : SocketTransmit) (errno : Z) :
  ¬ read_bytes < read_len →
  Read_loop answers buf read_len read_bytes t errno
    = (Finished TransmitOk, buf, t, errno).
Proof.
  intros Hdone. destruct answers; cbn [Read_loop];
    rewrite !bool_decide_eq_false_2 by exact Hdone; reflexivity.
Qed.

Lemma Read_loop_nil (buf : list ascii) (read_len read_bytes : Z)
    (t : SocketTransmit) (errno : Z) :
  read_bytes < read_len →
  Read_loop [] buf read_len read_bytes t errno = (StillLooping, buf, t, errno).
Proof.
  intros Hmore. cbn [Read_loop].
  rewrite bool_decide_eq_true_2 by exact Hmore. reflexivity.
Qed.

(** A failing [read] is retried, whatever [errno] it left. *)
Lemma Read_loop_error (err : Z) (answers : list ReadAnswer)
    (buf : list ascii) (read_len read_bytes : Z) (t : SocketTransmit)
    (errno : Z) :
  read_bytes < read_len →
  Read_loop (ReadErr err :: answers) buf read_len read_bytes t errno
    = Read_loop answers buf read_len read_bytes t err.
Proof.
  intros Hmore. cbn [Read_loop read].
  rewrite bool_decide_eq_true_2 by exact Hmore.
  rewrite (bool_decide_eq_true_2 (-1 < 0)) by lia.
  rewrite take_drop.
  destruct (bool_decide (err = EINTR) || bool_decide (err = EAGAIN));
    reflexivity.
Qed.

Lemma Read_loop_eof (answers : list ReadAnswer) (buf : list ascii)
    (read_len read_bytes : Z) (t : SocketTransmit) (errno : Z) :
  read_bytes < read_len →
  Read_loop (ReadData [] :: answers) buf read_len read_bytes t errno
    = (Finished (PosixStatus P_EPIPE "connection closed by peer"),
       buf, t, errno).
Proof.
  intros Hmore. cbn [Read_loop read].
  rewrite bool_decide_eq_true_2 by exact Hmore.
  rewrite take_nil. cbn [length app drop].
  rewrite (bool_decide_eq_false_2 (_ < 0)) by (simpl; lia).
  rewrite (bool_decide_eq_true_2 (_ = 0)) by reflexivity.
  rewrite drop_0, take_drop. reflexivity.
Qed.

Lemma Read_loop_data (answers : list ReadAnswer) (chunk : list ascii) (buf : list ascii)
    (read_len read_bytes : Z) (t : SocketTransmit) (errno : Z) :
  let got := take (Z.to_nat (read_len - read_bytes)) chunk in
  read_bytes < read_len →
  chunk ≠ [] →
  read_bytes + Z.of_nat (length got) <= INT_MAX →
  read_count_ t < INT_MAX →
  Read_loop (ReadData chunk :: answers) buf read_len read_bytes t errno
    = Read_loop answers
        (take (Z.to_nat read_bytes) buf
           ++ got ++ drop (length got) (drop (Z.to_nat read_bytes) buf))
        read_len (read_bytes + Z.of_nat (length got))
        {| write_count_ := write_count_ t;
           read_count_ := read_count_ t + 1 |} errno.
Proof.
  intros got Hmore Hchunk Hfits Hcount. cbn [Read_loop read]. fold got.
  rewrite bool_decide_eq_true_2 by exact Hmore.
  assert (0 < length got)%nat as Hgot.
  { unfold got. rewrite length_take.
    destruct chunk; [contradiction | ]. cbn [length]. lia. }
  rewrite (bool_decide_eq_false_2 (Z.of_nat (length got) < 0)) by lia.
  rewrite (bool_decide_eq_false_2 (Z.of_nat (length got) = 0)) by lia.
  rewrite (bool_decide_eq_false_2 (_ > INT_MAX)) by lia.
  rewrite (bool_decide_eq_false_2 (_ >= INT_MAX)) by lia.
  reflexivity.
Qed.

Lemma length_got (need : nat) (chunk : list ascii) :
  length (take need chunk) = Nat.min need (length chunk).
Proof. apply length_take. Qed.

(** The three ways the loop can end, from any point of the loop. *)
Lemma Read_loop_outcomes (answers : list ReadAnswer) (buf : list ascii)
    (read_len read_bytes : Z) (t : SocketTransmit) (errno : Z) :
  0 <= read_bytes <= read_len →
  read_len <= INT_MAX →
  read_count_ t + (read_len - read_bytes) <= INT_MAX →
  let '(outcome, _, _, _) :=
    Read_loop answers buf read_len read_bytes t errno in
  outcome = Finished TransmitOk ∨
  outcome = Finished (PosixStatus P_EPIPE "connection closed by peer") ∨
  outcome = StillLooping.
Proof.
  revert buf read_bytes t errno.
  induction answers as [|answer answers IH];
    intros buf read_bytes t errno Hbytes Hlen Hcount.
  - destruct (decide (read_bytes < read_len)) as [Hmore | Hdone].
    + rewrite Read_loop_nil by exact Hmore. auto.
    + rewrite Read_loop_done by exact Hdone. auto.
  - destruct (decide (read_bytes < read_len)) as [Hmore | Hdone];
      [ | rewrite Read_loop_done by exact Hdone; auto ].
    destruct answer as [chunk | err].
    + destruct chunk as [|c chunk].
      * rewrite Read_loop_eof by exact Hmore. auto.
      * pose proof (length_got (Z.to_nat (read_len - read_bytes)) (c :: chunk))
          as Hgot.
        assert (0 < length (take (Z.to_nat (read_len - read_bytes))
                                 (c :: chunk)))%nat as Hpos
          by (rewrite Hgot; cbn [length]; lia).
        rewrite Read_loop_data by (first [exact Hmore | discriminate | lia]).
        apply IH; cbn [read_count_]; lia.
    + rewrite Read_loop_error by exact Hmore. apply IH; assumption.
Qed.

Lemma Read_loop_errors (errors : list Z) (answers : list ReadAnswer)
    (buf : list ascii) (read_len read_bytes : Z) (t : SocketTransmit)
    (errno : Z) :
  read_bytes < read_len →
  Read_loop ((ReadErr <$> errors) ++ answers) buf read_len read_bytes t errno
    = Read_loop answers buf read_len read_bytes t (foldl (λ _ err, err) errno errors).
Proof.
  intros Hmore. revert errno.
  induction errors as [|err errors IH]; intros errno; [reflexivity | ].
  cbn [fmap list_fmap app foldl].
  rewrite Read_loop_error by exact Hmore. apply IH.
Qed.

(** X17. [SocketTransmit::Read] never reports a read error. For a length
    and a counter that fit [int], a call ends in one of three ways: the ok
    status, the P_EPIPE status "connection closed by peer", or not at all;
    the status built from [errno] with the message "read error" is never
    returned. A failing [read] is retried whatever [errno] it left (the
    [break] leaves the [switch], not the loop), so on a descriptor whose
    reads keep failing the call does not return. *)
Theorem Read_never_reports_a_read_error (answers : list ReadAnswer)
    (buf : list ascii) (read_len : Z) (t : SocketTransmit) (errno : Z) :
  0 <= read_len <= INT_MAX →
  read_count_ t + read_len <= INT_MAX →
  (let '(outcome, _, _, _) := Read answers buf read_len t errno in
   outcome = Finished TransmitOk ∨
   outcome = Finished (PosixStatus P_EPIPE "connection closed by peer") ∨
   outcome = StillLooping) ∧
  (0 < read_len → ∀ errors : list Z,
     Read ((ReadErr <$> errors) ++ answers) buf read_len t errno
       = Read answers buf read_len t (foldl (λ _ err, err) errno errors) ∧
     Read (ReadErr <$> errors) buf read_len t errno
       = (StillLooping, buf, t, foldl (λ _ err, err) errno errors)).
Proof.
  intros Hlen Hcount. split.
  - unfold Read. apply Read_loop_outcomes; lia.
  - intros Hpos errors. unfold Read. split.
    + apply Read_loop_errors. exact Hpos.
    + rewrite <- (app_nil_r (ReadErr <$> errors)).
      rewrite Read_loop_errors by exact Hpos.
      apply Read_loop_nil. exact Hpos.
Qed.

Lemma Read_never_reports_a_read_error_witness :
  Read [ReadErr 9; ReadErr 104; ReadErr 5] ["x"%char; "y"%char] 2
       {| write_count_ := 0; read_count_ := 0 |} 0
    = (StillLooping, ["x"%char; "y"%char],
       {| write_count_ := 0; read_count_ := 0 |}, 5).
Proof.
  assert (0 <= 2 <= INT_MAX) as Hlen by (unfold INT_MAX; lia).
  assert (read_count_ {| write_count_ := 0; read_count_ := 0 |} + 2 <= INT_MAX)
    as Hcount by (unfold INT_MAX; simpl; lia).
  destruct (Read_never_reports_a_read_error [] ["x"%char; "y"%char] 2
              {| write_count_ := 0; read_count_ := 0 |} 0 Hlen Hcount)
    as [_ Hretry].
  destruct (Hretry ltac:(lia) [9; 104; 5]) as [_ Hspin]. exact Hspin.
Defined.

Lemma pieces_data (chunk : list ascii) (answers : list ReadAnswer) :
  pieces (ReadData chunk :: answers) = chunk :: pieces answers.
Proof. reflexivity. Qed.

Lemma pieces_error (err : Z) (answers : list ReadAnswer) :
  pieces (ReadErr err :: answers) = pieces answers.
Proof. reflexivity. Qed.

Lemma delivered_nil : delivered [] = [].
Proof. reflexivity. Qed.

Lemma delivered_data (chunk : list ascii) (answers : list ReadAnswer) :
  delivered (ReadData chunk :: answers) = chunk ++ delivered answers.
Proof. reflexivity. Qed.

Lemma delivered_error (err : Z) (answers : list ReadAnswer) :
  delivered (ReadErr err :: answers) = delivered answers.
Proof. reflexivity. Qed.

(** The loop from a buffer [done ++ rest] of which [done] is filled and
    [need] bytes are missing. *)
Lemma Read_loop_fills (answers : list ReadAnswer) (done rest : list ascii)
    (need : nat) (read_len : Z) (t : SocketTransmit) (errno : Z) :
  read_len = Z.of_nat (length done) + Z.of_nat need →
  read_len <= INT_MAX →
  read_count_ t + Z.of_nat need <= INT_MAX →
  (need ≤ length rest)%nat →
  [] ∉ pieces answers →
  let '(outcome, buf', t', _) :=
    Read_loop answers (done ++ rest) read_len (Z.of_nat (length done)) t
              errno in
  outcome = (if decide (need ≤ length (delivered answers))%nat
             then Finished TransmitOk else StillLooping) ∧
  buf' = done ++ take need (delivered answers)
              ++ drop (Nat.min need (length (delivered answers))) rest ∧
  write_count_ t' = write_count_ t ∧
  read_count_ t <= read_count_ t'
    <= read_count_ t + Z.of_nat (length (pieces answers)).
Proof.
  revert done rest need t errno.
  induction answers as [|answer answers IH];
    intros done rest need t errno Hlen Hmax Hcount Hroom Hno_eof.
  - rewrite delivered_nil. cbn [length].
    destruct need as [|need].
    + rewrite Read_loop_done by lia.
      rewrite decide_True by lia. cbn [take Nat.min app]. rewrite drop_0.
      repeat split; try reflexivity; lia.
    + rewrite Read_loop_nil by lia.
      rewrite decide_False by lia. rewrite take_nil.
      cbn [Nat.min app]. rewrite drop_0.
      repeat split; try reflexivity; lia.
  - destruct need as [|need].
    { rewrite Read_loop_done by lia.
      rewrite decide_True by lia. cbn [take Nat.min app]. rewrite drop_0.
      repeat split; try reflexivity; lia. }
    destruct answer as [chunk | err].
    2:{ rewrite Read_loop_error by lia. rewrite pieces_error in Hno_eof.
        rewrite delivered_error, pieces_error.
        apply IH; assumption. }
    rewrite pieces_data in Hno_eof.
    assert (chunk ≠ []) as Hchunk.
    { intros ->. apply Hno_eof. left. }
    assert ([] ∉ pieces answers) as Hno_eof'.
    { intros Hin. apply Hno_eof. right. exact Hin. }
    rewrite delivered_data, pieces_data.
    set (got := take (S need) chunk).
    assert (length got = Nat.min (S need) (length chunk)) as Hgot
      by apply length_take.
    assert (0 < length chunk)%nat as Hnonempty
      by (destruct chunk; [contradiction | cbn [length]; lia]).
    rewrite Read_loop_data; try assumption; try lia;
      replace (Z.to_nat (read_len - Z.of_nat (length done))) with (S need)
        by lia;
      fold got; try lia.
    rewrite Nat2Z.id, take_app_length, drop_app_length.
    rewrite (app_assoc done got (drop (length got) rest)).
    replace (Z.of_nat (length done) + Z.of_nat (length got))
      with (Z.of_nat (length (done ++ got)))
      by (rewrite length_app; lia).
    specialize (IH (done ++ got) (drop (length got) rest)
                   (S need - length got)%nat
                   {| write_count_ := write_count_ t;
                      read_count_ := read_count_ t + 1 |} errno).
    destruct (Read_loop answers _ read_len _ _ errno)
      as [[[outcome buf'] t'] errno'].
    destruct IH as (Houtcome & Hbuf & Hwrites & Hreads).
    + rewrite length_app. lia.
    + exact Hmax.
    + cbn [read_count_]. lia.
    + rewrite length_drop. lia.
    + exact Hno_eof'.
    + cbn [write_count_ read_count_] in Hwrites, Hreads.
      split; [ | split; [ | split]].
      * rewrite Houtcome, length_app.
        destruct (decide (S need - length got ≤ length (delivered answers))%nat);
          destruct (decide (S need ≤ length chunk + length (delivered answers))%nat);
          first [reflexivity | lia].
      * rewrite Hbuf, take_app, drop_drop, length_app, <- !app_assoc.
        fold got.
        replace (S need - length chunk)%nat with (S need - length got)%nat
          by lia.
        replace (length got
                 + Nat.min (S need - length got) (length (delivered answers)))%nat
          with (Nat.min (S need) (length chunk + length (delivered answers)))
          by lia.
        reflexivity.
      * exact Hwrites.
      * cbn [length]. lia.
Qed.

(** X18. [SocketTransmit::Read] reassembles short reads. With a buffer of at
    least [read_len] bytes, a length and a counter that fit [int], and no
    end of file among the answers: if the reads deliver at least [read_len]
    bytes the call returns the ok status and the first [read_len] bytes of
    the buffer are the first [read_len] bytes delivered, in order, however
    they were split and whichever reads failed in between; if they deliver
    fewer, the call is still waiting with all of them stored. The buffer
    keeps its length, the bytes after [read_len] are untouched, the write
    counter is unchanged and the read counter grows by at most one per
    piece. *)
Theorem Read_reassembles_short_reads (answers : list ReadAnswer)
    (buf : list ascii) (read_len : Z) (t : SocketTransmit) (errno : Z) :
  0 <= read_len <= INT_MAX →
  read_count_ t + read_len <= INT_MAX →
  read_len <= Z.of_nat (length buf) →
  [] ∉ pieces answers →
  let '(outcome, buf', t', _) := Read answers buf read_len t errno in
  let n := Z.to_nat read_len in
  ((n ≤ length (delivered answers))%nat →
     outcome = Finished TransmitOk ∧
     buf' = take n (delivered answers) ++ drop n buf) ∧
  ((length (delivered answers) < n)%nat →
     outcome = StillLooping ∧
     buf' = delivered answers ++ drop (length (delivered answers)) buf) ∧
  length buf' = length buf ∧
  GetWrite t' = GetWrite t ∧
  GetRead t <= GetRead t' <= GetRead t + Z.of_nat (length (pieces answers)).
Proof.
  intros Hlen Hcount Hroom Hno_eof. unfold Read, GetWrite, GetRead.
  pose proof (Read_loop_fills answers [] buf (Z.to_nat read_len) read_len t
                errno) as Hfills.
  cbn [length app] in Hfills. change (Z.of_nat 0) with 0 in Hfills.
  destruct (Read_loop answers buf read_len 0 t errno)
    as [[[outcome buf'] t'] errno'].
  destruct Hfills as (Houtcome & Hbuf & Hwrites & Hreads);
    try assumption; try lia.
  cbv zeta. split; [ | split; [ | split; [ | split]]].
  - intros Henough. rewrite decide_True in Houtcome by exact Henough.
    split; [exact Houtcome | ]. rewrite Hbuf, Nat.min_l by exact Henough.
    reflexivity.
  - intros Hshort. rewrite decide_False in Houtcome by lia.
    split; [exact Houtcome | ]. rewrite Hbuf, Nat.min_r by lia.
    rewrite take_ge by lia. reflexivity.
  - rewrite Hbuf, length_app, length_take, length_drop. lia.
  - exact Hwrites.
  - exact Hreads.
Qed.

Lemma Read_reassembles_short_reads_witness :
  let answers := [ReadData ["a"; "b"]%char; ReadErr EINTR;
                  ReadData ["c"; "d"; "e"]%char] in
  let buf := ["."; "."; "."; "."; "."]%char in
  let '(outcome, buf', t', _) :=
    Read answers buf 4 {| write_count_ := 0; read_count_ := 0 |} 0 in
  outcome = Finished TransmitOk ∧
  buf' = ["a"; "b"; "c"; "d"; "."]%char.
Proof.
  cbv zeta.
  assert (0 <= 4 <= INT_MAX) as Hlen by (unfold INT_MAX; lia).
  assert (read_count_ {| write_count_ := 0; read_count_ := 0 |} + 4
            <= INT_MAX) as Hcount by (unfold INT_MAX; simpl; lia).
  assert (4 <= Z.of_nat (length ["."; "."; "."; "."; "."]%char)) as Hroom
    by (simpl; lia).
  assert ([] ∉ pieces [ReadData ["a"; "b"]%char; ReadErr EINTR;
                       ReadData ["c"; "d"; "e"]%char]) as Hno_eof.
  { intros Hin. cbn in Hin.
    repeat (apply elem_of_cons in Hin as [Hin | Hin]; [discriminate Hin | ]).
    apply elem_of_nil in Hin. exact Hin. }
  pose proof (Read_reassembles_short_reads _ _ 4
                {| write_count_ := 0; read_count_ := 0 |} 0
                Hlen Hcount Hroom Hno_eof) as Hread.
  destruct (Read _ _ 4 _ 0) as [[[outcome buf'] t'] errno'].
  cbv zeta in Hread. destruct Hread as (Henough & _).
  apply Henough. cbn. lia.
Defined.

(** *** Write *)

Lemma Write_loop_done (answers : list WriteAnswer) (buf : list ascii)
    (write_len write_bytes : Z) (wire : list ascii) (t : SocketTransmit)
    (errno : Z) :
  ¬ write_bytes < write_len →
  Write_loop answers buf write_len write_bytes wire t errno
    = (Finished TransmitOk, wire, t, errno).
Proof.
  intros Hdone. destruct answers; cbn [Write_loop];
    rewrite !bool_decide_eq_false_2 by exact Hdone; reflexivity.
Qed.

Lemma Write_loop_nil (buf : list ascii) (write_len write_bytes : Z)
    (wire : list ascii) (t : SocketTransmit) (errno : Z) :
  write_bytes < write_len →
  Write_loop [] buf write_len write_bytes wire t errno
    = (StillLooping, wire, t, errno).
Proof.
  intros Hmore. cbn [Write_loop].
  rewrite bool_decide_eq_true_2 by exact Hmore. reflexivity.
Qed.

Lemma Write_loop_error (err : Z) (answers : list WriteAnswer)
    (buf : list ascii) (write_len write_bytes : Z) (wire : list ascii)
    (t : SocketTransmit) (errno : Z) :
  write_bytes < write_len →
  Write_loop (WriteErr err :: answers) buf write_len write_bytes wire t errno
    = Write_loop answers buf write_len write_bytes wire t err.
Proof.
  intros Hmore. cbn [Write_loop write].
  rewrite bool_decide_eq_true_2 by exact Hmore.
  rewrite (bool_decide_eq_true_2 (-1 < 0)) by lia.
  rewrite app_nil_r.
  destruct (bool_decide (err = EINTR) || bool_decide (err = EAGAIN));
    reflexivity.
Qed.

Lemma Write_loop_takes (room : nat) (answers : list WriteAnswer)
    (buf : list ascii) (write_len write_bytes : Z) (wire : list ascii)
    (t : SocketTransmit) (errno : Z) :
  let sent := take (Nat.min room (Z.to_nat (write_len - write_bytes)))
                   (drop (Z.to_nat write_bytes) buf) in
  write_bytes < write_len →
  write_bytes + Z.of_nat (length sent) <= INT_MAX →
  write_count_ t < INT_MAX →
  Write_loop (WriteTakes room :: answers) buf write_len write_bytes wire t
             errno
    = Write_loop answers buf write_len
        (write_bytes + Z.of_nat (length sent)) (wire ++ sent)
        {| write_count_ := write_count_ t + 1;
           read_count_ := read_count_ t |} errno.
Proof.
  intros sent Hmore Hfits Hcount. cbn [Write_loop write]. fold sent.
  rewrite bool_decide_eq_true_2 by exact Hmore.
  rewrite (bool_decide_eq_false_2 (Z.of_nat (length sent) < 0)) by lia.
  rewrite (bool_decide_eq_false_2 (_ > INT_MAX)) by lia.
  rewrite (bool_decide_eq_false_2 (_ >= INT_MAX)) by lia.
  reflexivity.
Qed.

Lemma take_add_drop {A : Type} (a b : nat) (l : list A) :
  take (a + b) l = take a l ++ take b (drop a l).
Proof.
  revert l. induction a as [|a IH]; intros l; [reflexivity | ].
  destruct l as [|x l]; [rewrite drop_nil, !take_nil; reflexivity | ].
  cbn [Nat.add take drop app]. rewrite IH. reflexivity.
Qed.

(** The loop from [write_bytes] on: what goes out is the next part of the
    buffer. *)
Lemma Write_loop_sends (answers : list WriteAnswer) (buf : list ascii)
    (write_len : Z) (written : nat) (wire : list ascii)
    (t : SocketTransmit) (errno : Z) :
  Z.of_nat written <= write_len →
  write_len <= INT_MAX →
  write_count_ t + Z.of_nat (length answers) <= INT_MAX →
  write_len <= Z.of_nat (length buf) →
  let '(outcome, wire', t', _) :=
    Write_loop answers buf write_len (Z.of_nat written) wire t errno in
  ∃ sent : nat,
    Z.of_nat (written + sent) <= write_len ∧
    wire' = wire ++ take sent (drop written buf) ∧
    (outcome = Finished TransmitOk ∧ Z.of_nat (written + sent) = write_len ∨
     outcome = StillLooping ∧ Z.of_nat (written + sent) < write_len) ∧
    read_count_ t' = read_count_ t ∧
    write_count_ t <= write_count_ t'
      <= write_count_ t + Z.of_nat (length answers).
Proof.
  revert written wire t errno.
  induction answers as [|answer answers IH];
    intros written wire t errno Hwritten Hmax Hcount Hroom.
  - destruct (decide (Z.of_nat written < write_len)) as [Hmore | Hdone].
    + rewrite Write_loop_nil by exact Hmore. exists 0%nat.
      rewrite take_0, app_nil_r. cbn [length].
      repeat split; try lia. right. split; [reflexivity | lia].
    + rewrite Write_loop_done by exact Hdone. exists 0%nat.
      rewrite take_0, app_nil_r.
      repeat split; try lia. left. split; [reflexivity | lia].
  - cbn [length] in Hcount.
    destruct (decide (Z.of_nat written < write_len)) as [Hmore | Hdone].
    2:{ rewrite Write_loop_done by exact Hdone. exists 0%nat.
        rewrite take_0, app_nil_r. cbn [length].
        repeat split; try lia. left. split; [reflexivity | lia]. }
    destruct answer as [room | err].
    + set (sent0 := take (Nat.min room
                            (Z.to_nat (write_len - Z.of_nat written)))
                         (drop (Z.to_nat (Z.of_nat written)) buf)).
      assert (length sent0
              = Nat.min room (Z.to_nat (write_len - Z.of_nat written)))
        as Hsent0.
      { unfold sent0. rewrite length_take, length_drop. lia. }
      rewrite Write_loop_takes; fold sent0; try lia.
      replace (Z.of_nat written + Z.of_nat (length sent0))
        with (Z.of_nat (written + length sent0)) by lia.
      specialize (IH (written + length sent0)%nat (wire ++ sent0)
                     {| write_count_ := write_count_ t + 1;
                        read_count_ := read_count_ t |} errno).
      destruct (Write_loop answers buf write_len _ _ _ errno)
        as [[[outcome wire'] t'] errno'].
      destruct IH as (sent & Hbound & Hwire & Houtcome & Hreads & Hwrites);
        try (cbn [write_count_]; lia).
      cbn [write_count_ read_count_] in Hreads, Hwrites.
      exists (length sent0 + sent)%nat.
      split; [lia | split; [ | split; [ | split]]].
      * rewrite Hwire, <- app_assoc. f_equal.
        rewrite take_add_drop, drop_drop. f_equal.
        unfold sent0. rewrite Nat2Z.id, length_take.
        rewrite InitializationProofs.take_min_length. reflexivity.
      * replace (written + (length sent0 + sent))%nat
          with (written + length sent0 + sent)%nat by lia.
        exact Houtcome.
      * exact Hreads.
      * cbn [length]. lia.
    + rewrite Write_loop_error by exact Hmore.
      specialize (IH written wire t err).
      destruct (Write_loop answers buf write_len _ wire t err)
        as [[[outcome wire'] t'] errno'].
      destruct IH as (sent & Hbound & Hwire & Houtcome & Hreads & Hwrites);
        try lia.
      exists sent. repeat split; try assumption; try lia.
      cbn [length]. lia.
Qed.

Lemma Write_loop_nothing_taken (n : nat) (buf : list ascii)
    (write_len write_bytes : Z) (wire : list ascii) (t : SocketTransmit)
    (errno : Z) :
  0 <= write_bytes < write_len →
  write_len <= INT_MAX →
  write_count_ t + Z.of_nat n <= INT_MAX →
  Write_loop (replicate n (WriteTakes 0)) buf write_len write_bytes wire t
             errno
    = (StillLooping, wire,
       {| write_count_ := write_count_ t + Z.of_nat n;
          read_count_ := read_count_ t |}, errno).
Proof.
  revert t. induction n as [|n IH]; intros t Hbytes Hmax Hcount.
  - cbn [replicate]. rewrite Write_loop_nil by lia.
    destruct t as [writes reads]. cbn [write_count_ read_count_].
    rewrite Z.add_0_r. reflexivity.
  - cbn [replicate].
    rewrite Write_loop_takes; rewrite ?Nat.min_0_l, ?take_0; cbn [length];
      try lia.
    change (Z.of_nat 0) with 0. rewrite Z.add_0_r, app_nil_r.
    rewrite IH by (cbn [write_count_]; lia).
    cbn [write_count_ read_count_].
    replace (write_count_ t + 1 + Z.of_nat n)
      with (write_count_ t + Z.of_nat (S n)) by lia.
    reflexivity.
Qed.

(** X19. [SocketTransmit::Write] sends the buffer once and in order, and
    never reports a write error. With a buffer of at least [write_len]
    bytes, a length that fits [int] and a counter with room for the calls:
    either the call returns the ok status and exactly the first [write_len]
    bytes of the buffer went out, in order, or it is still looping with a
    shorter prefix of the buffer sent; the "write error" status is never
    returned. A [write] that takes nothing is counted and retried, so a peer
    that never takes anything keeps the call looping. The read counter is
    unchanged and the write counter grows by at most one per call. *)
Theorem Write_sends_the_buffer_in_order (answers : list WriteAnswer)
    (buf : list ascii) (write_len : Z) (t : SocketTransmit) (errno : Z) :
  0 <= write_len <= INT_MAX →
  write_count_ t + Z.of_nat (length answers) <= INT_MAX →
  write_len <= Z.of_nat (length buf) →
  (let '(outcome, wire, t', _) := Write answers buf write_len t errno in
   (outcome = Finished TransmitOk ∧ wire = take (Z.to_nat write_len) buf ∨
    outcome = StillLooping ∧ (length wire < Z.to_nat write_len)%nat ∧
    wire = take (length wire) buf) ∧
   GetRead t' = GetRead t ∧
   GetWrite t <= GetWrite t' <= GetWrite t + Z.of_nat (length answers)) ∧
  (∀ n : nat, 0 < write_len → write_count_ t + Z.of_nat n <= INT_MAX →
   Write (replicate n (WriteTakes 0)) buf write_len t errno
     = (StillLooping, [],
        {| write_count_ := write_count_ t + Z.of_nat n;
           read_count_ := read_count_ t |}, errno)).
Proof.
  intros Hlen Hcount Hroom. split.
  - unfold Write, GetRead, GetWrite.
    pose proof (Write_loop_sends answers buf write_len 0 [] t errno)
      as Hsends.
    change (Z.of_nat 0) with 0 in Hsends.
    destruct (Write_loop answers buf write_len 0 [] t errno)
      as [[[outcome wire] t'] errno'].
    destruct Hsends as (sent & Hbound & Hwire & Houtcome & Hreads & Hwrites);
      try lia.
    cbn [app Nat.add drop] in Hwire, Hbound, Houtcome.
    rewrite drop_0 in Hwire.
    assert (length wire = sent) as Hsent
      by (rewrite Hwire, length_take; lia).
    split; [ | split; [exact Hreads | exact Hwrites]].
    destruct Houtcome as [[-> Hall] | [-> Hpart]].
    + left. split; [reflexivity | ]. rewrite Hwire. f_equal. lia.
    + right. split; [reflexivity | split; [lia | ]].
      rewrite Hsent. exact Hwire.
  - intros n Hpos Hfits. unfold Write.
    apply Write_loop_nothing_taken; lia.
Qed.

Lemma Write_sends_the_buffer_in_order_witness :
  let '(outcome, wire, t', _) :=
    Write [WriteTakes 1; WriteErr EAGAIN; WriteTakes 0; WriteTakes 7]
          ["a"; "b"; "c"; "d"]%char 3
          {| write_count_ := 0; read_count_ := 0 |} 0 in
  outcome = Finished TransmitOk ∧ wire = ["a"; "b"; "c"]%char ∧
  GetWrite t' <= 4.
Proof.
  assert (0 <= 3 <= INT_MAX) as Hlen by (unfold INT_MAX; lia).
  pose proof (Write_sends_the_buffer_in_order
                [WriteTakes 1; WriteErr EAGAIN; WriteTakes 0; WriteTakes 7]
                ["a"; "b"; "c"; "d"]%char 3
                {| write_count_ := 0; read_count_ := 0 |} 0 Hlen
                ltac:(unfold INT_MAX; simpl; lia) ltac:(simpl; lia))
    as [Hsent _].
  destruct (Write _ _ 3 _ 0) as [[[outcome wire] t'] errno'] eqn:Hrun.
  destruct Hsent as ([[-> ->] | [-> _]] & _ & Hwrites).
  - split; [reflexivity | split; [reflexivity | ]].
    unfold GetWrite in *. simpl in Hwrites. lia.
  - vm_compute in Hrun. discriminate Hrun.
Defined.

(** X20. What [Write] sent, [Read] gets back. If a call of [Write] for
    [len] bytes returns the ok status and the bytes it sent arrive at a call
    of [Read] for [len] bytes, in whatever pieces and with whatever failing
    reads in between but without an end of file, then [Read] returns the ok
    status, the first [len] bytes of its buffer equal the first [len] bytes
    of the writer's buffer, and the rest of its buffer is untouched. *)
Theorem Write_then_Read_round_trip (sends : list WriteAnswer)
    (receives : list ReadAnswer) (source target : list ascii) (len : Z)
    (writer reader : SocketTransmit) (errno errno' : Z) :
  0 <= len <= INT_MAX →
  write_count_ writer + Z.of_nat (length sends) <= INT_MAX →
  read_count_ reader + len <= INT_MAX →
  len <= Z.of_nat (length source) →
  len <= Z.of_nat (length target) →
  [] ∉ pieces receives →
  (Write sends source len writer errno).1.1.1 = Finished TransmitOk →
  delivered receives = (Write sends source len writer errno).1.1.2 →
  let '(outcome, target', _, _) := Read receives target len reader errno' in
  outcome = Finished TransmitOk ∧
  take (Z.to_nat len) target' = take (Z.to_nat len) source ∧
  drop (Z.to_nat len) target' = drop (Z.to_nat len) target.
Proof.
  intros Hlen Hwrites Hreads Hsource Htarget Hno_eof Hsent Hwire.
  unfold Write in Hsent, Hwire.
  pose proof (Write_loop_sends sends source len 0 [] writer errno)
    as Hsends.
  change (Z.of_nat 0) with 0 in Hsends.
  destruct (Write_loop sends source len 0 [] writer errno)
    as [[[woutcome wire] writer'] werrno].
  cbn [fst snd] in Hsent, Hwire. subst woutcome.
  destruct Hsends as (sent & Hbound & Hwire' & Houtcome & _); try lia.
  cbn [app Nat.add] in Hwire', Hbound, Houtcome. rewrite drop_0 in Hwire'.
  destruct Houtcome as [[_ Hall] | [Hloop _]]; [ | discriminate Hloop].
  assert (sent = Z.to_nat len) as -> by lia.
  assert (length (delivered receives) = Z.to_nat len) as Hdelivered
    by (rewrite Hwire, Hwire', length_take; lia).
  unfold Read.
  pose proof (Read_loop_fills receives [] target (Z.to_nat len) len reader
                errno') as Hfills.
  cbn [length app] in Hfills. change (Z.of_nat 0) with 0 in Hfills.
  destruct (Read_loop receives target len 0 reader errno')
    as [[[outcome target'] reader'] rerrno].
  destruct Hfills as (Houtcome & Hbuf & _); try assumption; try lia.
  rewrite decide_True in Houtcome by lia.
  rewrite Nat.min_l in Hbuf by lia.
  rewrite take_ge in Hbuf by lia.
  split; [exact Houtcome | ]. rewrite Hbuf, Hwire, Hwire'. split.
  - rewrite take_app_length'; [reflexivity | ].
    rewrite length_take. lia.
  - rewrite drop_app_length'; [reflexivity | ].
    rewrite length_take. lia.
Qed.

Lemma Write_then_Read_round_trip_witness :
  let '(outcome, target', _, _) :=
    Read [ReadData ["a"]%char; ReadErr EINTR; ReadData ["b"; "c"]%char]
         ["."; "."; "."; "."]%char 3
         {| write_count_ := 0; read_count_ := 0 |} 0 in
  outcome = Finished TransmitOk ∧
  take 3 target' = ["a"; "b"; "c"]%char ∧
  drop 3 target' = ["."]%char.
Proof.
  assert (0 <= 3 <= INT_MAX) as Hlen by (unfold INT_MAX; lia).
  assert ([] ∉ pieces [ReadData ["a"]%char; ReadErr EINTR;
                       ReadData ["b"; "c"]%char]) as Hno_eof.
  { intros Hin. cbn in Hin.
    repeat (apply elem_of_cons in Hin as [Hin | Hin]; [discriminate Hin | ]).
    apply elem_of_nil in Hin. exact Hin. }
  exact (Write_then_Read_round_trip
           [WriteTakes 2; WriteTakes 5]
           [ReadData ["a"]%char; ReadErr EINTR; ReadData ["b"; "c"]%char]
           ["a"; "b"; "c"; "d"]%char ["."; "."; "."; "."]%char 3
           {| write_count_ := 0; read_count_ := 0 |}
           {| write_count_ := 0; read_count_ := 0 |} 0 0
           Hlen ltac:(unfold INT_MAX; simpl; lia)
           ltac:(unfold INT_MAX; simpl; lia)
           ltac:(simpl; lia) ltac:(simpl; lia) Hno_eof eq_refl eq_refl).
Defined.

End TransmitProofs.

(** ** Gathering and scattering message buffers *)

Module HostCallsProofs.
Import Fork HostCalls.

Local Open Scope Z_scope.

Lemma memcpy_in_bounds (dest : list ascii) (offset : nat) (src : list ascii)
    (n : nat) :
  (offset + n ≤ length dest)%nat → (n ≤ length src)%nat →
  memcpy dest offset src n
    = Some (take offset dest ++ take n src ++ drop (offset + n) dest).
Proof.
  intros Hdest Hsrc. unfold memcpy. rewrite decide_True by (split; lia).
  reflexivity.
Qed.

Lemma memcpy_out_of_bounds (dest : list ascii) (offset : nat)
    (src : list ascii) (n : nat) :
  (length dest < offset + n)%nat → memcpy dest offset src n = None.
Proof.
  intros Hdest. unfold memcpy. rewrite decide_False by lia. reflexivity.
Qed.

(** Without wrap-around the total size is the number of bytes in the
    buffers. *)
Lemma CalculateTotalSize_sum (msg : msghdr) :
  Z.of_nat (length (concat (msg_iov msg))) < 2 ^ 64 →
  CalculateTotalSize msg = Z.of_nat (length (concat (msg_iov msg))).
Proof.
  unfold CalculateTotalSize.
  assert (∀ (iovs : list (list ascii)) total, 0 <= total →
            total + Z.of_nat (length (concat iovs)) < 2 ^ 64 →
            foldl (λ total_message_size iov,
                     size_t_add total_message_size (Z.of_nat (length iov)))
                  total iovs
              = total + Z.of_nat (length (concat iovs))) as Hfold.
  { induction iovs as [|iov iovs IH]; intros total Hpos Hfits.
    - cbn. lia.
    - cbn [foldl concat] in *. rewrite length_app in *.
      unfold size_t_add at 2. rewrite Z.mod_small by lia.
      rewrite IH by lia. lia. }
  intros Hfits. rewrite Hfold by lia. lia.
Qed.

(** The gathering loop from [copied_bytes] on, when the rest fits. *)
Lemma gather_fits (iovs : list (list ascii)) (buffer : list ascii)
    (copied_bytes : nat) :
  (copied_bytes + length (concat iovs) ≤ length buffer)%nat →
  gather iovs buffer copied_bytes
    = Some (take copied_bytes buffer ++ concat iovs
              ++ drop (copied_bytes + length (concat iovs)) buffer).
Proof.
  revert buffer copied_bytes.
  induction iovs as [|iov iovs IH]; intros buffer copied_bytes Hfits.
  - cbn [gather concat length app]. rewrite Nat.add_0_r, take_drop.
    reflexivity.
  - cbn [gather concat] in *. rewrite length_app in Hfits.
    rewrite memcpy_in_bounds by lia. rewrite firstn_all.
    rewrite IH.
    2:{ rewrite !length_app, length_take, length_drop. lia. }
    f_equal. rewrite length_app.
    rewrite (app_assoc (take copied_bytes buffer) iov).
    rewrite take_app_length' by (rewrite length_app, length_take; lia).
    rewrite <- !app_assoc. do 3 f_equal.
    replace (copied_bytes + length iov + length (concat iovs))%nat
      with (length (take copied_bytes buffer ++ iov)
            + length (concat iovs))%nat
      by (rewrite length_app, length_take; lia).
    rewrite (app_assoc (take copied_bytes buffer) iov).
    rewrite drop_app_add, drop_drop. f_equal. lia.
Qed.

(** The scattering loop from [bytes_copied] on. *)
Lemma scatter_from (iovs : list (list ascii)) (extent : list ascii)
    (bytes_copied : nat) :
  (bytes_copied ≤ length extent)%nat →
  ∃ iovs',
    scatter iovs extent bytes_copied = Some iovs' ∧
    length <$> iovs' = length <$> iovs ∧
    concat iovs' =
      take (length (concat iovs)) (drop bytes_copied extent)
        ++ drop (Nat.min (length (concat iovs))
                         (length extent - bytes_copied))
                (concat iovs).
Proof.
  revert bytes_copied.
  induction iovs as [|iov iovs IH]; intros bytes_copied Hcopied.
  - exists []. cbn. split; [reflexivity | split; reflexivity].
  - cbn [scatter].
    destruct (decide (bytes_copied < length extent)%nat) as [Hmore | Hdone].
    2:{ exists (iov :: iovs). split; [reflexivity | split; [reflexivity | ]].
        rewrite (drop_ge extent) by lia. rewrite take_nil.
        replace (length extent - bytes_copied)%nat with 0%nat by lia.
        rewrite Nat.min_0_r. reflexivity. }
    set (remaining := (length extent - bytes_copied)%nat).
    set (n := Nat.min (length iov) remaining).
    assert (length (drop bytes_copied extent) = remaining) as Hremaining
      by (rewrite length_drop; reflexivity).
    rewrite memcpy_in_bounds by lia. rewrite take_0. cbn [app Nat.add].
    destruct (IH (bytes_copied + n)%nat ltac:(lia))
      as (iovs' & -> & Hshape & Hconcat).
    eexists. split; [reflexivity | split].
    + cbn [fmap list_fmap]. f_equal; [ | exact Hshape].
      rewrite length_app, length_take, Hremaining, length_drop. lia.
    + cbn [concat]. rewrite <- app_assoc. rewrite Hconcat, !length_app.
      rewrite <- drop_drop.
      set (data := drop bytes_copied extent) in *.
      replace (length extent - (bytes_copied + n))%nat
        with (remaining - n)%nat by lia.
      destruct (decide (length iov ≤ remaining)%nat) as [Hwhole | Hpart].
      * assert (n = length iov) as Hn by lia. rewrite Hn.
        rewrite (drop_ge iov) by lia. cbn [app].
        rewrite TransmitProofs.take_add_drop.
        rewrite <- app_assoc. do 2 f_equal.
        rewrite drop_app_ge by lia. f_equal. lia.
      * assert (n = remaining) as Hn by lia. rewrite Hn.
        rewrite !(take_ge data) by lia.
        rewrite (drop_ge data) by lia. rewrite take_nil.
        rewrite Nat.sub_diag, Nat.min_0_r, drop_0. cbn [app].
        rewrite Nat.min_r by lia.
        rewrite drop_app_le by lia. reflexivity.
Qed.

Lemma concat_same_shape (a b : list (list ascii)) :
  length <$> a = length <$> b → concat a = concat b → a = b.
Proof.
  revert b. induction a as [|x a IH]; intros [|y b] Hshape Hconcat;
    try discriminate Hshape; [reflexivity | ].
  cbn [fmap list_fmap concat] in *. injection Hshape as Hxy Hshape.
  apply app_inj_1 in Hconcat as [-> Hconcat]; [ | exact Hxy].
  f_equal. apply IH; assumption.
Qed.

(** X21. The scattering loop of [enc_untrusted_recvmsg] stays inside the
    caller's buffers whatever the host sends. For any buffers and any
    extent the loop completes, every buffer keeps its length, and the
    buffers read one after the other hold the first bytes of the extent, as
    many as fit, followed by what was there before; bytes of the extent
    beyond the room of the buffers are dropped. *)
Theorem recvmsg_scatter_stays_in_bounds (iovs : list (list ascii))
    (extent : list ascii) :
  ∃ iovs',
    scatter iovs extent 0 = Some iovs' ∧
    length <$> iovs' = length <$> iovs ∧
    concat iovs' =
      take (length (concat iovs)) extent
        ++ drop (Nat.min (length (concat iovs)) (length extent))
                (concat iovs).
Proof.
  destruct (scatter_from iovs extent 0 ltac:(lia))
    as (iovs' & Hrun & Hshape & Hconcat).
  exists iovs'. rewrite drop_0, Nat.sub_0_r in Hconcat.
  split; [exact Hrun | split; [exact Hshape | exact Hconcat]].
Qed.

(** X22. [enc_untrusted_recvmsg] trusts the sizes the host returns for the
    address and the control data. A failed dispatch aborts; a result of -1
    sets [errno] and leaves the message alone. Otherwise the address and
    control extents are copied whole (the address length first cut to 32
    bits): the call leaves the caller's buffers exactly when one of them is
    longer than the buffer it is copied to, and when it returns it hands
    back the host's result unchanged, [errno] untouched, the lengths set to
    the sizes of the extents, and the message flags as they were. *)
Theorem recvmsg_trusts_returned_sizes `{ErrorNumbers}
    (host : RecvRequest → option RecvReply) (sockfd : Z) (msg : msghdr)
    (flags errno : Z) :
  let request :=
    {| recv_sockfd := sockfd;
       recv_namelen := msg_namelen msg;
       recv_total_buffer_size := CalculateTotalSize msg;
       recv_controllen := msg_controllen msg;
       recv_msg_flags := msg_flags msg;
       recv_flags := flags |} in
  let outcome := enc_untrusted_recvmsg host sockfd msg flags errno in
  match host request with
  | None => outcome = Aborts
  | Some reply =>
      let n :=
        Z.to_nat (to_socklen_t (Z.of_nat (length (msg_name_extent reply)))) in
      let c := length (msg_control_extent reply) in
      (recv_result reply = -1 →
         outcome = Returns (-1)
                     (FromkLinuxErrorNumber (recv_klinux_errno reply)) msg) ∧
      (recv_result reply ≠ -1 →
         (outcome = OutOfBounds ↔
          (length (msg_name msg) < n ∨ length (msg_control msg) < c)%nat) ∧
         ∀ result errno' msg', outcome = Returns result errno' msg' →
           result = recv_result reply ∧ errno' = errno ∧
           msg_name msg' =
             take n (msg_name_extent reply) ++ drop n (msg_name msg) ∧
           msg_namelen msg' = Z.of_nat n ∧
           scatter (msg_iov msg) (msg_iov_extent reply) 0
             = Some (msg_iov msg') ∧
           msg_control msg' =
             msg_control_extent reply ++ drop c (msg_control msg) ∧
           msg_controllen msg' = Z.of_nat c ∧
           msg_flags msg' = msg_flags msg)
  end.
Proof.
  cbv zeta. unfold enc_untrusted_recvmsg.
  destruct (host _) as [reply|]; [ | reflexivity].
  set (n := Z.to_nat (to_socklen_t
                        (Z.of_nat (length (msg_name_extent reply))))).
  assert (n ≤ length (msg_name_extent reply))%nat as Hn.
  { unfold n, to_socklen_t.
    pose proof (Z.mod_le (Z.of_nat (length (msg_name_extent reply)))
                         (2 ^ 32) ltac:(lia) ltac:(lia)).
    lia. }
  assert (Z.of_nat n = to_socklen_t
                         (Z.of_nat (length (msg_name_extent reply))))
    as Hn_value.
  { unfold n, to_socklen_t.
    pose proof (Z.mod_pos_bound
                  (Z.of_nat (length (msg_name_extent reply))) (2 ^ 32)
                  ltac:(lia)).
    lia. }
  split.
  - intros ->. rewrite bool_decide_eq_true_2 by reflexivity. reflexivity.
  - intros Hresult. rewrite bool_decide_eq_false_2 by exact Hresult.
    rewrite Nat2Z.id.
    destruct (scatter_from (msg_iov msg) (msg_iov_extent reply) 0
                ltac:(lia)) as (iovs' & Hscatter & _).
    rewrite Hscatter.
    destruct (decide (n ≤ length (msg_name msg))%nat) as [Hname | Hname].
    2:{ rewrite memcpy_out_of_bounds by lia.
        split; [split; [intros _; left; lia | reflexivity] | ].
        intros result errno' msg' Hreturn. discriminate Hreturn. }
    rewrite memcpy_in_bounds by lia.
    destruct (decide (length (msg_control_extent reply)
                      ≤ length (msg_control msg))%nat) as [Hcontrol | Hcontrol].
    2:{ rewrite memcpy_out_of_bounds by lia.
        split; [split; [intros _; right; lia | reflexivity] | ].
        intros result errno' msg' Hreturn. discriminate Hreturn. }
    rewrite memcpy_in_bounds by lia.
    split.
    + split; [intros Hout; discriminate Hout | intros [Hlt | Hlt]; lia].
    + intros result errno' msg' Hreturn. injection Hreturn as <- <- <-.
      cbn [msg_name msg_namelen msg_iov msg_control msg_controllen
           msg_flags].
      rewrite firstn_all.
      repeat split; try reflexivity. symmetry. exact Hn_value.
Qed.

(** X23. [enc_untrusted_sendmsg] hands the host the buffers of the message
    joined in order. When the sizes of the buffers add up to less than
    2^64, the buffer pushed to the host is the concatenation of [msg_iov],
    whatever the fresh allocation held; then a failed dispatch aborts, and
    otherwise the host's result is returned as it is, with [errno] set from
    the reply exactly when the result is -1. *)
Theorem sendmsg_gathers_in_order `{ErrorNumbers}
    (host : SendRequest → option SendReply) (uninitialized : list ascii)
    (sockfd : Z) (msg : msghdr) (flags errno : Z) :
  Z.of_nat (length (concat (msg_iov msg))) < 2 ^ 64 →
  let request :=
    {| send_sockfd := sockfd;
       send_name := take (Z.to_nat (msg_namelen msg)) (msg_name msg);
       send_iov_buffer := concat (msg_iov msg);
       send_control :=
         take (Z.to_nat (msg_controllen msg)) (msg_control msg);
       send_msg_flags := msg_flags msg;
       send_flags := flags |} in
  enc_untrusted_sendmsg host uninitialized sockfd msg flags errno =
    match host request with
    | None => Aborts
    | Some reply =>
        Returns (send_result reply)
                (if bool_decide (send_result reply = -1)
                 then FromkLinuxErrorNumber (send_klinux_errno reply)
                 else errno)
                request
    end.
Proof.
  intros Hfits. cbv zeta. unfold enc_untrusted_sendmsg.
  rewrite (CalculateTotalSize_sum msg Hfits), Nat2Z.id.
  rewrite gather_fits by (rewrite length_resize; cbn [Nat.add]; lia).
  rewrite take_0. cbn [app Nat.add].
  rewrite drop_ge by (rewrite length_resize; lia). rewrite app_nil_r.
  destruct (host _) as [reply|]; [ | reflexivity].
  destruct (bool_decide (send_result reply = -1)); reflexivity.
Qed.

Lemma sendmsg_gathers_in_order_witness :
  enc_untrusted_sendmsg taking_host ["?"%char] 3
    (two_buffers ["a"; "b"]%char ["c"]%char) 0 0
  = Returns 3 0
      {| send_sockfd := 3; send_name := [];
         send_iov_buffer := ["a"; "b"; "c"]%char;
         send_control := []; send_msg_flags := 0; send_flags := 0 |}.
Proof.
  assert (Z.of_nat (length (concat (msg_iov (two_buffers ["a"; "b"]%char
                                                         ["c"]%char))))
          < 2 ^ 64) as Hfits by (simpl; lia).
  rewrite (sendmsg_gathers_in_order taking_host ["?"%char] 3 _ 0 0 Hfits).
  reflexivity.
Defined.

(** X24. What [enc_untrusted_sendmsg] gathers, [enc_untrusted_recvmsg]
    scatters back. If a message whose buffers add up to less than 2^64
    bytes is sent, and the buffer the host received comes back as the data
    of a receive into buffers of the same lengths, then the receive returns
    and its buffers hold what the sender's buffers held. *)
Theorem sendmsg_recvmsg_round_trip `{ErrorNumbers}
    (send_host : SendRequest → option SendReply)
    (recv_host : RecvRequest → option RecvReply)
    (uninitialized : list ascii) (sockfd sockfd' : Z)
    (sent target : msghdr) (flags flags' errno errno' : Z)
    (result errno_sent : Z) (request : SendRequest) (reply : RecvReply) :
  Z.of_nat (length (concat (msg_iov sent))) < 2 ^ 64 →
  enc_untrusted_sendmsg send_host uninitialized sockfd sent flags errno
    = Returns result errno_sent request →
  length <$> msg_iov target = length <$> msg_iov sent →
  recv_host {| recv_sockfd := sockfd';
               recv_namelen := msg_namelen target;
               recv_total_buffer_size := CalculateTotalSize target;
               recv_controllen := msg_controllen target;
               recv_msg_flags := msg_flags target;
               recv_flags := flags' |} = Some reply →
  recv_result reply ≠ -1 →
  msg_iov_extent reply = send_iov_buffer request →
  msg_name_extent reply = [] →
  msg_control_extent reply = [] →
  ∃ received,
    enc_untrusted_recvmsg recv_host sockfd' target flags' errno'
      = Returns (recv_result reply) errno' received ∧
    msg_iov received = msg_iov sent.
Proof.
  intros Hfits Hsent Hshape Hreply Hresult Hdata Hname Hcontrol.
  unfold enc_untrusted_sendmsg in Hsent.
  rewrite (CalculateTotalSize_sum sent Hfits), Nat2Z.id in Hsent.
  rewrite gather_fits in Hsent
    by (rewrite length_resize; cbn [Nat.add]; lia).
  rewrite take_0 in Hsent. cbn [app Nat.add] in Hsent.
  rewrite drop_ge, app_nil_r in Hsent by (rewrite length_resize; lia).
  destruct (send_host _) as [send_reply|]; [ | discriminate Hsent].
  assert (send_iov_buffer request = concat (msg_iov sent)) as Hbuffer.
  { destruct (bool_decide (send_result send_reply = -1));
      injection Hsent as _ _ <-; reflexivity. }
  rewrite Hbuffer in Hdata.
  unfold enc_untrusted_recvmsg. rewrite Hreply.
  rewrite bool_decide_eq_false_2 by exact Hresult.
  rewrite Hname, Hcontrol, Hdata. cbn [length].
  change (Z.to_nat (to_socklen_t (Z.of_nat 0))) with 0%nat.
  change (Z.to_nat (Z.of_nat 0)) with 0%nat.
  rewrite !memcpy_in_bounds by (cbn [length Nat.add]; lia).
  destruct (scatter_from (msg_iov target) (concat (msg_iov sent)) 0
              ltac:(lia)) as (iovs' & Hscatter & Hshape' & Hconcat).
  rewrite Hscatter. eexists. split; [reflexivity | ].
  cbn [msg_iov]. apply concat_same_shape; [congruence | ].
  rewrite Hconcat, drop_0, Nat.sub_0_r.
  assert (length (concat (msg_iov target)) = length (concat (msg_iov sent)))
    as Hsame.
  { clear -Hshape. revert Hshape. generalize (msg_iov sent).
    induction (msg_iov target) as [|x a IH]; intros [|y b] Hshape;
      try discriminate Hshape; [reflexivity | ].
    cbn [fmap list_fmap concat] in *. injection Hshape as Hxy Hshape.
    rewrite !length_app, Hxy, (IH b Hshape). reflexivity. }
  rewrite Hsame, firstn_all, Nat.min_id, drop_ge by lia.
  apply app_nil_r.
Qed.

Lemma sendmsg_recvmsg_round_trip_witness :
  ∃ received,
    enc_untrusted_recvmsg (host_holding ["a"; "b"; "c"]%char) 4
      (two_buffers ["."; "."]%char ["."]%char) 0 0
      = Returns 3 0 received ∧
    msg_iov received = [["a"; "b"]; ["c"]]%char.
Proof.
  assert (Z.of_nat (length (concat (msg_iov (two_buffers ["a"; "b"]%char
                                                         ["c"]%char))))
          < 2 ^ 64) as Hfits by (simpl; lia).
  assert (enc_untrusted_sendmsg taking_host ["?"%char] 3
            (two_buffers ["a"; "b"]%char ["c"]%char) 0 0
          = Returns 3 0
              {| send_sockfd := 3; send_name := [];
                 send_iov_buffer := ["a"; "b"; "c"]%char;
                 send_control := []; send_msg_flags := 0; send_flags := 0 |})
    as Hsent by (vm_compute; reflexivity).
  assert (recv_result
            {| recv_result := 3; recv_klinux_errno := 0;
               msg_name_extent := [];
               msg_iov_extent := ["a"; "b"; "c"]%char;
               msg_control_extent := [] |} ≠ -1) as Hresult
    by (simpl; lia).
  exact (sendmsg_recvmsg_round_trip taking_host
           (host_holding ["a"; "b"; "c"]%char) ["?"%char] 3 4
           (two_buffers ["a"; "b"]%char ["c"]%char)
           (two_buffers ["."; "."]%char ["."]%char) 0 0 0 0 3 0 _ _
           Hfits Hsent eq_refl eq_refl Hresult eq_refl eq_refl eq_refl).
Defined.

End HostCallsProofs.

(** ** The AES-GCM-SIV cryptor *)

Module AesGcmSivProofs.
Import AesGcmSiv.

Lemma resize_container_failed (n : nat) (c : Container) :
  length (contents (resize_container n c)) ≠ n → resize_container n c = c.
Proof.
  unfold resize_container. destruct (resizes c); [ | reflexivity].
  cbn [contents]. rewrite length_resize. intros Hne. contradiction.
Qed.

Lemma copy_into_whole (src : list uint8_t) (c : Container) :
  length (contents c) = length src → contents (copy_into src c) = src.
Proof.
  intros Hsize. unfold copy_into. cbn [contents].
  rewrite drop_ge by lia. apply app_nil_r.
Qed.

Lemma EvpAead_error `{BoringSSL} (key_size : nat) (status : Status) :
  EvpAead key_size = inl status → error_code status = INVALID_ARGUMENT.
Proof.
  unfold EvpAead. repeat case_decide; intros Heq; try discriminate Heq.
  injection Heq as <-. reflexivity.
Qed.

(** X25. [Seal] asks for a nonce only after its arguments are validated, and
    then always. If the key size selects no AEAD, the message exceeds the
    limit or the generator's nonce length is wrong, [Seal] returns
    INVALID_ARGUMENT and leaves the generator and both outputs as they were.
    Otherwise the generator has made exactly one step, also when [Seal]
    fails afterwards. [*ciphertext] is written only when [Seal] returns the
    ok status; it then holds what [EVP_AEAD_CTX_seal] produced under the
    nonce that was drawn, and [*nonce] holds that nonce. *)
Theorem Seal_draws_a_nonce_only_after_validation `{BoringSSL} {G : Type}
    `{NonceGenerator G} (message_size_limit_ : Z) (nonce_generator_ : G)
    (key additional_data plaintext : list uint8_t)
    (nonce ciphertext : Container) :
  let '(status, generator', nonce', ciphertext') :=
    Seal message_size_limit_ nonce_generator_ key additional_data plaintext
         nonce ciphertext in
  let '(drawn_status, written, drawn_generator) :=
    draw key nonce_generator_ in
  let nonce_copy := resize kAesGcmSivNonceSize Ascii.zero written in
  ((∀ aead, ¬ validated message_size_limit_ key additional_data plaintext
                        aead) →
     error_code status = INVALID_ARGUMENT ∧
     generator' = nonce_generator_ ∧ nonce' = nonce ∧
     ciphertext' = ciphertext) ∧
  (∀ aead,
     validated message_size_limit_ key additional_data plaintext aead →
     generator' = drawn_generator ∧
     (ok drawn_status = false → status = drawn_status ∧ nonce' = nonce) ∧
     (ok status = true →
        ok drawn_status = true ∧
        contents nonce' = nonce_copy ∧
        EVP_AEAD_CTX_seal aead key
          (length plaintext + EVP_AEAD_max_overhead aead) nonce_copy
          plaintext additional_data = Some (contents ciphertext'))) ∧
  (ok status = false → ciphertext' = ciphertext) ∧
  (ok status = true →
     ∃ aead, validated message_size_limit_ key additional_data plaintext
                       aead).
Proof.
  unfold Seal, draw, validated.
  destruct (EvpAead (length key)) as [error | aead] eqn:Haead.
  { destruct (NextNonce _ nonce_generator_) as [[drawn_status written] g1].
    pose proof (EvpAead_error _ _ Haead) as Hcode.
    assert (ok error = false) as Hfailed
      by (unfold ok; rewrite Hcode; reflexivity).
    split; [intros _; repeat split; assumption | ].
    split; [intros aead (Hchosen & _); discriminate Hchosen | ].
    split; [intros _; reflexivity | intros Hok; congruence]. }
  case_bool_decide as Hsize.
  { destruct (NextNonce _ nonce_generator_) as [[drawn_status written] g1].
    split; [intros _; repeat split; reflexivity | ].
    split; [intros aead' (_ & Hfits & _); lia | ].
    split; [intros _; reflexivity | intros Hok; discriminate Hok]. }
  case_bool_decide as Hnonce.
  { destruct (NextNonce _ nonce_generator_) as [[drawn_status written] g1].
    split; [intros _; repeat split; reflexivity | ].
    split.
    { intros aead' (Hchosen & _ & Hlength). exfalso.
      injection Hchosen as <-. contradiction. }
    split; [intros _; reflexivity | intros Hok; discriminate Hok]. }
  assert (nonce_size = EVP_AEAD_nonce_length aead) as Hlength
    by (destruct (decide (nonce_size = EVP_AEAD_nonce_length aead));
        [assumption | contradiction]).
  assert (validated message_size_limit_ key additional_data plaintext aead)
    as Hvalid by (unfold validated; repeat split; [exact Haead | lia | exact Hlength]).
  unfold validated in Hvalid.
  destruct (NextNonce _ nonce_generator_) as [[drawn_status written] g1].
  set (nonce_copy := resize kAesGcmSivNonceSize Ascii.zero written).
  assert (∀ P : Prop,
            ((∀ aead0,
                ¬ (inr aead = inr aead0 (A := Status) ∧
                   (Z.of_nat (length additional_data)
                    + Z.of_nat (length plaintext)) mod 2 ^ 64
                     <= message_size_limit_ ∧
                   nonce_size = EVP_AEAD_nonce_length aead0)) → P))
    as Hnever.
  { intros P Hnone. exfalso. apply (Hnone aead).
    split; [reflexivity | split; [lia | exact Hlength]]. }
  destruct (ok drawn_status) eqn:Hdrawn; cbn [negb].
  2:{ split; [apply Hnever | ].
      split.
      { intros aead' (Hchosen & _). injection Hchosen as <-.
        split; [reflexivity | split; [auto | ]].
        intros Hok. congruence. }
      split; [intros _; reflexivity | intros Hok; congruence]. }
  case_bool_decide as Hresized.
  { split; [apply Hnever | ].
    split.
    { intros aead' (Hchosen & _). injection Hchosen as <-.
      split; [reflexivity | split; [intros Hno; discriminate Hno | ]].
      intros Hok. discriminate Hok. }
    split; [intros _; reflexivity | intros Hok; discriminate Hok]. }
  assert (length (contents (resize_container (length nonce_copy) nonce))
          = length nonce_copy) as Hnonce_size
    by (destruct (decide (length (contents (resize_container
                                              (length nonce_copy) nonce))
                          = length nonce_copy));
        [assumption | contradiction]).
  destruct (EVP_AEAD_CTX_init aead key); cbn [negb].
  2:{ split; [apply Hnever | ].
      split.
      { intros aead' (Hchosen & _). injection Hchosen as <-.
        split; [reflexivity | split; [intros Hno; discriminate Hno | ]].
        intros Hok. discriminate Hok. }
      split; [intros _; reflexivity | intros Hok; discriminate Hok]. }
  destruct (EVP_AEAD_CTX_seal aead key _ nonce_copy plaintext
              additional_data) as [sealed|] eqn:Hsealed.
  2:{ split; [apply Hnever | ].
      split.
      { intros aead' (Hchosen & _). injection Hchosen as <-.
        split; [reflexivity | split; [intros Hno; discriminate Hno | ]].
        intros Hok. discriminate Hok. }
      split; [intros _; reflexivity | intros Hok; discriminate Hok]. }
  case_bool_decide as Hroom.
  { split; [apply Hnever | ].
    split.
    { intros aead' (Hchosen & _). injection Hchosen as <-.
      split; [reflexivity | split; [intros Hno; discriminate Hno | ]].
      intros Hok. discriminate Hok. }
    split; [intros _; apply resize_container_failed, Hroom | ].
    intros Hok. discriminate Hok. }
  assert (length (contents (resize_container (length sealed) ciphertext))
          = length sealed) as Hcipher_size
    by (destruct (decide (length (contents (resize_container
                                              (length sealed) ciphertext))
                          = length sealed));
        [assumption | contradiction]).
  split; [apply Hnever | ].
  split.
  { intros aead' (Hchosen & _). injection Hchosen as <-.
    split; [reflexivity | split; [intros Hno; discriminate Hno | ]].
    intros _. split; [reflexivity | split].
    - apply copy_into_whole, Hnonce_size.
    - rewrite (copy_into_whole _ _ Hcipher_size). exact Hsealed. }
  split; [intros Hno; discriminate Hno | ].
  intros _. exists aead. split; [reflexivity | split; [lia | exact Hlength]].
Qed.

(** What a successful [Seal] has established. *)
Lemma Seal_succeeded `{BoringSSL} {G : Type} `{NonceGenerator G}
    (message_size_limit_ : Z) (nonce_generator_ generator' : G)
    (key additional_data plaintext : list uint8_t)
    (nonce ciphertext nonce' ciphertext' : Container) (status : Status) :
  Seal message_size_limit_ nonce_generator_ key additional_data plaintext
       nonce ciphertext = (status, generator', nonce', ciphertext') →
  ok status = true →
  ∃ aead,
    EvpAead (length key) = inr aead ∧
    nonce_size = EVP_AEAD_nonce_length aead ∧
    EVP_AEAD_CTX_init aead key = true ∧
    length (contents nonce') = kAesGcmSivNonceSize ∧
    EVP_AEAD_CTX_seal aead key
      (length plaintext + EVP_AEAD_max_overhead aead) (contents nonce')
      plaintext additional_data = Some (contents ciphertext').
Proof.
  unfold Seal. intros Hrun Hok.
  destruct (EvpAead (length key)) as [error | aead] eqn:Haead.
  { injection Hrun as <- _ _ _.
    pose proof (EvpAead_error _ _ Haead) as Hcode.
    unfold ok in Hok. rewrite Hcode in Hok. discriminate Hok. }
  case_bool_decide as Hsize;
    [injection Hrun as <- _ _ _; discriminate Hok | ].
  case_bool_decide as Hnonce;
    [injection Hrun as <- _ _ _; discriminate Hok | ].
  destruct (NextNonce _ nonce_generator_) as [[drawn_status written] g1].
  set (nonce_copy := resize kAesGcmSivNonceSize Ascii.zero written) in *.
  assert (length nonce_copy = kAesGcmSivNonceSize) as Hcopy
    by apply length_resize.
  destruct (ok drawn_status) eqn:Hdrawn; cbn [negb] in Hrun;
    [ | injection Hrun as <- _ _ _; congruence ].
  case_bool_decide as Hresized;
    [injection Hrun as <- _ _ _; discriminate Hok | ].
  destruct (EVP_AEAD_CTX_init aead key) eqn:Hinit; cbn [negb] in Hrun;
    [ | injection Hrun as <- _ _ _; discriminate Hok ].
  destruct (EVP_AEAD_CTX_seal aead key _ nonce_copy plaintext
              additional_data) as [sealed|] eqn:Hsealed;
    [ | injection Hrun as <- _ _ _; discriminate Hok ].
  case_bool_decide as Hroom;
    [injection Hrun as <- _ _ _; discriminate Hok | ].
  injection Hrun as _ _ <- <-.
  exists aead.
  rewrite (copy_into_whole _ _ Hresized), (copy_into_whole _ _ Hroom).
  split; [reflexivity | split; [exact Hnonce | split; [exact Hinit | ]]].
  split; [exact Hcopy | exact Hsealed].
Qed.

(** X26. What [Seal] sealed, [Open] opens. With an AEAD that opens what it
    sealed and a generator of 12-byte nonces: if [Seal] returns the ok
    status, then [Open] with the same key and additional data, the
    ciphertext and the nonce [Seal] wrote, and an output container that can
    be resized returns the ok status and the plaintext that was sealed. *)
Theorem Seal_then_Open_round_trip `{BoringSSL} {G : Type}
    `{NonceGenerator G} (message_size_limit_ : Z)
    (nonce_generator_ generator' : G)
    (key additional_data plaintext : list uint8_t)
    (nonce ciphertext nonce' ciphertext' target : Container)
    (status : Status) :
  opens_what_it_sealed →
  nonce_size = kAesGcmSivNonceSize →
  resizes target = true →
  Seal message_size_limit_ nonce_generator_ key additional_data plaintext
       nonce ciphertext = (status, generator', nonce', ciphertext') →
  ok status = true →
  Open key additional_data (contents ciphertext') (contents nonce') target
    = (OkStatus, {| contents := plaintext; resizes := true |}).
Proof.
  intros Hopens Hgenerator Htarget Hrun Hok.
  destruct (Seal_succeeded _ _ _ _ _ _ _ _ _ _ _ Hrun Hok)
    as (aead & Haead & Hlength & Hinit & Hnonce & Hsealed).
  apply Hopens in Hsealed.
  unfold Open. rewrite Haead.
  rewrite bool_decide_eq_false_2 by congruence.
  rewrite Hinit. cbn [negb]. rewrite Hsealed.
  unfold resize_container. rewrite Htarget. cbn [contents].
  rewrite bool_decide_eq_false_2
    by (intros Hne; apply Hne, length_resize).
  unfold copy_into. cbn [contents resizes].
  rewrite drop_ge by (rewrite length_resize; lia).
  rewrite app_nil_r. reflexivity.
Qed.

Lemma toy_ssl_opens_what_it_sealed : opens_what_it_sealed.
Proof.
  intros aead key room nonce plaintext additional_data sealed.
  cbn [EVP_AEAD_CTX_seal EVP_AEAD_CTX_open toy_ssl].
  destruct (decide (length plaintext + 16 ≤ room)%nat);
    [ | intros Hseal; discriminate Hseal ].
  intros [= <-].
  assert (length (toy_tag nonce) = 16%nat) as Htag
    by apply length_replicate.
  rewrite length_app, Htag.
  replace (length plaintext + 16 - 16)%nat with (length plaintext) by lia.
  rewrite drop_app_length, take_app_length.
  rewrite decide_True by (split; [reflexivity | lia]). reflexivity.
Qed.

Lemma Seal_then_Open_round_trip_witness :
  let '(status, generator', nonce', ciphertext') :=
    Seal 1024 7%nat key_128 ["a"; "d"]%char ["p"; "t"]%char
         empty_vector empty_vector in
  status = OkStatus ∧ generator' = 8%nat ∧
  Open key_128 ["a"; "d"]%char (contents ciphertext') (contents nonce')
       empty_vector
    = (OkStatus, {| contents := ["p"; "t"]%char; resizes := true |}).
Proof.
  destruct (Seal 1024 7%nat key_128 ["a"; "d"]%char ["p"; "t"]%char
                 empty_vector empty_vector)
    as [[[status generator'] nonce'] ciphertext'] eqn:Hrun.
  assert (status = OkStatus ∧ generator' = 8%nat) as [Hstatus Hgenerator].
  { vm_compute in Hrun. injection Hrun as <- <- _ _. split; reflexivity. }
  split; [exact Hstatus | split; [exact Hgenerator | ]].
  assert (@nonce_size nat counter_generator = kAesGcmSivNonceSize)
    as Hsize by reflexivity.
  assert (resizes empty_vector = true) as Hresizes by reflexivity.
  apply (Seal_then_Open_round_trip 1024 7%nat generator' key_128
           ["a"; "d"]%char ["p"; "t"]%char empty_vector empty_vector
           nonce' ciphertext' empty_vector status
           toy_ssl_opens_what_it_sealed Hsize Hresizes Hrun).
  rewrite Hstatus. reflexivity.
Defined.

End AesGcmSivProofs.
